(** * Coloreo de mapas como CSP: vuelta atrás, comprobación hacia delante,
      AC-3 y salto atrás dirigido por conflictos

    Shallow embedding of the constraint-satisfaction scripts 18 to 21 of
    [1.1.3_Satisfaccion_de_restricciones].  Python dictionaries are finite
    maps ([gmap]), Python sets are finite sets ([gset]), region names and
    colours are strings.  The dictionaries of domains of file 20, whose
    lists are changed in place, are maps from keys to list objects
    ([diccionario]).  Trace output ([print]) is not modelled. *)

From stdpp Require Import gmap strings list fin_maps.

(** ** Outcome of a call

    A Python call may run for ever, raise ([KeyError], [IndexError],
    [ValueError]) or return.  Loops and recursion that the source does not
    bound are run with fuel; [SinCombustible] says the fuel did not suffice. *)

Inductive salida (A : Type) : Type :=
  | SinCombustible : salida A
  | Excepcion : salida A
  | Retorna : A → salida A.
Arguments SinCombustible {A}.
Arguments Excepcion {A}.
Arguments Retorna {A} _.

(** [list.index(v)]: position of the first occurrence. *)
Fixpoint index_of (v : string) (l : list string) : option nat :=
  match l with
  | [] => None
  | x :: r => if decide (x = v) then Some 0 else S <$> index_of v r
  end.

(** [max(l)] of a list of indices (the source only calls it on a
    non-empty list). *)
Definition max_lista (l : list nat) : nat := foldr Nat.max 0 l.

(** The store of dictionary objects used for file 19: addresses to
    dictionaries. *)
Abbreviation almacen := (gmap nat (gmap string (list string))).

(** ** Dictionaries of list objects (file 20)

    File 20 removes values in place ([dominios[xi].remove(v)]), so what a
    key of a dictionary of domains holds matters as an object: two keys
    may hold the same list, and then a removal through one is seen through
    the other.  A dictionary is the map from its keys to list addresses
    together with the list objects at those addresses.  The addresses are
    local to the dictionary: [copy.deepcopy] gives the copy lists of its
    own, arranged as in the original, and no function of the file puts a
    list of one dictionary into another.  The lists of a dictionary of
    domains are taken to be other objects than the lists of [adyacentes]
    and [variables], which the file only reads. *)

Record diccionario : Type := Diccionario {
  claves : gmap string nat;
  listas : gmap nat (list string)
}.

(** [dominios[k]]: the list under the key; [None] is [KeyError]. *)
Definition leer (d : diccionario) (k : string) : option (list string) :=
  claves d !! k ≫= λ a, listas d !! a.

(** The list object at address [a] becomes [l]: every key that holds the
    object sees the new contents. *)
Definition escribir (d : diccionario) (a : nat) (l : list string)
    : diccionario :=
  Diccionario (claves d) (<[a := l]> (listas d)).

(** [dominios[k] = l] for a list [l] that was just built: the key is bound
    to a new list object. *)
Definition asignar (d : diccionario) (k : string) (l : list string)
    : diccionario :=
  let a := fresh (dom (listas d) ∪ map_img (claves d)) in
  Diccionario (<[k := a]> (claves d)) (<[a := l]> (listas d)).

(** What each key reads: the dictionary as a map from keys to values. *)
Definition vista (d : diccionario) : gmap string (list string) :=
  omap (λ a, listas d !! a) (claves d).

(** The dictionary that reads the values [m], built key by key with a new
    list object for each key. *)
Definition de_valores (m : gmap string (list string)) : diccionario :=
  map_fold (λ k l d, asignar d k l) (Diccionario ∅ ∅) m.

(** The store of dictionary objects used for file 20. *)
Abbreviation almacen_dicc := (gmap nat diccionario).

Section CSP.

(** The scripts keep the adjacency table and the list of regions in module
    globals; every function below reads them from there. *)
Variable adyacentes : gmap string (list string).
Variable variables : list string.

(** [no_conflicto_binario] (identical in files 18, 19, 20 and 21):
    [adyacentes.get(var_a, [])] and then [val_a != val_b]. *)
Definition no_conflicto_binario (var_a val_a var_b val_b : string) : bool :=
  if decide (var_b ∈ default [] (adyacentes !! var_a))
  then bool_decide (val_a ≠ val_b)
  else true.

(** *** File 18: backtracking *)

(** [es_consistente_con_asignacion]: no entry of the partial assignment
    conflicts with [var = valor].  The result does not depend on the
    order in which [items()] is visited. *)
Definition es_consistente_con_asignacion
    (actual_asignacion : gmap string string) (var valor : string) : bool :=
  forallb (λ '(otra_var, otro_valor),
             no_conflicto_binario var valor otra_var otro_valor)
          (map_to_list actual_asignacion).

(** Result of [backtracking]: the dictionary [asignacion_parcial] is
    mutated in place, so a call that returns hands back the state of that
    one dictionary: either it is the solution itself ([Exito]) or the call
    returned [None] and left the dictionary as [Fallo] records. *)
Inductive resultado : Type :=
  | Exito (solucion : gmap string string)
  | Fallo (asignacion_parcial : gmap string string).

(** The [for valor in dominios[var_actual]] loop, given the recursive
    call.  [del asignacion_parcial[var_actual]] raises when the key is
    missing. *)
Fixpoint probar_valores
    (rec : gmap string string → salida resultado)
    (var_actual : string) (asignacion_parcial : gmap string string)
    (valores : list string) : salida resultado :=
  match valores with
  | [] => Retorna (Fallo asignacion_parcial)
  | valor :: resto =>
      if es_consistente_con_asignacion asignacion_parcial var_actual valor
      then
        match rec (<[var_actual := valor]> asignacion_parcial) with
        | Retorna (Fallo asignacion') =>
            match asignacion' !! var_actual with
            | Some _ =>
                probar_valores rec var_actual
                               (delete var_actual asignacion') resto
            | None => Excepcion
            end
        | r => r
        end
      else probar_valores rec var_actual asignacion_parcial resto
  end.

Fixpoint backtracking (fuel : nat)
    (asignacion_parcial : gmap string string)
    (variables_orden : list string)
    (dominios : gmap string (list string)) : salida resultado :=
  match fuel with
  | 0 => SinCombustible
  | S fuel' =>
      if decide (size asignacion_parcial = length variables_orden)
      then Retorna (Exito asignacion_parcial)
      else
        match variables_orden !! size asignacion_parcial with
        | None => Excepcion
        | Some var_actual =>
            match dominios !! var_actual with
            | None => Excepcion
            | Some dominio =>
                probar_valores
                  (λ a, backtracking fuel' a variables_orden dominios)
                  var_actual asignacion_parcial dominio
            end
        end
  end.

(** *** File 21: conflict-directed backjumping *)

(** [es_consistente_con_parcial] returns the pair
    [(len(conflictos) == 0, conflictos)]; the model returns the set, the
    boolean being [size conflictos = 0]. *)
Definition es_consistente_con_parcial
    (asignacion : gmap string string) (var valor : string) : gset string :=
  list_to_set
    (fst <$> filter (λ '(otra_var, otro_val),
                       no_conflicto_binario var valor otra_var otro_val = false)
                    (map_to_list asignacion)).

(** The local variables of [backjumping].  [conflict_set] and
    [intento_valor_idx] are created with a key for every element of
    [orden_vars] and are only ever indexed with elements of [orden_vars],
    so their lookups cannot raise: they are read with the total lookup
    [!!!]. *)
Record estado : Type := Estado {
  asignacion_parcial : gmap string string;
  conflict_set : gmap string (gset string);
  intento_valor_idx : gmap string nat;
  idx_actual : Z
}.

Definition estado_inicial (orden_vars : list string) : estado :=
  {| asignacion_parcial := ∅;
     conflict_set := list_to_map ((λ v, (v, ∅)) <$> orden_vars);
     intento_valor_idx := list_to_map ((λ v, (v, 0)) <$> orden_vars);
     idx_actual := 0 |}.

(** The inner [while intento_valor_idx[var_actual] < len(dominio_var)]
    loop.  [pendientes] is [dominio_var] from position [intento] on; the
    result is the value assigned (if any), the conflict set and the trial
    index of [var_actual] when the loop is left. *)
Fixpoint intentar_valores (asignacion : gmap string string)
    (var_actual : string) (conflictos_var : gset string) (intento : nat)
    (pendientes : list string) : option string * gset string * nat :=
  match pendientes with
  | [] => (None, conflictos_var, intento)
  | valor :: resto =>
      let conflictos_directos :=
        es_consistente_con_parcial asignacion var_actual valor in
      if decide (size conflictos_directos = 0)
      then (Some valor, conflictos_var, intento)
      else intentar_valores asignacion var_actual
             (conflictos_var ∪ conflictos_directos) (S intento) resto
  end.

(** [indices_conflictivos]: [orden_vars.index(v)] for the [v] of the
    conflict set that occur in [orden_vars]. *)
Definition indices_conflictivos (orden_vars : list string)
    (conflictos : gset string) : list nat :=
  omap (λ v, index_of v orden_vars) (elements conflictos).

(** One round of the cleaning loop [for i in range(idx_actual, len)]. *)
Definition limpiar_uno (orden_vars : list string) (salto_idx : Z)
    (e : estado) (i : nat) : estado :=
  match orden_vars !! i with
  | None => e
  | Some var_i =>
      let asig := delete var_i (asignacion_parcial e) in
      if decide (Z.of_nat i = salto_idx)
      then {| asignacion_parcial := asig;
              conflict_set := conflict_set e;
              intento_valor_idx := intento_valor_idx e;
              idx_actual := idx_actual e |}
      else {| asignacion_parcial := asig;
              conflict_set := <[var_i := ∅]> (conflict_set e);
              intento_valor_idx := <[var_i := 0]> (intento_valor_idx e);
              idx_actual := idx_actual e |}
  end.

Definition limpiar (orden_vars : list string) (salto_idx : Z)
    (desde : nat) (e : estado) : estado :=
  foldl (limpiar_uno orden_vars salto_idx) e
        (seq desde (length orden_vars - desde)).

(** The jump target [salto_idx] (lines 206 to 220). *)
Definition calcular_salto (orden_vars : list string) (idx : Z)
    (conflictos : gset string) : Z :=
  if decide (size conflictos = 0) then (idx - 1)%Z
  else match indices_conflictivos orden_vars conflictos with
       | [] => (idx - 1)%Z
       | indices => Z.of_nat (max_lista indices)
       end.

(** The jump itself (lines 206 to 260), taken when no value of
    [var_actual] could be assigned: merge of the conflict set into the
    target's, cleaning loop, advance of the target's trial index. *)
Definition saltar (orden_vars : list string) (e : estado)
    (var_actual : string) : estado :=
  let conflictos := conflict_set e !!! var_actual in
  let salto_idx := calcular_salto orden_vars (idx_actual e) conflictos in
  let cs2 :=
    if decide (size conflictos = 0) then conflict_set e
    else match orden_vars !! Z.to_nat salto_idx with
         | Some var_salto =>
             if decide (0 ≤ salto_idx)%Z
             then <[var_salto :=
                      (conflict_set e !!! var_salto) ∪ conflictos]>
                    (conflict_set e)
             else conflict_set e
         | None => conflict_set e
         end in
  let e1 :=
    limpiar orden_vars salto_idx (Z.to_nat (idx_actual e))
      {| asignacion_parcial := asignacion_parcial e;
         conflict_set := cs2;
         intento_valor_idx := intento_valor_idx e;
         idx_actual := idx_actual e |} in
  let iv3 :=
    match orden_vars !! Z.to_nat salto_idx with
    | Some var_salto =>
        if decide (0 ≤ salto_idx)%Z
        then <[var_salto := S (intento_valor_idx e1 !!! var_salto)]>
               (intento_valor_idx e1)
        else intento_valor_idx e1
    | None => intento_valor_idx e1
    end in
  {| asignacion_parcial := asignacion_parcial e1;
     conflict_set := conflict_set e1;
     intento_valor_idx := iv3;
     idx_actual := salto_idx |}.

(** What one pass through the body of [while True] does. *)
Inductive paso_res : Type :=
  | Termina (r : option (gmap string string))
  | Lanza
  | Sigue (e : estado).

Definition paso (orden_vars : list string)
    (dominios : gmap string (list string)) (e : estado) : paso_res :=
  if decide (idx_actual e < 0)%Z then Termina None
  else if decide (idx_actual e = Z.of_nat (length orden_vars))
  then Termina (Some (asignacion_parcial e))
  else
    let idx := Z.to_nat (idx_actual e) in
    match orden_vars !! idx with
    | None => Lanza
    | Some var_actual =>
        match dominios !! var_actual with
        | None => Lanza
        | Some dominio_var =>
            let intento0 := intento_valor_idx e !!! var_actual in
            let '(asignado, cs_var, intento) :=
              intentar_valores (asignacion_parcial e) var_actual
                (conflict_set e !!! var_actual) intento0
                (drop intento0 dominio_var) in
            let cs1 := <[var_actual := cs_var]> (conflict_set e) in
            let iv1 := <[var_actual := intento]> (intento_valor_idx e) in
            match asignado with
            | Some valor =>
                Sigue
                  {| asignacion_parcial :=
                       <[var_actual := valor]> (asignacion_parcial e);
                     conflict_set := cs1;
                     intento_valor_idx :=
                       match orden_vars !! S idx with
                       | Some siguiente => <[siguiente := 0]> iv1
                       | None => iv1
                       end;
                     idx_actual := (idx_actual e + 1)%Z |}
            | None =>
                Sigue
                  (saltar orden_vars
                     {| asignacion_parcial := asignacion_parcial e;
                        conflict_set := cs1;
                        intento_valor_idx := iv1;
                        idx_actual := idx_actual e |}
                     var_actual)
            end
        end
    end.

(** The [while True] loop, run with fuel. *)
Fixpoint bucle (fuel : nat) (orden_vars : list string)
    (dominios : gmap string (list string)) (e : estado)
    : salida (option (gmap string string)) :=
  match fuel with
  | 0 => SinCombustible
  | S fuel' =>
      match paso orden_vars dominios e with
      | Termina r => Retorna r
      | Lanza => Excepcion
      | Sigue e' => bucle fuel' orden_vars dominios e'
      end
  end.

Definition backjumping (fuel : nat) (orden_vars : list string)
    (dominios : gmap string (list string))
    : salida (option (gmap string string)) :=
  bucle fuel orden_vars dominios (estado_inicial orden_vars).

(** [n] passes through the loop body, for tracing a run. *)
Fixpoint pasos (n : nat) (orden_vars : list string)
    (dominios : gmap string (list string)) (e : estado) : paso_res :=
  match n with
  | 0 => Sigue e
  | S n' =>
      match paso orden_vars dominios e with
      | Sigue e' => pasos n' orden_vars dominios e'
      | r => r
      end
  end.

(** *** File 19: forward checking *)

(** [podar_dominios] works on [copy.deepcopy(dominios)].  To say that the
    caller's dictionary is left alone, dictionaries live in a store of
    objects: [deepcopy] allocates a new object, and every assignment
    [nuevos_dominios[k] = ...] writes to that object.  The lists stored
    in the dictionary are never mutated by this file (a filtered list is
    a new list), so they are kept as values. *)

Definition deepcopy (h : almacen) (d : gmap string (list string))
    : almacen * nat :=
  let l := fresh (dom h) in (<[l := d]> h, l).

(** The [for vecino in adyacentes[var_actual]] loop on the object
    [nuevos] of the store.  [Retorna false] is [return None]. *)
Fixpoint podar_vecinos (h : almacen) (nuevos : nat)
    (asignacion : gmap string string) (var_actual valor_actual : string)
    (vecinos : list string) : almacen * salida bool :=
  match vecinos with
  | [] => (h, Retorna true)
  | vecino :: resto =>
      if decide (vecino ∈ dom asignacion)
      then podar_vecinos h nuevos asignacion var_actual valor_actual resto
      else
        match h !! nuevos with
        | None => (h, Excepcion)
        | Some nuevos_dominios =>
            match nuevos_dominios !! vecino with
            | None => (h, Excepcion)
            | Some dominio_vecino =>
                let dominio_filtrado :=
                  filter (λ val_vecino,
                            no_conflicto_binario var_actual valor_actual
                              vecino val_vecino = true)
                         dominio_vecino in
                if decide (length dominio_filtrado = 0)
                then (h, Retorna false)
                else
                  podar_vecinos
                    (<[nuevos := <[vecino := dominio_filtrado]>
                                   nuevos_dominios]> h)
                    nuevos asignacion var_actual valor_actual resto
            end
        end
  end.

(** [podar_dominios]: [dominios] is the address of the caller's
    dictionary; the result is the address of the pruned copy, or [None]. *)
Definition podar_dominios (h : almacen) (dominios : nat)
    (asignacion : gmap string string) (var_actual valor_actual : string)
    : almacen * salida (option nat) :=
  match h !! dominios with
  | None => (h, Excepcion)
  | Some d =>
      let '(h1, nuevos) := deepcopy h d in
      let h2 := <[nuevos := <[var_actual := [valor_actual]]> d]> h1 in
      match adyacentes !! var_actual with
      | None => (h2, Excepcion)
      | Some vecinos =>
          match podar_vecinos h2 nuevos asignacion var_actual
                              valor_actual vecinos with
          | (h3, Retorna true) => (h3, Retorna (Some nuevos))
          | (h3, Retorna false) => (h3, Retorna None)
          | (h3, Excepcion) => (h3, Excepcion)
          | (h3, SinCombustible) => (h3, SinCombustible)
          end
      end
  end.

(** *** File 20: AC-3 *)

(** [l.remove(v)]: drops the first occurrence, [ValueError] when there
    is none. *)
Fixpoint quitar (v : string) (l : list string) : option (list string) :=
  match l with
  | [] => None
  | x :: r => if decide (x = v) then Some r else (x ::.) <$> quitar v r
  end.

(** The [for v in dominio_xi_actual] loop of [revisar_arco].
    [dominios[xi].remove(v)] changes the list object that [xi] holds. *)
Fixpoint revisar_valores (xi xj : string) (pendientes : list string)
    (cambiado : bool) (dominios : diccionario)
    : salida (bool * diccionario) :=
  match pendientes with
  | [] => Retorna (cambiado, dominios)
  | v :: resto =>
      match leer dominios xj with
      | None => Excepcion
      | Some dominio_xj =>
          if existsb (λ w, no_conflicto_binario xi v xj w) dominio_xj
          then revisar_valores xi xj resto cambiado dominios
          else
            match claves dominios !! xi with
            | None => Excepcion
            | Some a =>
                match listas dominios !! a with
                | None => Excepcion
                | Some dominio_xi =>
                    match quitar v dominio_xi with
                    | None => Excepcion
                    | Some dominio_xi' =>
                        revisar_valores xi xj resto true
                          (escribir dominios a dominio_xi')
                    end
                end
            end
      end
  end.

(** [dominio_xi_actual = dominios[xi][:]] is a snapshot: a list value. *)
Definition revisar_arco (xi xj : string) (dominios : diccionario)
    : salida (bool * diccionario) :=
  match leer dominios xi with
  | None => Excepcion
  | Some dominio_xi_actual =>
      revisar_valores xi xj dominio_xi_actual false dominios
  end.

(** The initial queue: [for xi in variables: for xj in adyacentes[xi]]. *)
Fixpoint arcos_iniciales (vars : list string)
    : option (list (string * string)) :=
  match vars with
  | [] => Some []
  | xi :: resto =>
      match adyacentes !! xi with
      | None => None
      | Some vecinos =>
          (λ cola, ((λ xj, (xi, xj)) <$> vecinos) ++ cola)
            <$> arcos_iniciales resto
      end
  end.

(** The [while cola] loop.  The result carries the final state of the
    dictionary that [ac3] mutates. *)
Fixpoint ac3_bucle (fuel : nat) (cola : list (string * string))
    (dominios : diccionario) : salida (bool * diccionario) :=
  match fuel with
  | 0 => SinCombustible
  | S fuel' =>
      match cola with
      | [] => Retorna (true, dominios)
      | (xi, xj) :: resto =>
          match leer dominios xi with
          | None => Excepcion
          | Some antes =>
              match revisar_arco xi xj dominios with
              | Retorna (true, dominios') =>
                  match leer dominios' xi with
                  | None => Excepcion
                  | Some despues =>
                      if decide (length despues = 0)
                      then Retorna (false, dominios')
                      else
                        match adyacentes !! xi with
                        | None => Excepcion
                        | Some vecinos =>
                            ac3_bucle fuel'
                              (resto ++
                                 ((λ xk, (xk, xi)) <$>
                                    filter (λ xk, xk ≠ xj) vecinos))
                              dominios'
                        end
                  end
              | Retorna (false, dominios') =>
                  ac3_bucle fuel' resto dominios'
              | r => r
              end
          end
      end
  end.

Definition ac3 (fuel : nat) (dominios : diccionario)
    : salida (bool * diccionario) :=
  match arcos_iniciales variables with
  | None => Excepcion
  | Some cola => ac3_bucle fuel cola dominios
  end.

(** *** File 19: the search with forward checking *)

(** [es_consistente_parcial] of files 19 and 20 is, line for line,
    [es_consistente_con_asignacion] of file 18. *)
Definition es_consistente_parcial
    (asignacion : gmap string string) (var valor : string) : bool :=
  es_consistente_con_asignacion asignacion var valor.

(** The [for valor in dominios[var_actual]] loop of [forward_checking],
    given the recursive call.  [nueva_asignacion = dict(asignacion_parcial)]
    is a new dictionary, so the assignment is passed by value; the domain
    dictionaries are objects of the store, which every call of
    [podar_dominios] extends. *)
Fixpoint probar_valores_fc
    (rec : almacen → gmap string string → nat
           → almacen * salida (option (gmap string string)))
    (h : almacen) (asignacion_parcial : gmap string string)
    (dominios : nat) (var_actual : string) (valores : list string)
    : almacen * salida (option (gmap string string)) :=
  match valores with
  | [] => (h, Retorna None)
  | valor :: resto =>
      if es_consistente_parcial asignacion_parcial var_actual valor
      then
        let nueva_asignacion := <[var_actual := valor]> asignacion_parcial in
        match podar_dominios h dominios nueva_asignacion var_actual valor with
        | (h1, Retorna (Some dominios_podados)) =>
            match rec h1 nueva_asignacion dominios_podados with
            | (h2, Retorna None) =>
                probar_valores_fc rec h2 asignacion_parcial dominios
                                  var_actual resto
            | r => r
            end
        | (h1, Retorna None) =>
            probar_valores_fc rec h1 asignacion_parcial dominios
                              var_actual resto
        | (h1, Excepcion) => (h1, Excepcion)
        | (h1, SinCombustible) => (h1, SinCombustible)
        end
      else probar_valores_fc rec h asignacion_parcial dominios
                             var_actual resto
  end.

Fixpoint forward_checking (fuel : nat) (h : almacen)
    (asignacion_parcial : gmap string string) (orden_vars : list string)
    (dominios : nat) : almacen * salida (option (gmap string string)) :=
  match fuel with
  | 0 => (h, SinCombustible)
  | S fuel' =>
      if decide (size asignacion_parcial = length orden_vars)
      then (h, Retorna (Some asignacion_parcial))
      else
        match orden_vars !! size asignacion_parcial with
        | None => (h, Excepcion)
        | Some var_actual =>
            match h !! dominios with
            | None => (h, Excepcion)
            | Some d =>
                match d !! var_actual with
                | None => (h, Excepcion)
                | Some dominio =>
                    probar_valores_fc
                      (λ h' a l, forward_checking fuel' h' a orden_vars l)
                      h asignacion_parcial dominios var_actual dominio
                end
            end
        end
  end.

(** *** File 20: the search with forward checking and AC-3 *)

Definition deepcopy_dicc (h : almacen_dicc) (d : diccionario)
    : almacen_dicc * nat :=
  let l := fresh (dom h) in (<[l := d]> h, l).

(** The [for vecino in adyacentes[var_actual]] loop of
    [podar_dominios_forward] on the object [nuevos] of the store; the
    filtered list is a new list.  [Retorna false] is [return None]. *)
Fixpoint podar_vecinos_forward (h : almacen_dicc) (nuevos : nat)
    (asignacion : gmap string string) (var_actual valor_actual : string)
    (vecinos : list string) : almacen_dicc * salida bool :=
  match vecinos with
  | [] => (h, Retorna true)
  | vecino :: resto =>
      if decide (vecino ∈ dom asignacion)
      then podar_vecinos_forward h nuevos asignacion var_actual
                                 valor_actual resto
      else
        match h !! nuevos with
        | None => (h, Excepcion)
        | Some nuevos_dominios =>
            match leer nuevos_dominios vecino with
            | None => (h, Excepcion)
            | Some dominio_vecino =>
                let filtrado :=
                  filter (λ val,
                            no_conflicto_binario var_actual valor_actual
                              vecino val = true)
                         dominio_vecino in
                if decide (length filtrado = 0)
                then (h, Retorna false)
                else
                  podar_vecinos_forward
                    (<[nuevos := asignar nuevos_dominios vecino filtrado]> h)
                    nuevos asignacion var_actual valor_actual resto
            end
        end
  end.

(** [podar_dominios_forward]: [dominios] is the address of the caller's
    dictionary; the result is the address of the pruned copy, or [None]. *)
Definition podar_dominios_forward (h : almacen_dicc) (dominios : nat)
    (asignacion : gmap string string) (var_actual valor_actual : string)
    : almacen_dicc * salida (option nat) :=
  match h !! dominios with
  | None => (h, Excepcion)
  | Some d =>
      let '(h1, nuevos) := deepcopy_dicc h d in
      let h2 := <[nuevos := asignar d var_actual [valor_actual]]> h1 in
      match adyacentes !! var_actual with
      | None => (h2, Excepcion)
      | Some vecinos =>
          match podar_vecinos_forward h2 nuevos asignacion var_actual
                                      valor_actual vecinos with
          | (h3, Retorna true) => (h3, Retorna (Some nuevos))
          | (h3, Retorna false) => (h3, Retorna None)
          | (h3, Excepcion) => (h3, Excepcion)
          | (h3, SinCombustible) => (h3, SinCombustible)
          end
      end
  end.

(** The [for valor in dominios[var_actual]] loop of
    [backtracking_con_propagacion], given the recursive call.
    [dominios_prop = copy.deepcopy(dominios_fc)] is a new object of the
    store and [ac3] mutates that object only; [pasos_ac3] is the fuel of
    each run of its [while] loop.  When [ac3] raises, the exception leaves
    the search and the copy is unreachable, so the store keeps the copy as
    it was made. *)
Fixpoint probar_valores_prop (pasos_ac3 : nat)
    (rec : almacen_dicc → gmap string string → nat
           → almacen_dicc * salida (option (gmap string string)))
    (h : almacen_dicc) (asignacion_parcial : gmap string string)
    (dominios : nat) (var_actual : string) (valores : list string)
    : almacen_dicc * salida (option (gmap string string)) :=
  match valores with
  | [] => (h, Retorna None)
  | valor :: resto =>
      if es_consistente_parcial asignacion_parcial var_actual valor
      then
        let nueva_asignacion := <[var_actual := valor]> asignacion_parcial in
        match podar_dominios_forward h dominios nueva_asignacion
                                     var_actual valor with
        | (h1, Retorna (Some dominios_fc)) =>
            match h1 !! dominios_fc with
            | None => (h1, Excepcion)
            | Some d_fc =>
                let '(h2, dominios_prop) := deepcopy_dicc h1 d_fc in
                match ac3 pasos_ac3 d_fc with
                | Retorna (true, d_prop) =>
                    match rec (<[dominios_prop := d_prop]> h2)
                              nueva_asignacion dominios_prop with
                    | (h3, Retorna None) =>
                        probar_valores_prop pasos_ac3 rec h3
                          asignacion_parcial dominios var_actual resto
                    | r => r
                    end
                | Retorna (false, d_prop) =>
                    probar_valores_prop pasos_ac3 rec
                      (<[dominios_prop := d_prop]> h2)
                      asignacion_parcial dominios var_actual resto
                | Excepcion => (h2, Excepcion)
                | SinCombustible => (h2, SinCombustible)
                end
            end
        | (h1, Retorna None) =>
            probar_valores_prop pasos_ac3 rec h1 asignacion_parcial dominios
                                var_actual resto
        | (h1, Excepcion) => (h1, Excepcion)
        | (h1, SinCombustible) => (h1, SinCombustible)
        end
      else probar_valores_prop pasos_ac3 rec h asignacion_parcial dominios
                               var_actual resto
  end.

Fixpoint backtracking_con_propagacion (pasos_ac3 fuel : nat)
    (h : almacen_dicc) (asignacion_parcial : gmap string string)
    (orden_vars : list string) (dominios : nat)
    : almacen_dicc * salida (option (gmap string string)) :=
  match fuel with
  | 0 => (h, SinCombustible)
  | S fuel' =>
      if decide (size asignacion_parcial = length orden_vars)
      then (h, Retorna (Some asignacion_parcial))
      else
        match orden_vars !! size asignacion_parcial with
        | None => (h, Excepcion)
        | Some var_actual =>
            match h !! dominios with
            | None => (h, Excepcion)
            | Some d =>
                match leer d var_actual with
                | None => (h, Excepcion)
                | Some dominio =>
                    probar_valores_prop pasos_ac3
                      (λ h' a l,
                         backtracking_con_propagacion pasos_ac3 fuel' h' a
                                                      orden_vars l)
                      h asignacion_parcial dominios var_actual dominio
                end
            end
        end
  end.

(** *** File 20 read on values

    The same loops on a dictionary of list values, in which a removal
    under [xi] touches the key [xi] alone.  That is what the functions
    above do to [vista] of a dictionary whose keys hold different list
    objects; these definitions serve the proofs about such
    dictionaries. *)

Fixpoint revisar_valores_val (xi xj : string) (pendientes : list string)
    (cambiado : bool) (dominios : gmap string (list string))
    : salida (bool * gmap string (list string)) :=
  match pendientes with
  | [] => Retorna (cambiado, dominios)
  | v :: resto =>
      match dominios !! xj with
      | None => Excepcion
      | Some dominio_xj =>
          if existsb (λ w, no_conflicto_binario xi v xj w) dominio_xj
          then revisar_valores_val xi xj resto cambiado dominios
          else
            match dominios !! xi with
            | None => Excepcion
            | Some dominio_xi =>
                match quitar v dominio_xi with
                | None => Excepcion
                | Some dominio_xi' =>
                    revisar_valores_val xi xj resto true
                      (<[xi := dominio_xi']> dominios)
                end
            end
      end
  end.

Definition revisar_arco_val (xi xj : string)
    (dominios : gmap string (list string))
    : salida (bool * gmap string (list string)) :=
  match dominios !! xi with
  | None => Excepcion
  | Some dominio_xi_actual =>
      revisar_valores_val xi xj dominio_xi_actual false dominios
  end.

Fixpoint ac3_bucle_val (fuel : nat) (cola : list (string * string))
    (dominios : gmap string (list string))
    : salida (bool * gmap string (list string)) :=
  match fuel with
  | 0 => SinCombustible
  | S fuel' =>
      match cola with
      | [] => Retorna (true, dominios)
      | (xi, xj) :: resto =>
          match dominios !! xi with
          | None => Excepcion
          | Some antes =>
              match revisar_arco_val xi xj dominios with
              | Retorna (true, dominios') =>
                  match dominios' !! xi with
                  | None => Excepcion
                  | Some despues =>
                      if decide (length despues = 0)
                      then Retorna (false, dominios')
                      else
                        match adyacentes !! xi with
                        | None => Excepcion
                        | Some vecinos =>
                            ac3_bucle_val fuel'
                              (resto ++
                                 ((λ xk, (xk, xi)) <$>
                                    filter (λ xk, xk ≠ xj) vecinos))
                              dominios'
                        end
                  end
              | Retorna (false, dominios') =>
                  ac3_bucle_val fuel' resto dominios'
              | r => r
              end
          end
      end
  end.

Definition ac3_val (fuel : nat) (dominios : gmap string (list string))
    : salida (bool * gmap string (list string)) :=
  match arcos_iniciales variables with
  | None => Excepcion
  | Some cola => ac3_bucle_val fuel cola dominios
  end.

Definition podar_dominios_forward_val (h : almacen) (dominios : nat)
    (asignacion : gmap string string) (var_actual valor_actual : string)
    : almacen * salida (option nat) :=
  podar_dominios h dominios asignacion var_actual valor_actual.

Fixpoint probar_valores_prop_val (pasos_ac3 : nat)
    (rec : almacen → gmap string string → nat
           → almacen * salida (option (gmap string string)))
    (h : almacen) (asignacion_parcial : gmap string string)
    (dominios : nat) (var_actual : string) (valores : list string)
    : almacen * salida (option (gmap string string)) :=
  match valores with
  | [] => (h, Retorna None)
  | valor :: resto =>
      if es_consistente_parcial asignacion_parcial var_actual valor
      then
        let nueva_asignacion := <[var_actual := valor]> asignacion_parcial in
        match podar_dominios_forward_val h dominios nueva_asignacion
                                     var_actual valor with
        | (h1, Retorna (Some dominios_fc)) =>
            match h1 !! dominios_fc with
            | None => (h1, Excepcion)
            | Some d_fc =>
                let '(h2, dominios_prop) := deepcopy h1 d_fc in
                match ac3_val pasos_ac3 d_fc with
                | Retorna (true, d_prop) =>
                    match rec (<[dominios_prop := d_prop]> h2)
                              nueva_asignacion dominios_prop with
                    | (h3, Retorna None) =>
                        probar_valores_prop_val pasos_ac3 rec h3
                          asignacion_parcial dominios var_actual resto
                    | r => r
                    end
                | Retorna (false, d_prop) =>
                    probar_valores_prop_val pasos_ac3 rec
                      (<[dominios_prop := d_prop]> h2)
                      asignacion_parcial dominios var_actual resto
                | Excepcion => (h2, Excepcion)
                | SinCombustible => (h2, SinCombustible)
                end
            end
        | (h1, Retorna None) =>
            probar_valores_prop_val pasos_ac3 rec h1 asignacion_parcial dominios
                                var_actual resto
        | (h1, Excepcion) => (h1, Excepcion)
        | (h1, SinCombustible) => (h1, SinCombustible)
        end
      else probar_valores_prop_val pasos_ac3 rec h asignacion_parcial dominios
                               var_actual resto
  end.

Fixpoint backtracking_con_propagacion_val (pasos_ac3 fuel : nat) (h : almacen)
    (asignacion_parcial : gmap string string) (orden_vars : list string)
    (dominios : nat) : almacen * salida (option (gmap string string)) :=
  match fuel with
  | 0 => (h, SinCombustible)
  | S fuel' =>
      if decide (size asignacion_parcial = length orden_vars)
      then (h, Retorna (Some asignacion_parcial))
      else
        match orden_vars !! size asignacion_parcial with
        | None => (h, Excepcion)
        | Some var_actual =>
            match h !! dominios with
            | None => (h, Excepcion)
            | Some d =>
                match d !! var_actual with
                | None => (h, Excepcion)
                | Some dominio =>
                    probar_valores_prop_val pasos_ac3
                      (λ h' a l,
                         backtracking_con_propagacion_val pasos_ac3 fuel' h' a
                                                      orden_vars l)
                      h asignacion_parcial dominios var_actual dominio
                end
            end
        end
  end.

End CSP.

Module Australia.

Definition variables : list string :=
  ["WA"; "NT"; "SA"; "Q"; "NSW"; "V"; "T"].

Definition dominio_base : gmap string (list string) :=
  list_to_map ((λ v, (v, ["ROJO"; "VERDE"; "AZUL"])) <$> variables).

Definition adyacentes : gmap string (list string) :=
  list_to_map
    [ ("WA",  ["NT"; "SA"]);
      ("NT",  ["WA"; "SA"; "Q"]);
      ("SA",  ["WA"; "NT"; "Q"; "NSW"; "V"]);
      ("Q",   ["NT"; "SA"; "NSW"]);
      ("NSW", ["SA"; "Q"; "V"]);
      ("V",   ["SA"; "NSW"; "T"]);
      ("T",   ["V"]) ].

(** File 20's [dominio_inicial]: the comprehension builds a new list for
    every key. *)
Definition dominio_inicial : diccionario :=
  foldl (λ d var, asignar d var ["ROJO"; "VERDE"; "AZUL"])
        (Diccionario ∅ ∅) variables.

End Australia.

(** * Vocabulary of the statements *)

(** The neighbours of a region, [adyacentes.get(var, [])]. *)
Definition vecinos_de (adyacentes : gmap string (list string))
    (var : string) : list string :=
  default [] (adyacentes !! var).

(** The constraint graph is undirected and has no loops. *)
Definition simetrica (adyacentes : gmap string (list string)) : Prop :=
  ∀ a b, b ∈ vecinos_de adyacentes a → a ∈ vecinos_de adyacentes b.

Definition sin_lazos (adyacentes : gmap string (list string)) : Prop :=
  ∀ a, a ∉ vecinos_de adyacentes a.

(** The keys of the partial assignment are the first [size asig] variables
    of the order: the shape every dictionary has during a run of
    [backtracking] started on the empty dictionary. *)
Definition prefijo (variables_orden : list string)
    (asig : gmap string string) : Prop :=
  size asig ≤ length variables_orden ∧
  ∀ v, is_Some (asig !! v)
       ↔ ∃ i, i < size asig ∧ variables_orden !! i = Some v.

(** What [backtracking] promises about a dictionary [sol] it returns as a
    solution when called on [asig]: it extends [asig], has one key per
    variable of the order, and every variable assigned by the call got a
    value of its domain that does not conflict with any variable earlier in
    the order. *)
Definition solucion_desde (adyacentes : gmap string (list string))
    (variables_orden : list string) (dominios : gmap string (list string))
    (asig sol : gmap string string) : Prop :=
  asig ⊆ sol ∧
  prefijo variables_orden sol ∧
  size sol = length variables_orden ∧
  ∀ i u x, size asig ≤ i → variables_orden !! i = Some u →
           sol !! u = Some x →
    (∃ dv, dominios !! u = Some dv ∧ x ∈ dv) ∧
    (∀ j v y, j < i → variables_orden !! j = Some v → sol !! v = Some y →
              no_conflicto_binario adyacentes u x v y = true).

(** The outcome of a call of [backtracking] on a dictionary in prefix
    shape, whatever the fuel: no exception, fuel runs out only when it is
    at most the number of variables left, a failure hands the dictionary
    back as it was, and a success is a solution. *)
Definition resultado_correcto (adyacentes : gmap string (list string))
    (variables_orden : list string) (dominios : gmap string (list string))
    (fuel : nat) (asig : gmap string string) (r : salida resultado) : Prop :=
  match r with
  | SinCombustible => fuel + size asig ≤ length variables_orden
  | Excepcion => False
  | Retorna (Fallo asig') => asig' = asig
  | Retorna (Exito sol) =>
      solucion_desde adyacentes variables_orden dominios asig sol
  end.

(** [v] has a support in the domain of [xj]: the test of the inner loop of
    [revisar_arco]. *)
Definition soportado (adyacentes : gmap string (list string))
    (xi xj : string) (dominio_xj : list string) (v : string) : bool :=
  existsb (λ w, no_conflicto_binario adyacentes xi v xj w) dominio_xj.

(** The arc [(xi, xj)] is locally consistent: [xi] has a domain and every
    value left in it has a compatible value in the domain of [xj]. *)
Definition arco_consistente (adyacentes : gmap string (list string))
    (dominios : gmap string (list string)) (xi xj : string) : Prop :=
  ∃ dominio_xi, dominios !! xi = Some dominio_xi ∧
    ∀ v, v ∈ dominio_xi →
      ∃ dominio_xj w, dominios !! xj = Some dominio_xj ∧ w ∈ dominio_xj ∧
                      no_conflicto_binario adyacentes xi v xj w = true.

(** The number of values in all the domains together: what [ac3] uses up. *)
Definition total_valores (dominios : gmap string (list string)) : nat :=
  map_fold (λ _ dominio n, length dominio + n) 0 dominios.

(** The values of a neighbour's domain that forward checking keeps. *)
Definition compatibles (adyacentes : gmap string (list string))
    (var_actual valor_actual vecino : string) (dominio : list string)
    : list string :=
  filter (λ val_vecino,
            no_conflicto_binario adyacentes var_actual valor_actual
                                 vecino val_vecino = true) dominio.

(** The domain of [x] after forward checking over the neighbours [vs]:
    filtered when [x] is one of them and is not assigned, untouched
    otherwise. *)
Definition podado (adyacentes : gmap string (list string))
    (asignacion : gmap string string) (var_actual valor_actual : string)
    (vs : list string) (d : gmap string (list string)) (x : string)
    : option (list string) :=
  if decide (x ∈ vs ∧ x ∉ dom asignacion)
  then compatibles adyacentes var_actual valor_actual x <$> d !! x
  else d !! x.

(** The state the loop is stuck in once a variable that has run out of
    values is the jump target of its own conflict set. *)
Definition atascado (i : nat) (var : string) (dominio_var : list string)
    (conflictos : gset string) (e : estado) : Prop :=
  idx_actual e = Z.of_nat i ∧
  conflict_set e !!! var = conflictos ∧
  length dominio_var ≤ intento_valor_idx e !!! var.

(** ** Problem instances on the map of Australia used below *)

Module Ejemplos.

(** Three mutually adjacent regions. *)
Definition triangulo : list string := ["WA"; "NT"; "SA"].

(** Two colours for each region of the triangle: no colouring exists. *)
Definition dos_colores : gmap string (list string) :=
  list_to_map [ ("WA", ["ROJO"; "VERDE"]);
                ("NT", ["ROJO"; "VERDE"]);
                ("SA", ["ROJO"; "VERDE"]) ].

(** The triangle with a colouring: WA = AZUL, NT = VERDE, SA = ROJO. *)
Definition dominios_triangulo : gmap string (list string) :=
  list_to_map [ ("WA", ["ROJO"; "AZUL"]);
                ("NT", ["VERDE"]);
                ("SA", ["VERDE"; "ROJO"]) ].

Definition coloreo_triangulo : gmap string string :=
  list_to_map [ ("WA", "AZUL"); ("NT", "VERDE"); ("SA", "ROJO") ].

(** Four regions, T adjacent to none of the other three. *)
Definition cuatro : list string := ["SA"; "T"; "WA"; "NT"].

Definition dominios_cuatro : gmap string (list string) :=
  list_to_map [ ("SA", ["ROJO"; "VERDE"]);
                ("T",  ["ROJO"]);
                ("WA", ["VERDE"; "AZUL"]);
                ("NT", ["ROJO"]) ].

Definition coloreo_cuatro : gmap string string :=
  list_to_map [ ("SA", "VERDE"); ("T", "ROJO");
                ("WA", "AZUL"); ("NT", "ROJO") ].

(** What [backjumping] returns on [cuatro]. *)
Definition coloreo_incompleto : gmap string string :=
  list_to_map [ ("WA", "AZUL"); ("NT", "ROJO") ].

(** An adjacency table that is not symmetric: B is a neighbour of A, A is
    not a neighbour of B. *)
Definition adyacentes_asimetrica : gmap string (list string) :=
  list_to_map [ ("A", ["B"]); ("B", []) ].

Definition un_color : gmap string (list string) :=
  list_to_map [ ("A", ["ROJO"]); ("B", ["ROJO"]) ].

Definition coloreo_un_color : gmap string string :=
  list_to_map [ ("A", "ROJO"); ("B", "ROJO") ].

(** A problem with an empty initial domain. *)
Definition dominio_vacio : gmap string (list string) :=
  list_to_map [ ("A", ["ROJO"; "VERDE"]); ("B", []) ].

(** Domains after assigning WA = ROJO and NT = VERDE, and what [ac3]
    makes of them. *)
Definition dominios_wa_nt : gmap string (list string) :=
  <["WA" := ["ROJO"]]> (<["NT" := ["VERDE"]]> Australia.dominio_base).

Definition dominios_wa_nt_ac3 : gmap string (list string) :=
  list_to_map [ ("WA", ["ROJO"]); ("NT", ["VERDE"]); ("SA", ["AZUL"]);
                ("Q", ["ROJO"]); ("NSW", ["VERDE"]); ("V", ["ROJO"]);
                ("T", ["VERDE"; "AZUL"]) ].

(** The colouring of the whole map that script 17 shows. *)
Definition coloreo_australia : gmap string string :=
  list_to_map [ ("WA", "ROJO"); ("NT", "VERDE"); ("SA", "AZUL");
                ("Q", "ROJO"); ("NSW", "VERDE"); ("V", "ROJO");
                ("T", "AZUL") ].

(** The colouring [backtracking] finds on the whole map. *)
Definition coloreo_backtracking : gmap string string :=
  list_to_map [ ("WA", "ROJO"); ("NT", "VERDE"); ("SA", "AZUL");
                ("Q", "ROJO"); ("NSW", "VERDE"); ("V", "ROJO");
                ("T", "VERDE") ].

(** A store that holds the base domains at address 0. *)
Definition almacen_base : almacen := {[0 := Australia.dominio_base]}.

(** The seven regions with two colours each: the triangle WA, NT, SA has
    no colouring. *)
Definition dos_colores_australia : gmap string (list string) :=
  list_to_map ((λ v, (v, ["ROJO"; "VERDE"])) <$> Australia.variables).

(** *** Dictionaries of list objects for file 20 *)

(** The same problems as dictionaries of list objects, every key with a
    list of its own. *)
Definition dicc_wa_nt : diccionario := de_valores dominios_wa_nt.

Definition dicc_wa_nt_ac3 : diccionario := de_valores dominios_wa_nt_ac3.

Definition dicc_dos_colores : diccionario := de_valores dos_colores_australia.

(** A store that holds [dominio_inicial] at address 0. *)
Definition almacen_inicial : almacen_dicc := {[0 := Australia.dominio_inicial]}.

(** WA and T hold one list object, as after [L = ['ROJO', 'VERDE']] and
    [dominios['WA'] = L; dominios['T'] = L]; V holds [['ROJO']] and the
    other regions the three colours, each in a list of its own. *)
Definition lista_compartida : diccionario :=
  Diccionario
    (list_to_map [ ("WA", 0); ("NT", 1); ("SA", 2); ("Q", 3); ("NSW", 4);
                   ("V", 5); ("T", 0) ])
    (list_to_map [ (0, ["ROJO"; "VERDE"]);
                   (1, ["ROJO"; "VERDE"; "AZUL"]);
                   (2, ["ROJO"; "VERDE"; "AZUL"]);
                   (3, ["ROJO"; "VERDE"; "AZUL"]);
                   (4, ["ROJO"; "VERDE"; "AZUL"]);
                   (5, ["ROJO"]) ]).

(** What a run of [ac3] makes of it: the arc (T, V) took ROJO from the
    list of T, which is the list of WA. *)
Definition lista_compartida_ac3 : diccionario :=
  Diccionario
    (claves lista_compartida)
    (list_to_map [ (0, ["VERDE"]);
                   (1, ["ROJO"; "VERDE"; "AZUL"]);
                   (2, ["VERDE"; "AZUL"]);
                   (3, ["ROJO"; "VERDE"; "AZUL"]);
                   (4, ["VERDE"; "AZUL"]);
                   (5, ["ROJO"]) ]).

(** What a second run makes of that. *)
Definition lista_compartida_ac3_ac3 : diccionario :=
  Diccionario
    (claves lista_compartida)
    (list_to_map [ (0, ["VERDE"]); (1, ["ROJO"]); (2, ["AZUL"]); (3, []);
                   (4, ["VERDE"]); (5, ["ROJO"]) ]).

(** One list under the seven keys, as
    [dict.fromkeys(variables, ['ROJO', 'VERDE', 'AZUL'])] builds. *)
Definition una_lista : diccionario :=
  Diccionario
    (list_to_map ((λ v, (v, 0)) <$> Australia.variables))
    {[0 := ["ROJO"; "VERDE"; "AZUL"]]}.

(** WA and NT on the one list [['ROJO']]. *)
Definition una_lista_wa_nt : diccionario :=
  Diccionario (list_to_map [ ("WA", 0); ("NT", 0) ]) {[0 := ["ROJO"]]}.

End Ejemplos.

(** A colouring of the variables of an order: every variable has a value
    of its domain, and neighbours in the order have different values. *)
Definition coloreo_valido (adyacentes : gmap string (list string))
    (variables_orden : list string) (dominios : gmap string (list string))
    (sol : gmap string string) : Prop :=
  (∀ v, v ∈ variables_orden →
        ∃ x dv, sol !! v = Some x ∧ dominios !! v = Some dv ∧ x ∈ dv) ∧
  (∀ u v x y, u ∈ variables_orden → v ∈ variables_orden →
              sol !! u = Some x → sol !! v = Some y →
              v ∈ vecinos_de adyacentes u → x ≠ y).

(** The same, as a test that can be evaluated. *)
Definition coloreo_valido_b (adyacentes : gmap string (list string))
    (variables_orden : list string) (dominios : gmap string (list string))
    (sol : gmap string string) : bool :=
  forallb (λ v, match sol !! v, dominios !! v with
                | Some x, Some dv => bool_decide (x ∈ dv)
                | _, _ => false
                end) variables_orden
  && forallb (λ u,
       forallb (λ v, match sol !! u, sol !! v with
                     | Some x, Some y =>
                         if decide (v ∈ vecinos_de adyacentes u)
                         then bool_decide (x ≠ y) else true
                     | _, _ => true
                     end) variables_orden) variables_orden.

(** What every dictionary [asignacion_parcial] of [backjumping] satisfies:
    its keys are variables of the order, each has a value of its domain,
    and no two keys that are neighbours have the same value. *)
Definition asignacion_coherente (adyacentes : gmap string (list string))
    (orden_vars : list string) (dominios : gmap string (list string))
    (asig : gmap string string) : Prop :=
  ∀ u x, asig !! u = Some x →
    u ∈ orden_vars ∧
    (∃ dv, dominios !! u = Some dv ∧ x ∈ dv) ∧
    (∀ v y, asig !! v = Some y → v ∈ vecinos_de adyacentes u → x ≠ y).

(** [d'] is [d] with values removed from some domains: the same keys,
    and under each key a sublist of what was there. *)
Definition reducido (d d' : gmap string (list string)) : Prop :=
  ∀ x, match d !! x, d' !! x with
       | Some dx, Some dx' => dx' `sublist_of` dx
       | None, None => True
       | _, _ => False
       end.

(** The variables include all their neighbours. *)
Definition cerrado (adyacentes : gmap string (list string))
    (variables : list string) : Prop :=
  ∀ v x, v ∈ variables → x ∈ vecinos_de adyacentes v → x ∈ variables.

(** The store [h'] has every object of [h], unchanged. *)
Definition marco (h h' : almacen) : Prop :=
  ∀ l, l ∈ dom h → h' !! l = h !! l.

(** The outcome of a call of [forward_checking] on a dictionary in prefix
    shape and the domains [d]: no exception, fuel runs out only when it is
    at most the number of variables left, a returned dictionary is a
    solution, and [None] means that no colouring with values in [d]
    extends the dictionary. *)
Definition resultado_fc (adyacentes : gmap string (list string))
    (orden_vars : list string) (fuel : nat)
    (d : gmap string (list string)) (asig : gmap string string)
    (r : salida (option (gmap string string))) : Prop :=
  match r with
  | SinCombustible => fuel + size asig ≤ length orden_vars
  | Excepcion => False
  | Retorna (Some sol) => solucion_desde adyacentes orden_vars d asig sol
  | Retorna None =>
      ∀ sol, coloreo_valido adyacentes orden_vars d sol → asig ⊆ sol → False
  end.

(** The longest adjacency list. *)
Definition grado_max (adyacentes : gmap string (list string)) : nat :=
  map_fold (λ _ vecinos n, length vecinos `max` n) 0 adyacentes.

(** A bound on the turns of the [while] loop of [ac3] on the domains [d]:
    the arcs of the initial queue, and the arcs that the removal of a value
    can add. *)
Definition cota_ac3 (adyacentes : gmap string (list string))
    (variables : list string) (d : gmap string (list string)) : nat :=
  length variables * grado_max adyacentes
  + grado_max adyacentes * total_valores d.

(** The outcome of a call of [backtracking_con_propagacion] on a dictionary
    in prefix shape and the domains [d]: as for [forward_checking], and
    fuel can also run out in [ac3], when [pasos_ac3] is within the bound. *)
Definition resultado_prop (adyacentes : gmap string (list string))
    (variables orden_vars : list string) (pasos_ac3 fuel : nat)
    (d : gmap string (list string)) (asig : gmap string string)
    (r : salida (option (gmap string string))) : Prop :=
  match r with
  | SinCombustible =>
      fuel + size asig ≤ length orden_vars ∨
      pasos_ac3 ≤ cota_ac3 adyacentes variables d
  | Excepcion => False
  | Retorna (Some sol) => solucion_desde adyacentes orden_vars d asig sol
  | Retorna None =>
      ∀ sol, coloreo_valido adyacentes orden_vars d sol → asig ⊆ sol → False
  end.

(** The list [l'] is [l] without every occurrence of some values. *)
Definition filtrada (l l' : list string) : Prop :=
  ∃ f : string → bool, l' = filter (λ x, f x = true) l.

(** The dictionary [asig] gives each of its variables a value of its
    domain that does not conflict with any variable earlier in the
    order. *)
Definition solucion_parcial (adyacentes : gmap string (list string))
    (variables_orden : list string) (dominios : gmap string (list string))
    (asig : gmap string string) : Prop :=
  ∀ i u x, variables_orden !! i = Some u → asig !! u = Some x →
    (∃ dv, dominios !! u = Some dv ∧ x ∈ dv) ∧
    (∀ j v y, j < i → variables_orden !! j = Some v → asig !! v = Some y →
              no_conflicto_binario adyacentes u x v y = true).

(** The domains [d'] that the searches with pruning hold when the
    assignment is [asig], against the domains [d] the search began with:
    lists have lost values only, the list of an unassigned variable has
    lost all occurrences of the values it lost, and no colouring that
    extends [asig] has been lost. *)
Definition recortado (adyacentes : gmap string (list string))
    (orden_vars : list string) (d : gmap string (list string))
    (asig : gmap string string) (d' : gmap string (list string)) : Prop :=
  reducido d d' ∧
  (∀ u dv dv', u ∉ dom asig → d !! u = Some dv → d' !! u = Some dv' →
               filtrada dv dv') ∧
  (∀ sol, coloreo_valido adyacentes orden_vars d sol → asig ⊆ sol →
          coloreo_valido adyacentes orden_vars d' sol).

(** What the script's [backtracking] returns: the dictionary, or [None]. *)
Definition valor_devuelto (r : salida resultado)
    : salida (option (gmap string string)) :=
  match r with
  | SinCombustible => SinCombustible
  | Excepcion => Excepcion
  | Retorna (Exito solucion) => Retorna (Some solucion)
  | Retorna (Fallo _) => Retorna None
  end.

(** No two keys of the dictionary hold the same list object. *)
Definition sin_compartir (d : diccionario) : Prop :=
  ∀ k1 k2 a, claves d !! k1 = Some a → claves d !! k2 = Some a → k1 = k2.

(** The store [h'] has every dictionary object of [h], unchanged. *)
Definition marco_dicc (h h' : almacen_dicc) : Prop :=
  ∀ l, l ∈ dom h → h' !! l = h !! l.

(** What a result of [revisar_arco] or [ac3] shows through [vista]. *)
Definition a_valores (r : salida (bool * diccionario))
    : salida (bool * gmap string (list string)) :=
  match r with
  | SinCombustible => SinCombustible
  | Excepcion => Excepcion
  | Retorna (b, d) => Retorna (b, vista d)
  end.

(** The outcome of a call of [backtracking_con_propagacion] on a dictionary
    in prefix shape, where the keys read the domains [d], whatever the
    lists the keys hold: no exception, fuel runs out only in the recursion
    or in [ac3] within the bounds, and a returned dictionary is a
    solution. *)
Definition resultado_seguro (adyacentes : gmap string (list string))
    (variables orden_vars : list string) (pasos_ac3 fuel : nat)
    (d : gmap string (list string)) (asig : gmap string string)
    (r : salida (option (gmap string string))) : Prop :=
  match r with
  | SinCombustible =>
      fuel + size asig ≤ length orden_vars ∨
      pasos_ac3 ≤ cota_ac3 adyacentes variables d
  | Excepcion => False
  | Retorna (Some sol) => solucion_desde adyacentes orden_vars d asig sol
  | Retorna None => True
  end.

(** * Properties *)

(** Closed decidable goals are settled by evaluation. *)
Ltac decidir := apply (bool_decide_unpack _); vm_compute; exact I.

(** ** The constraint and the consistency check *)

Section Restriccion.

Variable adyacentes : gmap string (list string).

Local Abbreviation vecinos_de := (vecinos_de adyacentes).

Lemma no_conflicto_binario_true var_a val_a var_b val_b :
  no_conflicto_binario adyacentes var_a val_a var_b val_b = true
  ↔ (var_b ∈ vecinos_de var_a → val_a ≠ val_b).
Proof.
  unfold no_conflicto_binario, vecinos_de.
  destruct (decide (var_b ∈ default [] (adyacentes !! var_a))) as [Hin|Hin].
  - rewrite bool_decide_eq_true. tauto.
  - split; [intros _ ?; contradiction | done].
Qed.

Lemma no_conflicto_binario_false var_a val_a var_b val_b :
  no_conflicto_binario adyacentes var_a val_a var_b val_b = false
  ↔ var_b ∈ vecinos_de var_a ∧ val_a = val_b.
Proof.
  unfold no_conflicto_binario, vecinos_de.
  destruct (decide (var_b ∈ default [] (adyacentes !! var_a))) as [Hin|Hin].
  - rewrite bool_decide_eq_false. split.
    + intros Hnn. split; [done|]. by destruct (decide (val_a = val_b)).
    + intros [_ ->] Hne. by apply Hne.
  - split; [done | intros [? _]; contradiction].
Qed.

Lemma no_conflicto_no_vecino var_a val_a var_b val_b :
  var_b ∉ vecinos_de var_a →
  no_conflicto_binario adyacentes var_a val_a var_b val_b = true.
Proof. intros Hn. apply no_conflicto_binario_true. done. Qed.

Lemma es_consistente_con_asignacion_true asig var valor :
  es_consistente_con_asignacion adyacentes asig var valor = true
  ↔ ∀ otra_var otro_valor,
      asig !! otra_var = Some otro_valor →
      no_conflicto_binario adyacentes var valor otra_var otro_valor = true.
Proof.
  unfold es_consistente_con_asignacion.
  rewrite forallb_forall. split.
  - intros H o ov Ho.
    apply (H (o, ov)), list_elem_of_In, elem_of_map_to_list. done.
  - intros H [o ov] Hin.
    apply list_elem_of_In, elem_of_map_to_list in Hin. by apply H.
Qed.

End Restriccion.

(** ** File 18: backtracking *)

Section Backtracking.

Variable adyacentes : gmap string (list string).
Variable variables_orden : list string.
Variable dominios : gmap string (list string).

Hypothesis orden_sin_repetidos : NoDup variables_orden.
Hypothesis dominios_completos :
  ∀ v, v ∈ variables_orden → is_Some (dominios !! v).

Lemma prefijo_vacio : prefijo variables_orden ∅.
Proof.
  split; [rewrite map_size_empty; lia|].
  intros v. rewrite lookup_empty, map_size_empty. split.
  - intros [? ?]; done.
  - intros (i & ? & _); lia.
Qed.

Lemma prefijo_siguiente_libre asig var :
  prefijo variables_orden asig →
  variables_orden !! size asig = Some var →
  asig !! var = None.
Proof.
  intros [_ Hp] Hvar.
  destruct (asig !! var) as [x|] eqn:E; [|done].
  destruct (proj1 (Hp var)) as (i & Hi & Hiv); [by eexists|].
  pose proof (NoDup_lookup _ _ _ _ orden_sin_repetidos Hiv Hvar). lia.
Qed.

Lemma prefijo_insert asig var valor :
  prefijo variables_orden asig →
  variables_orden !! size asig = Some var →
  prefijo variables_orden (<[var := valor]> asig)
  ∧ size (<[var := valor]> asig) = S (size asig).
Proof.
  intros Hp Hvar.
  pose proof (prefijo_siguiente_libre _ _ Hp Hvar) as Hlibre.
  assert (Hsz : size (<[var := valor]> asig) = S (size asig))
    by by apply map_size_insert_None.
  split; [|done]. destruct Hp as [Hle Hp]. split.
  - rewrite Hsz. apply lookup_lt_Some in Hvar. lia.
  - intros v. rewrite Hsz. destruct (decide (var = v)) as [<-|Hne].
    + rewrite lookup_insert_eq. split; [|by eauto].
      intros _. exists (size asig). split; [lia|done].
    + rewrite lookup_insert_ne by done. rewrite Hp. split.
      * intros (i & Hi & Hiv). exists i. split; [lia|done].
      * intros (i & Hi & Hiv). exists i. split; [|done].
        destruct (decide (i = size asig)) as [->|]; [congruence|lia].
Qed.

Lemma solucion_desde_completa asig :
  prefijo variables_orden asig →
  size asig = length variables_orden →
  solucion_desde adyacentes variables_orden dominios asig asig.
Proof.
  intros Hp Hsz. repeat split; try done; try apply Hp.
  all: apply lookup_lt_Some in H0; lia.
Qed.

Lemma solucion_desde_insert asig var valor dom sol :
  prefijo variables_orden asig →
  variables_orden !! size asig = Some var →
  dominios !! var = Some dom → valor ∈ dom →
  es_consistente_con_asignacion adyacentes asig var valor = true →
  solucion_desde adyacentes variables_orden dominios
                 (<[var := valor]> asig) sol →
  solucion_desde adyacentes variables_orden dominios asig sol.
Proof.
  intros Hp Hvar Hdom Hval Hcons (Hsub & Hps & Hsz & Hsol).
  pose proof (prefijo_siguiente_libre _ _ Hp Hvar) as Hlibre.
  destruct (prefijo_insert _ _ valor Hp Hvar) as [_ Hsz1].
  assert (Hsub0 : asig ⊆ sol).
  { etrans; [|exact Hsub]. by apply insert_subseteq. }
  split; [done|]. split; [done|]. split; [done|].
  intros i u x Hi Hu Hx.
  destruct (decide (i = size asig)) as [->|Hne].
  - assert (u = var) as -> by congruence.
    assert (x = valor) as ->.
    { eapply (lookup_weaken _ _ var valor) in Hsub;
        [congruence | apply lookup_insert_eq]. }
    split; [by eauto|].
    intros j v y Hj Hv Hy.
    destruct Hp as [_ Hp]. destruct (proj2 (Hp v)) as [y' Hy']; [by eauto|].
    assert (y = y') as -> by (eapply lookup_weaken in Hy'; [|done]; congruence).
    by eapply es_consistente_con_asignacion_true.
  - apply (Hsol i u x); [lia|done|done].
Qed.

Lemma probar_valores_correcto fuel rec var asig dom valores :
  (∀ a, prefijo variables_orden a → size a = S (size asig) →
        resultado_correcto adyacentes variables_orden dominios fuel a (rec a)) →
  prefijo variables_orden asig →
  variables_orden !! size asig = Some var →
  dominios !! var = Some dom →
  valores ⊆ dom →
  resultado_correcto adyacentes variables_orden dominios (S fuel) asig
    (probar_valores adyacentes rec var asig valores).
Proof.
  intros Hrec Hp Hvar Hdom.
  pose proof (prefijo_siguiente_libre _ _ Hp Hvar) as Hlibre.
  destruct (prefijo_insert _ _ "" Hp Hvar) as [_ Hsz0].
  induction valores as [|valor resto IH]; intros Hsub; simpl; [done|].
  assert (Hresto : resto ⊆ dom) by set_solver.
  destruct (es_consistente_con_asignacion adyacentes asig var valor) eqn:Hc;
    [|by apply IH].
  destruct (prefijo_insert _ _ valor Hp Hvar) as [Hp1 Hsz1].
  specialize (Hrec _ Hp1 Hsz1).
  destruct (rec (<[var:=valor]> asig)) as [| |[sol|asig']]; simpl in *.
  - lia.
  - done.
  - eapply solucion_desde_insert; eauto. set_solver.
  - subst asig'. rewrite lookup_insert_eq.
    rewrite delete_insert_id by done. by apply IH.
Qed.

Lemma backtracking_correcto fuel asig :
  prefijo variables_orden asig →
  resultado_correcto adyacentes variables_orden dominios fuel asig
    (backtracking adyacentes fuel asig variables_orden dominios).
Proof.
  revert asig. induction fuel as [|fuel IH]; intros asig Hp; simpl.
  - destruct Hp as [Hle _]. lia.
  - destruct (decide (size asig = length variables_orden)) as [Heq|Hne].
    + by apply solucion_desde_completa.
    + destruct Hp as [Hle Hp'].
      destruct (lookup_lt_is_Some_2 variables_orden (size asig)) as [var Hvar];
        [lia|].
      rewrite Hvar.
      destruct (dominios_completos var) as [dom Hdom];
        [by eapply list_elem_of_lookup_2|].
      rewrite Hdom.
      apply (probar_valores_correcto fuel _ var asig dom dom);
        [intros a Ha _; by apply IH | by split | done | done | done].
Qed.

(** A dictionary returned as a solution by a call on the empty dictionary:
    one key per variable of the order, values taken from the domains, and
    different values on neighbours. *)
Lemma backtracking_solucion_valida fuel sol :
  simetrica adyacentes → sin_lazos adyacentes →
  backtracking adyacentes fuel ∅ variables_orden dominios
  = Retorna (Exito sol) →
  (∀ v, is_Some (sol !! v) ↔ v ∈ variables_orden) ∧
  size sol = length variables_orden ∧
  (∀ v x, sol !! v = Some x → ∃ dv, dominios !! v = Some dv ∧ x ∈ dv) ∧
  (∀ u v x y, sol !! u = Some x → sol !! v = Some y →
              v ∈ vecinos_de adyacentes u → x ≠ y).
Proof.
  intros Hsim Hlazos Hr.
  pose proof (backtracking_correcto fuel ∅ prefijo_vacio) as Hok.
  rewrite Hr in Hok. simpl in Hok.
  destruct Hok as (_ & [_ Hpre] & Hsz & Hsol).
  assert (Hkeys : ∀ v, is_Some (sol !! v) ↔ v ∈ variables_orden).
  { intros v. rewrite Hpre, list_elem_of_lookup, Hsz. split.
    - intros (i & _ & Hi). by exists i.
    - intros (i & Hi). exists i. split; [by eapply lookup_lt_Some|done]. }
  split; [done|]. split; [done|]. split.
  - intros v x Hx.
    destruct (list_elem_of_lookup_1 _ _ (proj1 (Hkeys v) (mk_is_Some _ _ Hx)))
      as [i Hi].
    destruct (Hsol i v x) as [? _]; [rewrite map_size_empty; lia|done..|done].
  - intros u v x y Hx Hy Hvec.
    destruct (list_elem_of_lookup_1 _ _ (proj1 (Hkeys u) (mk_is_Some _ _ Hx)))
      as [i Hi].
    destruct (list_elem_of_lookup_1 _ _ (proj1 (Hkeys v) (mk_is_Some _ _ Hy)))
      as [j Hj].
    destruct (Hsol i u x) as [_ Hu]; [rewrite map_size_empty; lia|done..|].
    destruct (Hsol j v y) as [_ Hv]; [rewrite map_size_empty; lia|done..|].
    destruct (lt_eq_lt_dec i j) as [[Hlt|Heq]|Hgt].
    + specialize (Hv i u x Hlt Hi Hx).
      apply no_conflicto_binario_true in Hv; [congruence|by apply Hsim].
    + subst j. assert (u = v) as -> by congruence.
      by apply Hlazos in Hvec.
    + specialize (Hu j v y Hgt Hj Hy).
      by apply no_conflicto_binario_true in Hu.
Qed.

End Backtracking.

(** *** A failed call hands the dictionary back unchanged

    This holds for every dictionary the caller may pass, in prefix shape or
    not.  The one delicate case is a call whose next variable is already a
    key: [del] would then drop a key of the caller.  Without loops in the
    graph that call never returns, because the value it has just written
    stays consistent and the dictionary does not grow. *)

Section Restaurar.

Variable adyacentes : gmap string (list string).
Variable variables_orden : list string.
Variable dominios : gmap string (list string).

Hypothesis grafo_sin_lazos : sin_lazos adyacentes.

Lemma consistente_tras_reescribir asig var valor :
  es_consistente_con_asignacion adyacentes asig var valor = true →
  es_consistente_con_asignacion adyacentes (<[var := valor]> asig)
                                var valor = true.
Proof.
  rewrite !es_consistente_con_asignacion_true. intros H o ov.
  destruct (decide (var = o)) as [<-|Hne].
  - intros _. apply no_conflicto_no_vecino, grafo_sin_lazos.
  - rewrite lookup_insert_ne by done. apply H.
Qed.

Lemma probar_valores_sin_combustible rec var asig valores :
  (∀ valor, valor ∈ valores →
     es_consistente_con_asignacion adyacentes asig var valor = true →
     rec (<[var := valor]> asig) = SinCombustible) →
  (∃ valor, valor ∈ valores ∧
     es_consistente_con_asignacion adyacentes asig var valor = true) →
  probar_valores adyacentes rec var asig valores = SinCombustible.
Proof.
  induction valores as [|valor resto IH]; intros Hrec (w & Hw & Hcw).
  - by apply elem_of_nil in Hw.
  - simpl.
    destruct (es_consistente_con_asignacion adyacentes asig var valor) eqn:Hc.
    + rewrite Hrec; [done | by left | done].
    + apply IH.
      * intros v Hv. apply Hrec. by right.
      * exists w. split; [|done].
        apply elem_of_cons in Hw as [->|Hw]; [congruence|done].
Qed.

Lemma backtracking_reasignar_no_retorna fuel asig var dom :
  variables_orden !! size asig = Some var →
  is_Some (asig !! var) →
  dominios !! var = Some dom →
  (∃ valor, valor ∈ dom ∧
     es_consistente_con_asignacion adyacentes asig var valor = true) →
  backtracking adyacentes fuel asig variables_orden dominios
  = SinCombustible.
Proof.
  revert asig. induction fuel as [|fuel IH]; intros asig Hvar Hin Hdom Hex;
    simpl; [done|].
  destruct (decide (size asig = length variables_orden)) as [Heq|_].
  { apply lookup_lt_Some in Hvar. lia. }
  rewrite Hvar, Hdom.
  apply probar_valores_sin_combustible; [|done].
  intros valor Hvalor Hc. apply IH.
  - by rewrite map_size_insert_Some.
  - rewrite lookup_insert_eq. by eauto.
  - done.
  - exists valor. split; [done|]. by apply consistente_tras_reescribir.
Qed.

Lemma probar_valores_restaura fuel var asig dom valores asig' :
  (∀ a a', backtracking adyacentes fuel a variables_orden dominios
           = Retorna (Fallo a') → a' = a) →
  variables_orden !! size asig = Some var →
  dominios !! var = Some dom →
  valores ⊆ dom →
  probar_valores adyacentes
    (λ a, backtracking adyacentes fuel a variables_orden dominios)
    var asig valores = Retorna (Fallo asig') →
  asig' = asig.
Proof.
  intros Hrec Hvar Hdom.
  induction valores as [|valor resto IH]; intros Hsub; simpl.
  - by intros [= ->].
  - assert (Hresto : resto ⊆ dom) by set_solver.
    destruct (es_consistente_con_asignacion adyacentes asig var valor) eqn:Hc;
      [|by apply IH].
    destruct (backtracking adyacentes fuel (<[var:=valor]> asig)
                           variables_orden dominios)
      as [| |[sol|a1]] eqn:Hr; try done.
    pose proof (Hrec _ _ Hr) as ->. rewrite lookup_insert_eq.
    destruct (asig !! var) as [x|] eqn:Hx.
    + exfalso.
      rewrite (backtracking_reasignar_no_retorna fuel _ var dom) in Hr;
        [done | | | done | ].
      * by rewrite map_size_insert_Some.
      * rewrite lookup_insert_eq. by eauto.
      * exists valor. split; [set_solver|].
        by apply consistente_tras_reescribir.
    + rewrite delete_insert_id by done. by apply IH.
Qed.

Lemma backtracking_restaura fuel asig asig' :
  backtracking adyacentes fuel asig variables_orden dominios
  = Retorna (Fallo asig') →
  asig' = asig.
Proof.
  revert asig asig'. induction fuel as [|fuel IH]; intros asig asig';
    simpl; [done|].
  destruct (decide (size asig = length variables_orden)); [done|].
  destruct (variables_orden !! size asig) as [var|] eqn:Hvar; [|done].
  destruct (dominios !! var) as [dom|] eqn:Hdom; [|done].
  by apply (probar_valores_restaura fuel var asig dom dom).
Qed.

End Restaurar.

(** ** File 20 on values: AC-3 *)

Section Revisar.

Variable adyacentes : gmap string (list string).

Lemma quitar_app hechos v resto :
  v ∉ hechos → quitar v (hechos ++ v :: resto) = Some (hechos ++ resto).
Proof.
  induction hechos as [|x hechos IH]; intros Hn; simpl.
  - by rewrite decide_True.
  - rewrite decide_False by set_solver. rewrite IH by set_solver. done.
Qed.

Lemma soportado_true xi xj dxj v :
  soportado adyacentes xi xj dxj v = true
  ↔ ∃ w, w ∈ dxj ∧ no_conflicto_binario adyacentes xi v xj w = true.
Proof.
  unfold soportado. rewrite existsb_exists.
  split; intros (w & Hw & Hc); exists w; split; try done;
    by apply list_elem_of_In.
Qed.

(** [revisar_valores_val] keeps exactly the values that have a support. *)
Lemma revisar_valores_val_filtra xi xj dxj pendientes :
  xi ≠ xj →
  ∀ hechos cambiado d,
    d !! xj = Some dxj →
    d !! xi = Some (hechos ++ pendientes) →
    (∀ v, v ∈ hechos → soportado adyacentes xi xj dxj v = true) →
    revisar_valores_val adyacentes xi xj pendientes cambiado d
    = Retorna
        (cambiado || negb (forallb (soportado adyacentes xi xj dxj) pendientes),
         <[xi := hechos ++
                 filter (λ v, soportado adyacentes xi xj dxj v = true)
                        pendientes]> d).
Proof.
  intros Hne. induction pendientes as [|v resto IH];
    intros hechos cambiado d Hxj Hxi Hhechos; simpl.
  - rewrite orb_false_r, insert_id; [done|]. by rewrite app_nil_r in *.
  - rewrite Hxj. fold (soportado adyacentes xi xj dxj v).
    destruct (soportado adyacentes xi xj dxj v) eqn:Hs.
    + rewrite filter_cons_True by done. simpl.
      rewrite (IH (hechos ++ [v]) cambiado d); try done.
      * by rewrite <- app_assoc.
      * by rewrite <- app_assoc.
      * intros u [Hu| ->%list_elem_of_singleton]%elem_of_app; auto.
    + rewrite filter_cons_False by (by rewrite Hs).
      rewrite Hxi, quitar_app.
      2:{ intros Hin. apply Hhechos in Hin. congruence. }
      rewrite (IH hechos true (<[xi := hechos ++ resto]> d)); try done.
      * simpl. by rewrite orb_true_r, insert_insert_eq.
      * by rewrite lookup_insert_ne.
      * by rewrite lookup_insert_eq.
Qed.


Lemma filter_no_todos (P : string → bool) l :
  forallb P l = false → length (filter (λ v, P v = true) l) < length l.
Proof.
  induction l as [|x l IH]; simpl; [done|].
  destruct (P x) eqn:Hx; simpl.
  - intros Hl. rewrite filter_cons_True by done. simpl.
    specialize (IH Hl). lia.
  - intros _. rewrite filter_cons_False by (by rewrite Hx).
    pose proof (length_filter (λ v, P v = true) l). lia.
Qed.

(** What a call of [revisar_arco_val] that returns has done. *)
Lemma revisar_arco_val_retorna xi xj d c d' :
  xi ≠ xj →
  revisar_arco_val adyacentes xi xj d = Retorna (c, d') →
  ∃ dxi, d !! xi = Some dxi ∧
    ((dxi = [] ∧ c = false ∧ d' = d) ∨
     ∃ dxj, d !! xj = Some dxj ∧
       c = negb (forallb (soportado adyacentes xi xj dxj) dxi) ∧
       d' = <[xi := filter (λ v, soportado adyacentes xi xj dxj v = true)
                           dxi]> d).
Proof.
  intros Hne. unfold revisar_arco_val.
  destruct (d !! xi) as [dxi|] eqn:Hxi; [|done].
  intros Hr. exists dxi. split; [done|].
  destruct dxi as [|v dxi].
  - left. simpl in Hr. by inversion Hr.
  - right. destruct (d !! xj) as [dxj|] eqn:Hxj.
    + exists dxj. split; [done|].
      rewrite (revisar_valores_val_filtra xi xj dxj (v :: dxi) Hne [] false d)
        in Hr; [|done|done|set_solver].
      by inversion Hr.
    + simpl in Hr. by rewrite Hxj in Hr.
Qed.

(** *** Termination of AC-3

    A call of [revisar_arco_val] that reports a change has removed a value, and
    a round of the loop adds at most as many arcs as [xi] has neighbours:
    with [g] a bound on the number of neighbours, the length of the queue
    plus [g] times the number of values left decreases in every round. *)

Lemma total_valores_insert d xi dxi l :
  d !! xi = Some dxi →
  total_valores (<[xi := l]> d) + length dxi = total_valores d + length l.
Proof.
  intros Hxi. unfold total_valores.
  rewrite <- (insert_delete_id d xi dxi) at 2 by done.
  rewrite <- (insert_delete_eq d xi l).
  rewrite !map_fold_insert_L; try (by apply lookup_delete_eq); try lia.
  all: intros; lia.
Qed.

Lemma quitar_length v l l' : quitar v l = Some l' → length l = S (length l').
Proof.
  revert l'. induction l as [|x l IH]; intros l'; simpl; [done|].
  destruct (decide (x = v)); [by intros [= ->]|].
  destruct (quitar v l) as [l0|]; [|done].
  intros [= <-]. simpl. by rewrite (IH l0).
Qed.

Lemma revisar_valores_val_total xi xj pendientes c d c' d1 :
  revisar_valores_val adyacentes xi xj pendientes c d = Retorna (c', d1) →
  total_valores d1 ≤ total_valores d ∧
  (c = false → c' = true → total_valores d1 < total_valores d).
Proof.
  revert c d. induction pendientes as [|v resto IH]; intros c d; simpl.
  - intros [= <- <-]. split; [lia|congruence].
  - destruct (d !! xj) as [dxj|]; [|done].
    destruct (existsb _ dxj); [by apply IH|].
    destruct (d !! xi) as [dxi|] eqn:Hxi; [|done].
    destruct (quitar v dxi) as [dxi'|] eqn:Hq; [|done].
    intros Hr. apply IH in Hr as [Hle _].
    pose proof (total_valores_insert d xi dxi dxi' Hxi).
    apply quitar_length in Hq. lia.
Qed.

Lemma revisar_valores_val_retorna_o_lanza xi xj pendientes c d :
  revisar_valores_val adyacentes xi xj pendientes c d ≠ SinCombustible.
Proof.
  revert c d. induction pendientes as [|v resto IH]; intros c d; simpl;
    [done|].
  destruct (d !! xj) as [dxj|]; [|done].
  destruct (existsb _ dxj); [by apply IH|].
  destruct (d !! xi) as [dxi|]; [|done].
  destruct (quitar v dxi); [by apply IH|done].
Qed.

Lemma ac3_bucle_val_termina g fuel cola d :
  (∀ xi vs, adyacentes !! xi = Some vs → length vs ≤ g) →
  length cola + g * total_valores d < fuel →
  ac3_bucle_val adyacentes fuel cola d ≠ SinCombustible.
Proof.
  intros Hg. revert cola d. induction fuel as [|fuel IH]; intros cola d Hf;
    [lia|]. simpl.
  destruct cola as [|[xi xj] resto]; [done|]. simpl in Hf.
  destruct (d !! xi) as [antes|] eqn:Hantes; [|done].
  destruct (revisar_arco_val adyacentes xi xj d) as [| |[[] d1]] eqn:Hrev.
  - unfold revisar_arco_val in Hrev. rewrite Hantes in Hrev.
    by apply revisar_valores_val_retorna_o_lanza in Hrev.
  - done.
  - unfold revisar_arco_val in Hrev. rewrite Hantes in Hrev.
    apply revisar_valores_val_total in Hrev as [_ Hlt].
    specialize (Hlt eq_refl eq_refl).
    destruct (d1 !! xi) as [despues|]; [|done].
    destruct (decide (length despues = 0)); [done|].
    destruct (adyacentes !! xi) as [vs|] eqn:Hvs; [|done].
    apply IH. rewrite length_app, length_fmap.
    pose proof (length_filter (λ xk, xk ≠ xj) vs).
    pose proof (Hg xi vs Hvs). nia.
  - unfold revisar_arco_val in Hrev. rewrite Hantes in Hrev.
    apply revisar_valores_val_total in Hrev as [Hle _].
    apply IH. nia.
Qed.

(** The initial queue holds the arcs of the graph. *)
Lemma arcos_iniciales_elem vars cola a b :
  arcos_iniciales adyacentes vars = Some cola →
  (a, b) ∈ cola ↔ a ∈ vars ∧ b ∈ vecinos_de adyacentes a.
Proof.
  revert cola. induction vars as [|x vars IH]; intros cola; simpl.
  - intros Hs. injection Hs as <-.
    split; [intros H%elem_of_nil | intros [H%elem_of_nil _]]; done.
  - destruct (adyacentes !! x) as [vs|] eqn:Hx; [|done].
    destruct (arcos_iniciales adyacentes vars) as [cola0|]; [|done].
    intros [= <-]. rewrite elem_of_app, list_elem_of_fmap, (IH cola0) by done.
    rewrite elem_of_cons. unfold vecinos_de. split.
    + intros [(xj & [= -> ->] & Hxj)|[? ?]]; [|by auto].
      rewrite Hx. by auto.
    + intros [[->|Ha] Hb]; [|by auto].
      left. exists b. rewrite Hx in Hb. by auto.
Qed.

End Revisar.

Section AC3.

Variable adyacentes : gmap string (list string).
Variable variables : list string.

Hypothesis grafo_simetrico : simetrica adyacentes.
Hypothesis grafo_sin_lazos : sin_lazos adyacentes.

Local Abbreviation vecinos := (vecinos_de adyacentes).
Local Abbreviation consistente := (arco_consistente adyacentes).






End AC3.

(** ** File 19: forward checking *)

Section Podar.

Variable adyacentes : gmap string (list string).
Variable asignacion : gmap string string.
Variables var_actual valor_actual : string.

Local Abbreviation filtra := (compatibles adyacentes var_actual valor_actual).
Local Abbreviation poda := (podado adyacentes asignacion var_actual valor_actual).

Lemma compatibles_idem x l : filtra x (filtra x l) = filtra x l.
Proof.
  unfold compatibles. induction l as [|y l IH]; [done|].
  destruct (no_conflicto_binario adyacentes var_actual valor_actual x y) eqn:Hy.
  - rewrite !filter_cons_True by done. by rewrite IH.
  - rewrite (filter_cons_False _ y l) by (by rewrite Hy). done.
Qed.

Lemma compatibles_vecino x l :
  x ∈ vecinos_de adyacentes var_actual →
  filtra x l = filter (λ val, val ≠ valor_actual) l.
Proof.
  intros Hx. unfold compatibles. apply list_filter_iff. intros val.
  rewrite no_conflicto_binario_true. split; [|by auto].
  intros H Heq. by apply H.
Qed.

Lemma compatibles_subseteq x l : filtra x l ⊆ l.
Proof. intros v [_ ?]%list_elem_of_filter. done. Qed.

Lemma podar_vecinos_spec nuevos vs :
  ∀ h dn, h !! nuevos = Some dn →
    let '(h', r) := podar_vecinos adyacentes h nuevos asignacion
                                  var_actual valor_actual vs in
    (∀ l, l ≠ nuevos → h' !! l = h !! l) ∧
    match r with
    | Retorna true =>
        (∃ dn', h' !! nuevos = Some dn' ∧ ∀ x, dn' !! x = poda vs dn x) ∧
        (∀ x, x ∈ vs → x ∉ dom asignacion →
              ∃ dx, dn !! x = Some dx ∧ filtra x dx ≠ [])
    | Retorna false =>
        ∃ x dx, x ∈ vs ∧ (x ∉ dom asignacion) ∧
                dn !! x = Some dx ∧ filtra x dx = []
    | Excepcion => ∃ x, x ∈ vs ∧ (x ∉ dom asignacion) ∧ dn !! x = None
    | SinCombustible => False
    end.
Proof.
  induction vs as [|vecino resto IH]; intros h dn Hn; simpl.
  { split; [done|]. split; [|set_solver].
    exists dn. split; [done|]. intros x. unfold podado.
    rewrite decide_False; [done|]. by intros [H%elem_of_nil _]. }
  destruct (decide (vecino ∈ dom asignacion)) as [Hasig|Hlibre].
  { specialize (IH h dn Hn).
    destruct (podar_vecinos adyacentes h nuevos asignacion var_actual
                            valor_actual resto) as [h' r].
    destruct IH as [Hframe Hr]. split; [done|].
    destruct r as [| |[]].
    - done.
    - destruct Hr as (x & ? & ? & ?). exists x. set_solver.
    - destruct Hr as [(dn' & Hdn' & Hpod) Hne]. split.
      + exists dn'. split; [done|]. intros x. rewrite Hpod. unfold podado.
        destruct (decide (x = vecino)) as [->|Hx].
        * rewrite !decide_False; [done| |]; intros [_ ?]; done.
        * apply decide_ext. rewrite elem_of_cons. tauto.
      + intros x [->|Hx]%elem_of_cons Hxl; [done|]. by apply Hne.
    - destruct Hr as (x & dx & ? & ? & ? & ?). exists x, dx. set_solver. }
  rewrite Hn. destruct (dn !! vecino) as [dv|] eqn:Hdv.
  2:{ split; [done|]. exists vecino. set_solver. }
  fold (filtra vecino dv).
  destruct (decide (length (filtra vecino dv) = 0)) as [Hvacio|Hno_vacio].
  { split; [done|]. exists vecino, dv. split; [set_solver|].
    split; [done|]. split; [done|]. by apply nil_length_inv. }
  specialize (IH (<[nuevos := <[vecino := filtra vecino dv]> dn]> h)
                 (<[vecino := filtra vecino dv]> dn)
                 (lookup_insert_eq _ _ _)).
  destruct (podar_vecinos adyacentes _ nuevos asignacion var_actual
                          valor_actual resto) as [h' r].
  destruct IH as [Hframe Hr]. split.
  { intros l Hl. rewrite Hframe by done. by rewrite lookup_insert_ne. }
  assert (Hfv : filtra vecino dv ≠ []).
  { intros Heq. rewrite Heq in Hno_vacio. done. }
  destruct r as [| |[]].
  - done.
  - destruct Hr as (x & Hx & Hxl & Hnone). exists x.
    split; [set_solver|]. split; [done|].
    destruct (decide (x = vecino)) as [->|Hne].
    + by rewrite lookup_insert_eq in Hnone.
    + by rewrite lookup_insert_ne in Hnone.
  - destruct Hr as [(dn' & Hdn' & Hpod) Hne]. split.
    + exists dn'. split; [done|]. intros x. rewrite Hpod. unfold podado.
      destruct (decide (x = vecino)) as [->|Hx].
      * rewrite lookup_insert_eq, Hdv.
        rewrite (decide_True (P := vecino ∈ vecino :: resto ∧ _))
          by set_solver.
        destruct (decide (vecino ∈ resto ∧ vecino ∉ dom asignacion)); simpl;
          [by rewrite compatibles_idem | done].
      * rewrite lookup_insert_ne by done. apply decide_ext.
        rewrite elem_of_cons. tauto.
    + intros x Hx Hxl. destruct (decide (x = vecino)) as [->|Hxv].
      * by exists dv.
      * apply elem_of_cons in Hx as [?|Hx]; [done|].
        destruct (Hne x Hx Hxl) as (dx & Hdx & Hfdx).
        rewrite lookup_insert_ne in Hdx by done. by exists dx.
  - destruct Hr as (x & dx & Hx & Hxl & Hdx & Hfdx).
    destruct (decide (x = vecino)) as [->|Hxv].
    + rewrite lookup_insert_eq in Hdx. injection Hdx as <-.
      rewrite compatibles_idem in Hfdx. done.
    + rewrite lookup_insert_ne in Hdx by done.
      exists x, dx. set_solver.
Qed.

(** [podar_dominios] on a store [h] that holds the caller's dictionary
    [d] at the address [dominios]. *)
Lemma podar_dominios_spec h dominios d :
  h !! dominios = Some d →
  var_actual ∉ vecinos_de adyacentes var_actual →
  let '(h', r) := podar_dominios adyacentes h dominios asignacion
                                 var_actual valor_actual in
  (∀ l, l ∈ dom h → h' !! l = h !! l) ∧
  match r with
  | Retorna (Some nuevos) =>
      (nuevos ∉ dom h) ∧
      ∃ d', h' !! nuevos = Some d' ∧
            d' !! var_actual = Some [valor_actual] ∧
            (∀ x, x ≠ var_actual →
                  d' !! x = poda (vecinos_de adyacentes var_actual) d x) ∧
            (∀ x, x ∈ vecinos_de adyacentes var_actual →
                  x ∉ dom asignacion →
                  ∃ dx, d !! x = Some dx ∧ filtra x dx ≠ [])
  | Retorna None =>
      ∃ x dx, x ∈ vecinos_de adyacentes var_actual ∧
              (x ∉ dom asignacion) ∧ d !! x = Some dx ∧ filtra x dx = []
  | Excepcion =>
      adyacentes !! var_actual = None ∨
      ∃ x, x ∈ vecinos_de adyacentes var_actual ∧
           (x ∉ dom asignacion) ∧ d !! x = None
  | SinCombustible => False
  end.
Proof.
  intros Hd Hlazo. unfold podar_dominios, deepcopy. rewrite Hd.
  set (nuevos := fresh (dom h)).
  assert (Hfresh : nuevos ∉ dom h) by apply is_fresh.
  assert (Hotros : ∀ l, l ∈ dom h → l ≠ nuevos) by (intros l Hl ->; done).
  unfold vecinos_de in *.
  destruct (adyacentes !! var_actual) as [vs|] eqn:Hvs; simpl in *.
  2:{ split; [|by left]. intros l Hl.
      rewrite !lookup_insert_ne; [done| |]; intros <-; by apply Hfresh. }
  pose proof (podar_vecinos_spec nuevos vs
                (<[nuevos := <[var_actual := [valor_actual]]> d]>
                   (<[nuevos := d]> h))
                (<[var_actual := [valor_actual]]> d)
                (lookup_insert_eq _ _ _)) as Hspec.
  destruct (podar_vecinos adyacentes _ nuevos asignacion var_actual
                          valor_actual vs) as [h' r].
  destruct Hspec as [Hframe Hr].
  assert (Hframe' : ∀ l, l ∈ dom h → h' !! l = h !! l).
  { intros l Hl. rewrite Hframe by auto.
    rewrite !lookup_insert_ne; [done| |]; intros <-; by apply Hfresh. }
  destruct r as [| |[]]; (split; [done|]).
  - done.
  - right. destruct Hr as (x & Hx & Hxl & Hnone). exists x.
    split; [done|]. split; [done|].
    rewrite lookup_insert_ne in Hnone; [done|]. by intros <-.
  - split; [done|]. destruct Hr as [(d' & Hd' & Hpod) Hne].
    exists d'. split; [done|]. split; [|split].
    + rewrite Hpod. unfold podado. rewrite decide_False by tauto.
      apply lookup_insert_eq.
    + intros x Hx. rewrite Hpod. unfold podado.
      by rewrite lookup_insert_ne.
    + intros x Hx Hxl. destruct (Hne x Hx Hxl) as (dx & Hdx & Hf).
      exists dx. split; [|done].
      rewrite lookup_insert_ne in Hdx; [done|]. by intros <-.
  - destruct Hr as (x & dx & Hx & Hxl & Hdx & Hf). exists x, dx.
    split; [done|]. split; [done|]. split; [|done].
    rewrite lookup_insert_ne in Hdx; [done|]. by intros <-.
Qed.

End Podar.

(** ** File 21: backjumping *)

Section Backjumping.

Variable adyacentes : gmap string (list string).
Variable orden_vars : list string.
Variable dominios : gmap string (list string).

Lemma pasos_sin_combustible n e e' :
  pasos adyacentes n orden_vars dominios e = Sigue e' →
  (∀ fuel, bucle adyacentes fuel orden_vars dominios e' = SinCombustible) →
  ∀ fuel, bucle adyacentes fuel orden_vars dominios e = SinCombustible.
Proof.
  revert e. induction n as [|n IH]; intros e Hp Hdiv fuel; simpl in Hp.
  - by injection Hp as ->.
  - destruct fuel as [|fuel]; [done|]. simpl.
    destruct (paso adyacentes orden_vars dominios e) as [r| |e1]; try done.
    by apply IH.
Qed.

(** A set of states that the loop body never leaves is a set of states
    from which the loop never returns. *)
Lemma bucle_invariante (P : estado → Prop) :
  (∀ e, P e → ∃ e', paso adyacentes orden_vars dominios e = Sigue e' ∧ P e') →
  ∀ fuel e, P e →
    bucle adyacentes fuel orden_vars dominios e = SinCombustible.
Proof.
  intros Hpaso fuel. induction fuel as [|fuel IH]; intros e He; [done|].
  simpl. destruct (Hpaso e He) as (e' & -> & He'). by apply IH.
Qed.

(** The loop answers [None] exactly in a round that starts with a
    negative index. *)
Lemma paso_termina_sin_solucion e :
  paso adyacentes orden_vars dominios e = Termina None
  ↔ (idx_actual e < 0)%Z.
Proof.
  unfold paso. destruct (decide (idx_actual e < 0)%Z) as [Hneg|Hpos];
    [done|].
  split; [|done].
  destruct (decide (idx_actual e = Z.of_nat (length orden_vars))); [done|].
  destruct (orden_vars !! Z.to_nat (idx_actual e)) as [var|]; [|done].
  destruct (dominios !! var) as [dom|]; [|done].
  destruct (intentar_valores _ _ _ _ _) as [[[valor|] cs] intento]; done.
Qed.

Lemma bucle_mas_combustible fuel extra e r :
  bucle adyacentes fuel orden_vars dominios e = Retorna r →
  bucle adyacentes (fuel + extra) orden_vars dominios e = Retorna r.
Proof.
  revert e. induction fuel as [|fuel IH]; intros e; simpl; [done|].
  destruct (paso adyacentes orden_vars dominios e); auto.
Qed.

Hypothesis orden_sin_repetidos : NoDup orden_vars.

(** The cleaning loop leaves the conflict set and the trial index of the
    jump target alone. *)
Lemma limpiar_uno_conserva salto var e j :
  orden_vars !! salto = Some var →
  conflict_set (limpiar_uno orden_vars (Z.of_nat salto) e j) !!! var
  = conflict_set e !!! var ∧
  intento_valor_idx (limpiar_uno orden_vars (Z.of_nat salto) e j) !!! var
  = intento_valor_idx e !!! var ∧
  idx_actual (limpiar_uno orden_vars (Z.of_nat salto) e j) = idx_actual e.
Proof.
  intros Hvar. unfold limpiar_uno.
  destruct (orden_vars !! j) as [var_j|] eqn:Hj; [|done].
  destruct (decide (Z.of_nat j = Z.of_nat salto)) as [Heq|Hne]; [done|].
  simpl. assert (var_j ≠ var).
  { intros ->. pose proof (NoDup_lookup _ _ _ _ orden_sin_repetidos Hj Hvar).
    lia. }
  by rewrite !lookup_total_insert_ne.
Qed.

Lemma limpiar_conserva salto var js e :
  orden_vars !! salto = Some var →
  conflict_set (foldl (limpiar_uno orden_vars (Z.of_nat salto)) e js) !!! var
  = conflict_set e !!! var ∧
  intento_valor_idx
    (foldl (limpiar_uno orden_vars (Z.of_nat salto)) e js) !!! var
  = intento_valor_idx e !!! var ∧
  idx_actual (foldl (limpiar_uno orden_vars (Z.of_nat salto)) e js)
  = idx_actual e.
Proof.
  intros Hvar. revert e. induction js as [|j js IH]; intros e; [done|].
  simpl. destruct (IH (limpiar_uno orden_vars (Z.of_nat salto) e j))
    as (-> & -> & ->).
  by apply limpiar_uno_conserva.
Qed.

Lemma paso_atascado i var dominio_var conflictos e :
  orden_vars !! i = Some var →
  dominios !! var = Some dominio_var →
  size conflictos ≠ 0 →
  calcular_salto orden_vars (Z.of_nat i) conflictos = Z.of_nat i →
  atascado i var dominio_var conflictos e →
  ∃ e', paso adyacentes orden_vars dominios e = Sigue e' ∧
        atascado i var dominio_var conflictos e'.
Proof.
  intros Hvar Hdom Hsize Hsalto (Hidx & Hcs & Hint).
  pose proof (lookup_lt_Some _ _ _ Hvar) as Hlt.
  unfold paso. rewrite Hidx.
  rewrite decide_False by lia. rewrite decide_False by lia.
  rewrite Nat2Z.id, Hvar, Hdom, drop_ge by done. simpl.
  eexists. split; [reflexivity|].
  unfold saltar, limpiar, atascado. simpl.
  rewrite lookup_total_insert_eq, Hcs, Hsalto, Nat2Z.id, Hvar.
  rewrite decide_False by done. rewrite !decide_True by lia.
  set (e0 := {| asignacion_parcial := _ |}).
  destruct (limpiar_conserva i var (seq i (length orden_vars - i)) e0 Hvar)
    as (Hc & Hi & _).
  split; [done|]. split.
  - rewrite Hc. unfold e0. simpl.
    rewrite !lookup_total_insert_eq. apply union_idemp_L.
  - rewrite lookup_total_insert_eq, Hi. unfold e0. simpl.
    rewrite lookup_total_insert_eq. lia.
Qed.

Lemma atascado_sin_combustible i var dominio_var conflictos e :
  orden_vars !! i = Some var →
  dominios !! var = Some dominio_var →
  size conflictos ≠ 0 →
  calcular_salto orden_vars (Z.of_nat i) conflictos = Z.of_nat i →
  atascado i var dominio_var conflictos e →
  ∀ fuel, bucle adyacentes fuel orden_vars dominios e = SinCombustible.
Proof.
  intros Hvar Hdom Hsize Hsalto He fuel.
  apply (bucle_invariante (atascado i var dominio_var conflictos)); [|done].
  intros e0 He0. by apply (paso_atascado i var dominio_var conflictos).
Qed.

End Backjumping.

(** * The scripts on the map of Australia *)


Section Mapa.

Import Australia Ejemplos.

Lemma adyacentes_sin_lazos : sin_lazos adyacentes.
Proof.
  assert (H : map_Forall (λ a vs, a ∉ vs) adyacentes).
  { apply map_Forall_to_list. vm_compute map_to_list.
    repeat constructor; simpl; decidir. }
  intros a. unfold vecinos_de.
  destruct (adyacentes !! a) as [vs|] eqn:Ha; simpl; [|set_solver].
  by apply (H a vs).
Qed.

Lemma adyacentes_simetrica : simetrica adyacentes.
Proof.
  assert (H : map_Forall (λ a vs, Forall (λ b, a ∈ vecinos_de adyacentes b) vs)
                         adyacentes).
  { apply map_Forall_to_list. vm_compute map_to_list.
    repeat constructor; decidir. }
  intros a b. unfold vecinos_de at 1.
  destruct (adyacentes !! a) as [vs|] eqn:Ha; simpl; [|set_solver].
  intros Hb. specialize (H a vs Ha). rewrite Forall_forall in H. by apply H.
Qed.

(** ** Backjumping against its sibling, backtracking *)

Lemma triangulo_sin_repetidos : NoDup triangulo.
Proof. apply NoDup_ListNoDup. repeat constructor; simpl; intuition discriminate. Qed.

(** C1 (defect of file 21): an assignment returned as a solution should
    have every variable of the order as a key.  On the order SA, T, WA, NT
    with the domains [dominios_cuatro], [backjumping] leaves its loop
    through the success exit and returns a dictionary with the keys WA and
    NT only, SA and T are missing; [backtracking] on the same problem
    returns a complete colouring. *)
Theorem backjumping_devuelve_asignacion_incompleta :
  (∀ extra, backjumping adyacentes (8 + extra) cuatro dominios_cuatro
            = Retorna (Some coloreo_incompleto)) ∧
  coloreo_incompleto !! "SA" = None ∧
  coloreo_incompleto !! "T" = None ∧
  size coloreo_incompleto = 2 ∧ length cuatro = 4 ∧
  backtracking adyacentes 5 ∅ cuatro dominios_cuatro
  = Retorna (Exito coloreo_cuatro).
Proof.
  split.
  { intros extra. apply bucle_mas_combustible. by vm_compute. }
  repeat split; by vm_compute.
Qed.

(** C2 (defect of file 21): the two searches should agree on whether a
    solution exists.  On the triangle WA, NT, SA with the domains
    [dominios_triangulo], [backtracking] returns the colouring
    [coloreo_triangulo] and [backjumping] never returns: after three
    rounds NT, out of values, is the jump target of its own conflict set,
    and every further round jumps from NT to NT. *)
Theorem backjumping_no_retorna_donde_backtracking_resuelve :
  backtracking adyacentes 4 ∅ triangulo dominios_triangulo
  = Retorna (Exito coloreo_triangulo) ∧
  ∀ fuel, backjumping adyacentes fuel triangulo dominios_triangulo
          = SinCombustible.
Proof.
  split; [by vm_compute|]. unfold backjumping.
  eapply (pasos_sin_combustible _ _ _ 3); [by vm_compute|].
  apply (atascado_sin_combustible _ _ _ triangulo_sin_repetidos
           1 "NT" ["VERDE"] {["WA"; "NT"]}); by vm_compute.
Qed.

(** C7 (defect of file 21): on an unsolvable problem every search should
    return [None].  On the triangle WA, NT, SA with two colours
    [backtracking] returns [None] with the dictionary empty again, and
    [backjumping] never returns: it is stuck jumping from NT to NT. *)
Theorem backjumping_no_retorna_en_triangulo_dos_colores :
  backtracking adyacentes 4 ∅ triangulo dos_colores = Retorna (Fallo ∅) ∧
  ∀ fuel, backjumping adyacentes fuel triangulo dos_colores = SinCombustible.
Proof.
  split; [by vm_compute|]. unfold backjumping.
  eapply (pasos_sin_combustible _ _ _ 3); [by vm_compute|].
  apply (atascado_sin_combustible _ _ _ triangulo_sin_repetidos
           1 "NT" ["ROJO"; "VERDE"] {["WA"; "NT"]}); by vm_compute.
Qed.

(** C3 (defect of file 21): a jump should unassign every variable between
    the jump target and the current depth.  On the order SA, T, WA, NT the
    fourth round fails at NT (index 3) with conflict set {SA} and jumps to
    index 0; the cleaning loop starts at index 3, so T and WA, at indices
    1 and 2, keep their values in [asignacion_parcial]. *)
Theorem salto_deja_asignadas_las_variables_intermedias :
  ∃ e3 e4,
    pasos adyacentes 3 cuatro dominios_cuatro (estado_inicial cuatro)
    = Sigue e3 ∧
    idx_actual e3 = 3%Z ∧ conflict_set e3 !!! "NT" = ∅ ∧
    paso adyacentes cuatro dominios_cuatro e3 = Sigue e4 ∧
    idx_actual e4 = 0%Z ∧
    conflict_set e4 !!! "SA" = {["SA"]} ∧
    intento_valor_idx e4 !!! "SA" = 1 ∧
    asignacion_parcial e4 !! "T" = Some "ROJO" ∧
    asignacion_parcial e4 !! "WA" = Some "VERDE".
Proof.
  eexists _, _. split; [by vm_compute|].
  split; [by vm_compute|]. split; [by vm_compute|].
  split; [by vm_compute|]. repeat split; by vm_compute.
Qed.

(** ** File 18 on any dictionary *)

(** C10: whenever [backtracking] returns [None], the dictionary
    [asignacion_parcial] of the caller holds the key-value pairs it held
    at the call, whatever dictionary, order and domains were passed. *)
Theorem backtracking_fallo_restaura_asignacion
    fuel asig variables_orden dominios asig' :
  backtracking adyacentes fuel asig variables_orden dominios
  = Retorna (Fallo asig') →
  asig' = asig.
Proof. apply backtracking_restaura, adyacentes_sin_lazos. Qed.

Lemma backtracking_fallo_restaura_asignacion_witness :
  backtracking adyacentes 4 {["T" := "AZUL"]} ["T"; "WA"; "NT"; "SA"]
               (<["T" := ["AZUL"]]> dos_colores)
  = Retorna (Fallo {["T" := "AZUL"]})
  ∧ ({["T" := "AZUL"]} : gmap string string) = {["T" := "AZUL"]}.
Proof.
  split; [by vm_compute|].
  apply (backtracking_fallo_restaura_asignacion
           4 {["T" := "AZUL"]} ["T"; "WA"; "NT"; "SA"]
           (<["T" := ["AZUL"]]> dos_colores)).
  by vm_compute.
Defined.

(** ** File 20 on values *)


(** ** File 19 *)

(** C5: [podar_dominios], called with a value of the domain of
    [var_actual], works on a new dictionary and leaves every dictionary of
    the caller as it was.  When it returns the new dictionary, the domain
    of [var_actual] is the chosen value alone, the domain of every
    unassigned neighbour has lost exactly the values equal to it and is
    not empty, every other domain is untouched, and so every domain is
    included in the one it had.  It returns [None] when the domain of some
    unassigned neighbour has nothing but the chosen value.  It raises only
    on a missing key. *)
Theorem podar_dominios_correcto
    h dominios d asignacion var_actual valor_actual dominio_var :
  h !! dominios = Some d →
  d !! var_actual = Some dominio_var →
  valor_actual ∈ dominio_var →
  let '(h', r) := podar_dominios adyacentes h dominios asignacion
                                 var_actual valor_actual in
  (∀ l, l ∈ dom h → h' !! l = h !! l) ∧
  match r with
  | Retorna (Some nuevos) =>
      (nuevos ∉ dom h) ∧
      ∃ d', h' !! nuevos = Some d' ∧
        d' !! var_actual = Some [valor_actual] ∧
        (∀ x, x ∈ vecinos_de adyacentes var_actual → x ∉ dom asignacion →
           ∃ dx, d !! x = Some dx ∧
                 d' !! x = Some (filter (λ val, val ≠ valor_actual) dx) ∧
                 filter (λ val, val ≠ valor_actual) dx ≠ []) ∧
        (∀ x, x ≠ var_actual →
              ¬ (x ∈ vecinos_de adyacentes var_actual ∧ x ∉ dom asignacion) →
              d' !! x = d !! x) ∧
        (∀ x dx', d' !! x = Some dx' → ∃ dx, d !! x = Some dx ∧ dx' ⊆ dx)
  | Retorna None =>
      ∃ x dx, x ∈ vecinos_de adyacentes var_actual ∧ (x ∉ dom asignacion) ∧
              d !! x = Some dx ∧
              filter (λ val, val ≠ valor_actual) dx = []
  | Excepcion =>
      adyacentes !! var_actual = None ∨
      ∃ x, x ∈ vecinos_de adyacentes var_actual ∧ (x ∉ dom asignacion) ∧
           d !! x = None
  | SinCombustible => False
  end.
Proof.
  intros Hd Hvar Hvalor.
  pose proof (podar_dominios_spec adyacentes asignacion var_actual
                valor_actual h dominios d Hd
                (adyacentes_sin_lazos var_actual)) as Hspec.
  destruct (podar_dominios adyacentes h dominios asignacion var_actual
                           valor_actual) as [h' r].
  destruct Hspec as [Hframe Hr]. split; [done|].
  destruct r as [| |[nuevos|]]; [done|done| |].
  - destruct Hr as (Hfresh & d' & Hd' & Hvar' & Hpod & Hno_vacio).
    split; [done|]. exists d'. split; [done|]. split; [done|].
    assert (Hvecino : ∀ x, x ∈ vecinos_de adyacentes var_actual → x ≠ var_actual).
    { intros x Hx ->. by apply (adyacentes_sin_lazos var_actual). }
    split; [|split].
    + intros x Hx Hxl. destruct (Hno_vacio x Hx Hxl) as (dx & Hdx & Hf).
      exists dx. rewrite <- (compatibles_vecino adyacentes var_actual valor_actual x) by done.
      split; [done|]. split; [|done].
      rewrite Hpod by auto. unfold podado.
      rewrite decide_True by done. by rewrite Hdx.
    + intros x Hx Hno. rewrite Hpod by done. unfold podado.
      by rewrite decide_False.
    + intros x dx' Hx. destruct (decide (x = var_actual)) as [->|Hne].
      * exists dominio_var. split; [done|].
        assert (dx' = [valor_actual]) as -> by congruence.
        by intros y ->%list_elem_of_singleton.
      * rewrite Hpod in Hx by done. unfold podado in Hx.
        destruct (decide _) as [_|_]; [|by exists dx'].
        destruct (d !! x) as [dx|]; [|done]. injection Hx as <-.
        exists dx. split; [done|]. apply compatibles_subseteq.
  - destruct Hr as (x & dx & Hx & Hxl & Hdx & Hf). exists x, dx.
    by rewrite <- (compatibles_vecino adyacentes var_actual valor_actual x) by done.
Qed.

Lemma podar_dominios_correcto_witness :
  ({[0 := dominio_base]} : almacen) !! 0 = Some dominio_base
  ∧ dominio_base !! "WA" = Some ["ROJO"; "VERDE"; "AZUL"]
  ∧ "ROJO" ∈ ["ROJO"; "VERDE"; "AZUL"]
  ∧ (podar_dominios adyacentes {[0 := dominio_base]} 0
                    {["WA" := "ROJO"]} "WA" "ROJO").1 !! 0
    = Some dominio_base.
Proof.
  assert (H1 : ({[0 := dominio_base]} : almacen) !! 0 = Some dominio_base)
    by by vm_compute.
  assert (H2 : dominio_base !! "WA" = Some ["ROJO"; "VERDE"; "AZUL"])
    by by vm_compute.
  assert (H3 : "ROJO" ∈ ["ROJO"; "VERDE"; "AZUL"]) by decidir.
  split; [exact H1|]. split; [exact H2|]. split; [exact H3|].
  pose proof (podar_dominios_correcto {[0 := dominio_base]} 0 dominio_base
                {["WA" := "ROJO"]} "WA" "ROJO" _ H1 H2 H3) as H.
  destruct (podar_dominios adyacentes {[0 := dominio_base]} 0
                           {["WA" := "ROJO"]} "WA" "ROJO") as [h' r].
  destruct H as [Hframe _]. simpl. rewrite Hframe; [exact H1|decidir].
Defined.

(** ** Malformed problems *)

(** C8 as stated fails: nothing checks the problem before the search.
    With an empty domain for WA both searches run and return [None]; with
    an adjacency table that is not symmetric both run and return an
    assignment that gives the neighbours A and B the same colour. *)
Lemma problema_mal_formado_no_se_rechaza :
  backtracking adyacentes 2 ∅ ["WA"] {["WA" := []]} = Retorna (Fallo ∅) ∧
  backjumping adyacentes 3 ["WA"] {["WA" := []]} = Retorna None ∧
  ¬ simetrica adyacentes_asimetrica ∧
  backtracking adyacentes_asimetrica 3 ∅ ["A"; "B"] un_color
  = Retorna (Exito coloreo_un_color) ∧
  backjumping adyacentes_asimetrica 3 ["A"; "B"] un_color
  = Retorna (Some coloreo_un_color).
Proof.
  split; [by vm_compute|]. split; [by vm_compute|]. split.
  - intros H. specialize (H "A" "B"). vm_compute in H.
    assert (Hin : "B" ∈ ["B"]) by decidir.
    apply H in Hin. by apply elem_of_nil in Hin.
  - split; by vm_compute.
Qed.

End Mapa.

(** C8 as amended: [backtracking] checks nothing about the problem it is
    given and runs the search on it.  For any adjacency table, symmetric or
    not, an order without repetitions and a domain for each of its
    variables, the call on the empty dictionary returns, and when some
    variable has an empty domain it returns [None] with the dictionary
    empty. *)
Theorem backtracking_no_valida_el_problema
    adyacentes variables_orden dominios fuel :
  NoDup variables_orden →
  (∀ v, v ∈ variables_orden → is_Some (dominios !! v)) →
  length variables_orden < fuel →
  ∃ r, backtracking adyacentes fuel ∅ variables_orden dominios = Retorna r ∧
       ((∃ v, v ∈ variables_orden ∧ dominios !! v = Some []) →
        r = Fallo ∅).
Proof.
  intros Hnd Hdom Hfuel.
  pose proof (backtracking_correcto adyacentes variables_orden dominios
                Hnd Hdom fuel ∅ (prefijo_vacio variables_orden)) as Hok.
  destruct (backtracking adyacentes fuel ∅ variables_orden dominios)
    as [| |[sol|asig']]; simpl in Hok.
  - rewrite map_size_empty in Hok. lia.
  - done.
  - exists (Exito sol). split; [done|]. intros (v & Hv & Hvacio). exfalso.
    destruct Hok as (_ & [_ Hpre] & Hsz & Hsol).
    apply list_elem_of_lookup_1 in Hv as [i Hi].
    destruct (proj2 (Hpre v)) as [x Hx].
    { exists i. split; [|done]. rewrite Hsz. by eapply lookup_lt_Some. }
    destruct (Hsol i v x) as [(dv & Hdv & Hin) _]; [rewrite map_size_empty; lia|done|done|].
    assert (dv = []) as -> by congruence. by apply elem_of_nil in Hin.
  - subst asig'. exists (Fallo ∅). by split.
Qed.

Lemma backtracking_no_valida_el_problema_witness :
  NoDup ["A"; "B"]
  ∧ (∀ v, v ∈ ["A"; "B"] → is_Some (Ejemplos.dominio_vacio !! v))
  ∧ length ["A"; "B"] < 3
  ∧ ∃ r, backtracking Ejemplos.adyacentes_asimetrica 3 ∅ ["A"; "B"]
                      Ejemplos.dominio_vacio = Retorna r ∧
         ((∃ v, v ∈ ["A"; "B"] ∧ Ejemplos.dominio_vacio !! v = Some []) →
          r = Fallo ∅).
Proof.
  assert (H1 : NoDup ["A"; "B"]) by decidir.
  assert (H2 : ∀ v, v ∈ ["A"; "B"] → is_Some (Ejemplos.dominio_vacio !! v)).
  { intros v Hv. apply (bool_decide_unpack _).
    repeat (apply elem_of_cons in Hv as [->|Hv]; [vm_compute; exact I|]).
    by apply elem_of_nil in Hv. }
  assert (H3 : length ["A"; "B"] < 3) by (simpl; lia).
  split; [exact H1|]. split; [exact H2|]. split; [exact H3|].
  exact (backtracking_no_valida_el_problema Ejemplos.adyacentes_asimetrica
           ["A"; "B"] Ejemplos.dominio_vacio 3 H1 H2 H3).
Defined.

(** * Further properties of the scripts *)

(** ** File 18: what a call of [backtracking] on the empty dictionary
       returns *)

Section Coloreos.

Variable adyacentes : gmap string (list string).
Variable variables_orden : list string.
Variable dominios : gmap string (list string).

Lemma coloreo_valido_b_correcto sol :
  coloreo_valido_b adyacentes variables_orden dominios sol = true →
  coloreo_valido adyacentes variables_orden dominios sol.
Proof.
  unfold coloreo_valido_b. intros [H1 H2]%andb_true_iff.
  rewrite forallb_forall in H1, H2. split.
  - intros v Hv%list_elem_of_In. specialize (H1 v Hv).
    destruct (sol !! v) as [x|]; [|done].
    destruct (dominios !! v) as [dv|]; [|done].
    exists x, dv. by apply bool_decide_eq_true in H1.
  - intros u v x y Hu%list_elem_of_In Hv%list_elem_of_In Hx Hy Hvec.
    specialize (H2 u Hu). rewrite forallb_forall in H2.
    specialize (H2 v Hv). rewrite Hx, Hy in H2.
    rewrite decide_True in H2 by done. by apply bool_decide_eq_true in H2.
Qed.

Lemma coloreo_valido_dominios sol :
  coloreo_valido adyacentes variables_orden dominios sol →
  ∀ v, v ∈ variables_orden → is_Some (dominios !! v).
Proof. intros [H _] v Hv. destruct (H v Hv) as (x & dv & _ & -> & _). eauto. Qed.

Hypothesis orden_sin_repetidos : NoDup variables_orden.

(** The colouring [sol] is consistent with any part of itself. *)
Lemma coloreo_valido_consistente sol asig var x :
  coloreo_valido adyacentes variables_orden dominios sol →
  prefijo variables_orden asig → asig ⊆ sol →
  variables_orden !! size asig = Some var →
  sol !! var = Some x →
  es_consistente_con_asignacion adyacentes asig var x = true.
Proof.
  intros [_ Hdif] [_ Hpre] Hsub Hvar Hx.
  apply es_consistente_con_asignacion_true. intros o ov Ho.
  apply no_conflicto_binario_true. intros Hvec.
  destruct (proj1 (Hpre o)) as (i & _ & Hi); [by eauto|].
  apply (Hdif var o x ov); try done.
  - by eapply list_elem_of_lookup_2.
  - by eapply list_elem_of_lookup_2.
  - by eapply lookup_weaken.
Qed.

Lemma probar_valores_completo fuel sol asig var x dv valores :
  coloreo_valido adyacentes variables_orden dominios sol →
  prefijo variables_orden asig → asig ⊆ sol →
  variables_orden !! size asig = Some var →
  sol !! var = Some x → dominios !! var = Some dv →
  length variables_orden < fuel + S (size asig) →
  (∀ a, prefijo variables_orden a → a ⊆ sol → size a = S (size asig) →
        ∃ sol', backtracking adyacentes fuel a variables_orden dominios
                = Retorna (Exito sol')) →
  valores ⊆ dv → x ∈ valores →
  ∃ sol', probar_valores adyacentes
            (λ a, backtracking adyacentes fuel a variables_orden dominios)
            var asig valores = Retorna (Exito sol').
Proof.
  intros Hsol Hp Hsub Hvar Hx Hdv Hfuel Hrec.
  pose proof (coloreo_valido_dominios sol Hsol) as Hdoms.
  pose proof (prefijo_siguiente_libre _ orden_sin_repetidos _ _ Hp Hvar)
    as Hlibre.
  assert (Hcx : es_consistente_con_asignacion adyacentes asig var x = true)
    by by apply (coloreo_valido_consistente sol).
  induction valores as [|valor resto IH]; intros Hval Hin.
  { by apply elem_of_nil in Hin. }
  assert (Hresto : resto ⊆ dv) by (intros y Hy; apply Hval; by right).
  simpl.
  destruct (es_consistente_con_asignacion adyacentes asig var valor) eqn:Hc.
  2:{ apply IH; [done|]. apply elem_of_cons in Hin as [->|?]; [congruence|done]. }
  destruct (prefijo_insert _ orden_sin_repetidos _ _ valor Hp Hvar)
    as [Hp1 Hsz1].
  pose proof (backtracking_correcto adyacentes variables_orden dominios
                orden_sin_repetidos Hdoms fuel _ Hp1) as Hok.
  destruct (backtracking adyacentes fuel (<[var:=valor]> asig)
                         variables_orden dominios)
    as [| |[sol'|a']] eqn:Hr; simpl in Hok.
  - rewrite Hsz1 in Hok. lia.
  - done.
  - by eauto.
  - subst a'. rewrite lookup_insert_eq, delete_insert_id by done.
    apply IH; [done|].
    apply elem_of_cons in Hin as [->|?]; [|done].
    destruct (Hrec (<[var:=valor]> asig)) as [sol' Hsol']; [done| |done|congruence].
    by apply insert_subseteq_l.
Qed.

Lemma backtracking_completo fuel sol asig :
  coloreo_valido adyacentes variables_orden dominios sol →
  prefijo variables_orden asig → asig ⊆ sol →
  length variables_orden < fuel + size asig →
  ∃ sol', backtracking adyacentes fuel asig variables_orden dominios
          = Retorna (Exito sol').
Proof.
  intros Hsol. revert asig. induction fuel as [|fuel IH];
    intros asig Hp Hsub Hfuel.
  { destruct Hp as [Hle _]. simpl in Hfuel. lia. }
  simpl.
  destruct (decide (size asig = length variables_orden)); [by eauto|].
  destruct Hp as [Hle Hpre].
  destruct (lookup_lt_is_Some_2 variables_orden (size asig)) as [var Hvar];
    [lia|].
  rewrite Hvar.
  destruct (proj1 Hsol var) as (x & dv & Hx & Hdv & Hin);
    [by eapply list_elem_of_lookup_2|].
  rewrite Hdv.
  apply (probar_valores_completo fuel sol asig var x dv dv); try done.
  - lia.
  - intros a Ha Hasub Hsz. apply IH; [done|done|lia].
Qed.

End Coloreos.

(** Membership in a list given in full, one element at a time. *)
Ltac por_casos H :=
  repeat (apply elem_of_cons in H as [->|H]; [try (vm_compute; by eauto)|]);
  try (by apply elem_of_nil in H).

Lemma dominio_base_completo v :
  v ∈ Australia.variables → is_Some (Australia.dominio_base !! v).
Proof. intros Hv. por_casos Hv. Qed.

Lemma adyacentes_completo v :
  v ∈ Australia.variables → is_Some (Australia.adyacentes !! v).
Proof. intros Hv. por_casos Hv. Qed.

(** X1: a dictionary that [backtracking], called on the empty dictionary,
    returns as a solution has exactly the variables of the order as keys,
    gives each a value of its domain and gives neighbours different
    values.  The graph is symmetric and has no loops, the order has no
    repeated variable and every variable of it has a domain. *)
Theorem backtracking_devuelve_coloreo_valido
    adyacentes variables_orden dominios fuel sol :
  simetrica adyacentes → sin_lazos adyacentes →
  NoDup variables_orden →
  (∀ v, v ∈ variables_orden → is_Some (dominios !! v)) →
  backtracking adyacentes fuel ∅ variables_orden dominios
  = Retorna (Exito sol) →
  coloreo_valido adyacentes variables_orden dominios sol ∧
  (∀ v, is_Some (sol !! v) ↔ v ∈ variables_orden) ∧
  size sol = length variables_orden.
Proof.
  intros Hsim Hlazos Hnd Hdoms Hr.
  destruct (backtracking_solucion_valida adyacentes variables_orden dominios
              Hnd Hdoms fuel sol Hsim Hlazos Hr) as (Hkeys & Hsz & Hval & Hdif).
  split; [|by split]. split.
  - intros v Hv. destruct (proj2 (Hkeys v) Hv) as [x Hx].
    destruct (Hval v x Hx) as (dv & Hdv & Hin). by exists x, dv.
  - intros u v x y _ _ Hx Hy Hvec. by apply (Hdif u v x y).
Qed.

Lemma backtracking_devuelve_coloreo_valido_witness :
  simetrica Australia.adyacentes ∧ sin_lazos Australia.adyacentes ∧
  NoDup Australia.variables ∧
  (∀ v, v ∈ Australia.variables → is_Some (Australia.dominio_base !! v)) ∧
  backtracking Australia.adyacentes 8 ∅ Australia.variables
               Australia.dominio_base
  = Retorna (Exito Ejemplos.coloreo_backtracking) ∧
  coloreo_valido Australia.adyacentes Australia.variables
                 Australia.dominio_base Ejemplos.coloreo_backtracking.
Proof.
  assert (H3 : NoDup Australia.variables) by decidir.
  assert (H5 : backtracking Australia.adyacentes 8 ∅ Australia.variables
                 Australia.dominio_base
               = Retorna (Exito Ejemplos.coloreo_backtracking))
    by by vm_compute.
  split; [exact adyacentes_simetrica|]. split; [exact adyacentes_sin_lazos|].
  split; [exact H3|]. split; [exact dominio_base_completo|].
  split; [exact H5|].
  exact (proj1 (backtracking_devuelve_coloreo_valido
                  Australia.adyacentes Australia.variables
                  Australia.dominio_base 8 Ejemplos.coloreo_backtracking
                  adyacentes_simetrica adyacentes_sin_lazos H3
                  dominio_base_completo H5)).
Defined.

(** X2: [backtracking] is complete.  When the variables of an order
    without repetitions have a colouring, the call on the empty dictionary
    returns a solution, given more fuel than there are variables. *)
Theorem backtracking_encuentra_solucion_si_existe
    adyacentes variables_orden dominios fuel sol :
  NoDup variables_orden →
  coloreo_valido adyacentes variables_orden dominios sol →
  length variables_orden < fuel →
  ∃ sol', backtracking adyacentes fuel ∅ variables_orden dominios
          = Retorna (Exito sol').
Proof.
  intros Hnd Hsol Hfuel.
  apply (backtracking_completo adyacentes variables_orden dominios Hnd
           fuel sol ∅); try done.
  - apply prefijo_vacio.
  - apply map_empty_subseteq.
  - rewrite map_size_empty. lia.
Qed.

Lemma backtracking_encuentra_solucion_si_existe_witness :
  NoDup Australia.variables ∧
  coloreo_valido Australia.adyacentes Australia.variables
                 Australia.dominio_base Ejemplos.coloreo_australia ∧
  length Australia.variables < 8 ∧
  ∃ sol', backtracking Australia.adyacentes 8 ∅ Australia.variables
                       Australia.dominio_base = Retorna (Exito sol').
Proof.
  assert (H1 : NoDup Australia.variables) by decidir.
  assert (H2 : coloreo_valido Australia.adyacentes Australia.variables
                 Australia.dominio_base Ejemplos.coloreo_australia).
  { apply coloreo_valido_b_correcto. by vm_compute. }
  assert (H3 : length Australia.variables < 8) by (simpl; lia).
  split; [exact H1|]. split; [exact H2|]. split; [exact H3|].
  exact (backtracking_encuentra_solucion_si_existe
           Australia.adyacentes Australia.variables Australia.dominio_base
           8 Ejemplos.coloreo_australia H1 H2 H3).
Defined.

(** ** File 21: what [backjumping] keeps *)

Section SaltoAtras.

Variable adyacentes : gmap string (list string).
Variable orden_vars : list string.
Variable dominios : gmap string (list string).

Lemma elem_of_es_consistente_con_parcial asig var valor o :
  o ∈ es_consistente_con_parcial adyacentes asig var valor
  ↔ ∃ ov, asig !! o = Some ov ∧
          no_conflicto_binario adyacentes var valor o ov = false.
Proof.
  unfold es_consistente_con_parcial.
  rewrite elem_of_list_to_set, list_elem_of_fmap. split.
  - intros ([o' ov] & -> & [Hc Hin]%list_elem_of_filter).
    apply elem_of_map_to_list in Hin. by exists ov.
  - intros (ov & Ho & Hc). exists (o, ov). split; [done|].
    apply list_elem_of_filter. split; [done|]. by apply elem_of_map_to_list.
Qed.

(** The consistency tests of files 18 and 21 agree. *)
Lemma es_consistente_con_parcial_vacio asig var valor :
  size (es_consistente_con_parcial adyacentes asig var valor) = 0
  ↔ es_consistente_con_asignacion adyacentes asig var valor = true.
Proof.
  rewrite size_empty_iff, es_consistente_con_asignacion_true. split.
  - intros Hvacio o ov Ho.
    destruct (no_conflicto_binario adyacentes var valor o ov) eqn:Hc; [done|].
    exfalso. apply (proj1 (elem_of_equiv_empty _) Hvacio o).
    apply elem_of_es_consistente_con_parcial. by exists ov.
  - intros Hcons. apply elem_of_equiv_empty. intros o
      (ov & Ho & Hc)%elem_of_es_consistente_con_parcial.
    rewrite (Hcons o ov Ho) in Hc. done.
Qed.

(** The inner loop assigns a value only if it is one of the pending
    values and conflicts with nothing in the dictionary. *)
Lemma intentar_valores_asigna asig var cs i pendientes valor cs' i' :
  intentar_valores adyacentes asig var cs i pendientes
  = (Some valor, cs', i') →
  valor ∈ pendientes ∧
  es_consistente_con_asignacion adyacentes asig var valor = true.
Proof.
  revert cs i. induction pendientes as [|v resto IH]; intros cs i; simpl;
    [done|].
  destruct (decide (size (es_consistente_con_parcial adyacentes asig var v)
                    = 0)) as [Hv|Hv].
  - intros [= -> _ _]. split; [by left|].
    by apply es_consistente_con_parcial_vacio.
  - intros Hr. destruct (IH _ _ Hr). split; [by right|done].
Qed.

Lemma limpiar_asignacion_subseteq salto js e :
  asignacion_parcial (foldl (limpiar_uno orden_vars salto) e js)
  ⊆ asignacion_parcial e.
Proof.
  revert e. induction js as [|j js IH]; intros e; [done|]. simpl.
  etrans; [apply IH|]. unfold limpiar_uno.
  destruct (orden_vars !! j) as [var_j|]; [|done].
  destruct (decide (Z.of_nat j = salto)); simpl; apply delete_subseteq.
Qed.

Lemma limpiar_idx salto js e :
  idx_actual (foldl (limpiar_uno orden_vars salto) e js) = idx_actual e.
Proof.
  revert e. induction js as [|j js IH]; intros e; [done|]. simpl.
  rewrite IH. unfold limpiar_uno.
  destruct (orden_vars !! j) as [var_j|]; [|done].
  by destruct (decide (Z.of_nat j = salto)).
Qed.

Lemma saltar_asignacion_subseteq e var :
  asignacion_parcial (saltar orden_vars e var) ⊆ asignacion_parcial e.
Proof.
  unfold saltar, limpiar. simpl.
  etrans; [apply limpiar_asignacion_subseteq|]. done.
Qed.

Lemma asignacion_coherente_subseteq asig asig' :
  asig' ⊆ asig →
  asignacion_coherente adyacentes orden_vars dominios asig →
  asignacion_coherente adyacentes orden_vars dominios asig'.
Proof.
  intros Hsub Hco u x Hu.
  destruct (Hco u x) as (Hin & Hdom & Hdif); [by eapply lookup_weaken|].
  split; [done|]. split; [done|].
  intros v y Hv. apply Hdif. by eapply lookup_weaken.
Qed.

(** *** The jump index stays in range *)

Lemma index_of_lt v l i : index_of v l = Some i → i < length l.
Proof.
  revert i. induction l as [|x l IH]; intros i; simpl; [done|].
  destruct (decide (x = v)); [intros [= <-]; lia|].
  destruct (index_of v l) as [j|]; [|done].
  intros [= <-]. specialize (IH j eq_refl). lia.
Qed.

Lemma max_lista_lt l n :
  0 < n → Forall (λ i, i < n) l → max_lista l < n.
Proof.
  intros Hn. induction 1 as [|i l Hi _ IH]; simpl; [done|].
  fold (max_lista l). lia.
Qed.

Lemma indices_conflictivos_lt cs :
  Forall (λ i, i < length orden_vars) (indices_conflictivos orden_vars cs).
Proof.
  unfold indices_conflictivos. apply Forall_forall.
  intros i (v & _ & Hi)%list_elem_of_omap. by eapply index_of_lt.
Qed.

Lemma calcular_salto_rango idx cs :
  (0 ≤ idx < Z.of_nat (length orden_vars))%Z →
  (-1 ≤ calcular_salto orden_vars idx cs < Z.of_nat (length orden_vars))%Z.
Proof.
  intros Hidx. unfold calcular_salto.
  destruct (decide (size cs = 0)); [lia|].
  pose proof (indices_conflictivos_lt cs) as Hlt.
  destruct (indices_conflictivos orden_vars cs) as [|i l] eqn:Hl; [lia|].
  assert (max_lista (i :: l) < length orden_vars)
    by (apply max_lista_lt; [lia|done]).
  lia.
Qed.

Lemma saltar_idx e var :
  idx_actual (saltar orden_vars e var)
  = calcular_salto orden_vars (idx_actual e) (conflict_set e !!! var).
Proof. done. Qed.

End SaltoAtras.

Section SaltoAtrasCoherente.

Variable adyacentes : gmap string (list string).
Variable orden_vars : list string.
Variable dominios : gmap string (list string).

Hypothesis grafo_simetrico : simetrica adyacentes.
Hypothesis grafo_sin_lazos : sin_lazos adyacentes.

Local Abbreviation coherente :=
  (asignacion_coherente adyacentes orden_vars dominios).

Lemma asignacion_coherente_insert asig var dominio_var valor :
  coherente asig →
  var ∈ orden_vars → dominios !! var = Some dominio_var →
  valor ∈ dominio_var →
  es_consistente_con_asignacion adyacentes asig var valor = true →
  coherente (<[var := valor]> asig).
Proof.
  intros Hco Hvar Hdom Hval Hcons u x.
  rewrite es_consistente_con_asignacion_true in Hcons.
  destruct (decide (var = u)) as [<-|Hne].
  - rewrite lookup_insert_eq. intros [= <-].
    split; [done|]. split; [by eauto|].
    intros v y. destruct (decide (var = v)) as [<-|Hv].
    + intros _ Hlazo. by apply grafo_sin_lazos in Hlazo.
    + rewrite lookup_insert_ne by done. intros Hy Hvec.
      by apply (proj1 (no_conflicto_binario_true _ _ _ _ _) (Hcons v y Hy)).
  - rewrite lookup_insert_ne by done. intros Hx.
    destruct (Hco u x Hx) as (Hin & Hd & Hdif).
    split; [done|]. split; [done|].
    intros v y. destruct (decide (var = v)) as [<-|Hv].
    + rewrite lookup_insert_eq. intros [= <-] Hvec Heq. subst x.
      apply grafo_simetrico in Hvec.
      by apply (proj1 (no_conflicto_binario_true _ _ _ _ _) (Hcons u valor Hx)).
    + rewrite lookup_insert_ne by done. apply Hdif.
Qed.

Lemma paso_coherente e e' :
  coherente (asignacion_parcial e) →
  paso adyacentes orden_vars dominios e = Sigue e' →
  coherente (asignacion_parcial e').
Proof.
  intros Hco. unfold paso.
  destruct (decide (idx_actual e < 0)%Z); [done|].
  destruct (decide (idx_actual e = Z.of_nat (length orden_vars))); [done|].
  destruct (orden_vars !! Z.to_nat (idx_actual e)) as [var|] eqn:Hvar;
    [|done].
  destruct (dominios !! var) as [dom|] eqn:Hdom; [|done].
  destruct (intentar_valores adyacentes (asignacion_parcial e) var
              (conflict_set e !!! var) (intento_valor_idx e !!! var)
              (drop (intento_valor_idx e !!! var) dom))
    as [[[valor|] cs] intento] eqn:Hint.
  - intros [= <-]. simpl.
    apply intentar_valores_asigna in Hint as [Hin Hcons].
    apply (asignacion_coherente_insert _ _ dom); try done.
    + by eapply list_elem_of_lookup_2.
    + eapply list_elem_of_lookup_1 in Hin as [i Hi].
      rewrite lookup_drop in Hi. by eapply list_elem_of_lookup_2.
  - intros [= <-].
    eapply asignacion_coherente_subseteq; [|exact Hco].
    etrans; [apply saltar_asignacion_subseteq|]. done.
Qed.

Lemma bucle_coherente fuel e sol :
  coherente (asignacion_parcial e) →
  bucle adyacentes fuel orden_vars dominios e = Retorna (Some sol) →
  coherente sol.
Proof.
  revert e. induction fuel as [|fuel IH]; intros e Hco; simpl; [done|].
  destruct (paso adyacentes orden_vars dominios e) as [r| |e'] eqn:Hp.
  - intros [= ->]. unfold paso in Hp.
    destruct (decide (idx_actual e < 0)%Z); [done|].
    destruct (decide (idx_actual e = Z.of_nat (length orden_vars)));
      [by injection Hp as <-|].
    destruct (orden_vars !! Z.to_nat (idx_actual e)) as [var|]; [|done].
    destruct (dominios !! var) as [dom|]; [|done].
    by destruct (intentar_valores _ _ _ _ _ _) as [[[valor|] cs] intento].
  - done.
  - apply IH. by eapply paso_coherente.
Qed.

End SaltoAtrasCoherente.

Section SaltoAtrasRango.

Variable adyacentes : gmap string (list string).
Variable orden_vars : list string.
Variable dominios : gmap string (list string).

Hypothesis dominios_completos :
  ∀ v, v ∈ orden_vars → is_Some (dominios !! v).

Lemma paso_en_rango e :
  (-1 ≤ idx_actual e ≤ Z.of_nat (length orden_vars))%Z →
  match paso adyacentes orden_vars dominios e with
  | Lanza => False
  | Sigue e' => (-1 ≤ idx_actual e' ≤ Z.of_nat (length orden_vars))%Z
  | Termina _ => True
  end.
Proof.
  intros Hr. unfold paso.
  destruct (decide (idx_actual e < 0)%Z); [done|].
  destruct (decide (idx_actual e = Z.of_nat (length orden_vars))); [done|].
  destruct (lookup_lt_is_Some_2 orden_vars (Z.to_nat (idx_actual e)))
    as [var Hvar]; [lia|].
  rewrite Hvar.
  destruct (dominios_completos var) as [dom Hdom];
    [by eapply list_elem_of_lookup_2|].
  rewrite Hdom.
  destruct (intentar_valores _ _ _ _ _ _) as [[[valor|] cs] intento].
  - simpl. lia.
  - rewrite saltar_idx. simpl.
    pose proof (calcular_salto_rango orden_vars (idx_actual e)
                  (<[var:=cs]> (conflict_set e) !!! var)). lia.
Qed.

Lemma bucle_no_lanza fuel e :
  (-1 ≤ idx_actual e ≤ Z.of_nat (length orden_vars))%Z →
  bucle adyacentes fuel orden_vars dominios e ≠ Excepcion.
Proof.
  revert e. induction fuel as [|fuel IH]; intros e Hr; simpl; [done|].
  pose proof (paso_en_rango e Hr) as Hp.
  destruct (paso adyacentes orden_vars dominios e) as [r| |e']; try done.
  by apply IH.
Qed.

End SaltoAtrasRango.

(** X3: whatever dictionary [backjumping] returns, its keys are variables
    of the order, each has a value of its domain, and no two neighbours
    among its keys have the same value (on a symmetric graph without
    loops).  It need not have every variable as a key. *)
Theorem backjumping_devuelve_asignacion_sin_conflictos
    adyacentes orden_vars dominios fuel sol :
  simetrica adyacentes → sin_lazos adyacentes →
  backjumping adyacentes fuel orden_vars dominios = Retorna (Some sol) →
  asignacion_coherente adyacentes orden_vars dominios sol.
Proof.
  intros Hsim Hlazos. unfold backjumping.
  apply bucle_coherente; [done|done|].
  intros u x Hu. simpl in Hu. by rewrite lookup_empty in Hu.
Qed.

Lemma backjumping_devuelve_asignacion_sin_conflictos_witness :
  simetrica Australia.adyacentes ∧ sin_lazos Australia.adyacentes ∧
  backjumping Australia.adyacentes 8 Ejemplos.cuatro Ejemplos.dominios_cuatro
  = Retorna (Some Ejemplos.coloreo_incompleto) ∧
  asignacion_coherente Australia.adyacentes Ejemplos.cuatro
    Ejemplos.dominios_cuatro Ejemplos.coloreo_incompleto.
Proof.
  assert (H : backjumping Australia.adyacentes 8 Ejemplos.cuatro
                Ejemplos.dominios_cuatro
              = Retorna (Some Ejemplos.coloreo_incompleto)) by by vm_compute.
  split; [exact adyacentes_simetrica|]. split; [exact adyacentes_sin_lazos|].
  split; [exact H|].
  exact (backjumping_devuelve_asignacion_sin_conflictos
           Australia.adyacentes Ejemplos.cuatro Ejemplos.dominios_cuatro 8
           Ejemplos.coloreo_incompleto
           adyacentes_simetrica adyacentes_sin_lazos H).
Defined.

(** X4: [backjumping] raises no exception when every variable of the
    order has a domain: the index it jumps to is never below -1 and never
    past the end of the order, whatever the adjacency table. *)
Theorem backjumping_no_lanza adyacentes orden_vars dominios fuel :
  (∀ v, v ∈ orden_vars → is_Some (dominios !! v)) →
  backjumping adyacentes fuel orden_vars dominios ≠ Excepcion.
Proof.
  intros Hdoms. unfold backjumping. apply bucle_no_lanza; [done|].
  simpl. lia.
Qed.

Lemma backjumping_no_lanza_witness :
  (∀ v, v ∈ Australia.variables → is_Some (Australia.dominio_base !! v)) ∧
  backjumping Australia.adyacentes 8 Australia.variables
              Australia.dominio_base ≠ Excepcion.
Proof.
  split; [exact dominio_base_completo|].
  exact (backjumping_no_lanza Australia.adyacentes Australia.variables
           Australia.dominio_base 8 dominio_base_completo).
Defined.

(** ** File 20 on values: more on [revisar_arco_val] and [ac3_val] *)

Section Reducir.

Variable adyacentes : gmap string (list string).

Lemma reducido_refl d : reducido d d.
Proof. intros x. by destruct (d !! x). Qed.

Lemma reducido_trans d1 d2 d3 :
  reducido d1 d2 → reducido d2 d3 → reducido d1 d3.
Proof.
  intros H12 H23 x. specialize (H12 x). specialize (H23 x).
  destruct (d1 !! x), (d2 !! x), (d3 !! x); try done. by etrans.
Qed.

Lemma reducido_insert d xi dxi dxi' :
  d !! xi = Some dxi → dxi' `sublist_of` dxi →
  reducido d (<[xi := dxi']> d).
Proof.
  intros Hxi Hsub x. destruct (decide (xi = x)) as [<-|Hne].
  - by rewrite Hxi, lookup_insert_eq.
  - rewrite lookup_insert_ne by done. by destruct (d !! x).
Qed.

Lemma quitar_sublist v l l' : quitar v l = Some l' → l' `sublist_of` l.
Proof.
  revert l'. induction l as [|x l IH]; intros l'; simpl; [done|].
  destruct (decide (x = v)).
  - intros [= ->]. by constructor.
  - destruct (quitar v l) as [l0|]; [|done].
    intros [= <-]. constructor. by apply IH.
Qed.

Lemma revisar_valores_val_reducido xi xj pendientes c d c' d' :
  revisar_valores_val adyacentes xi xj pendientes c d = Retorna (c', d') →
  reducido d d'.
Proof.
  revert c d. induction pendientes as [|v resto IH]; intros c d; simpl.
  - intros [= _ <-]. apply reducido_refl.
  - destruct (d !! xj) as [dxj|]; [|done].
    destruct (existsb _ dxj); [by apply IH|].
    destruct (d !! xi) as [dxi|] eqn:Hxi; [|done].
    destruct (quitar v dxi) as [dxi'|] eqn:Hq; [|done].
    intros Hr. eapply reducido_trans; [|by eapply IH].
    eapply reducido_insert; [done|]. by eapply quitar_sublist.
Qed.

Lemma ac3_bucle_val_reducido fuel cola d b d' :
  ac3_bucle_val adyacentes fuel cola d = Retorna (b, d') → reducido d d'.
Proof.
  revert cola d. induction fuel as [|fuel IH]; intros cola d; simpl; [done|].
  destruct cola as [|[xi xj] resto].
  { intros [= _ <-]. apply reducido_refl. }
  destruct (d !! xi) as [antes|] eqn:Hantes; [|done].
  destruct (revisar_arco_val adyacentes xi xj d) as [| |[c d1]] eqn:Hrev;
    try done.
  assert (Hred : reducido d d1).
  { unfold revisar_arco_val in Hrev. rewrite Hantes in Hrev.
    by eapply revisar_valores_val_reducido. }
  destruct c.
  - destruct (d1 !! xi) as [despues|]; [|done].
    destruct (decide (length despues = 0)); [by intros [= _ <-]|].
    destruct (adyacentes !! xi); [|done].
    intros Hr. eapply reducido_trans; [done|by eapply IH].
  - intros Hr. eapply reducido_trans; [done|by eapply IH].
Qed.

End Reducir.

(** *** Propagation keeps every colouring *)

Section Conservar.

Variable adyacentes : gmap string (list string).
Variable variables : list string.
Variable sol : gmap string string.

Hypothesis variables_cerradas : cerrado adyacentes variables.

Lemma coloreo_valido_vecino_distinto d a b :
  coloreo_valido adyacentes variables d sol →
  a ∈ variables → b ∈ vecinos_de adyacentes a → a ≠ b.
Proof.
  intros [Hval Hdif] Ha Hb ->.
  destruct (Hval b Ha) as (x & dx & Hx & _).
  by apply (Hdif b b x x).
Qed.

(** The value a colouring gives to [xi] has a support in the domain of
    any other variable. *)
Lemma coloreo_valido_soportado d xi xj x dxj :
  coloreo_valido adyacentes variables d sol →
  xi ∈ variables → xj ∈ variables →
  sol !! xi = Some x → d !! xj = Some dxj →
  soportado adyacentes xi xj dxj x = true.
Proof.
  intros [Hval Hdif] Hxi Hxj Hx Hdxj.
  destruct (Hval xj Hxj) as (w & dxj' & Hw & Hdxj' & Hin).
  assert (dxj' = dxj) as -> by congruence.
  apply soportado_true. exists w. split; [done|].
  apply no_conflicto_binario_true. intros Hvec.
  by apply (Hdif xi xj x w).
Qed.

Lemma revisar_arco_val_conserva_coloreo xi xj d c d1 :
  coloreo_valido adyacentes variables d sol →
  xi ∈ variables → xj ∈ variables → xi ≠ xj →
  revisar_arco_val adyacentes xi xj d = Retorna (c, d1) →
  coloreo_valido adyacentes variables d1 sol.
Proof.
  intros Hsol Hxi Hxj Hne Hrev.
  destruct (revisar_arco_val_retorna _ _ _ _ _ _ Hne Hrev)
    as (dxi & Hdxi & [(_ & _ & ->)|(dxj & Hdxj & _ & ->)]); [done|].
  destruct Hsol as [Hval Hdif]. split; [|done].
  intros v Hv. destruct (Hval v Hv) as (x & dv & Hx & Hdv & Hin).
  destruct (decide (xi = v)) as [<-|Hv'].
  - exists x. eexists. split; [done|].
    split; [apply lookup_insert_eq|].
    apply list_elem_of_filter. split; [|congruence].
    by apply (coloreo_valido_soportado d xi xj).
  - exists x, dv. by rewrite lookup_insert_ne.
Qed.

Lemma ac3_bucle_val_conserva_coloreo fuel cola d b d' :
  coloreo_valido adyacentes variables d sol →
  (∀ a c, (a, c) ∈ cola → a ∈ variables ∧ c ∈ variables ∧ a ≠ c) →
  ac3_bucle_val adyacentes fuel cola d = Retorna (b, d') →
  b = true ∧ coloreo_valido adyacentes variables d' sol.
Proof.
  revert cola d. induction fuel as [|fuel IH]; intros cola d Hsol Hcola;
    simpl; [done|].
  destruct cola as [|[xi xj] resto].
  { by intros [= <- <-]. }
  destruct (Hcola xi xj) as (Hxi & Hxj & Hne); [by left|].
  assert (Hresto : ∀ a c, (a, c) ∈ resto →
                          a ∈ variables ∧ c ∈ variables ∧ a ≠ c).
  { intros a c Hac. apply Hcola. by right. }
  destruct (d !! xi) as [antes|] eqn:Hantes; [|done].
  destruct (revisar_arco_val adyacentes xi xj d) as [| |[c d1]] eqn:Hrev;
    try done.
  pose proof (revisar_arco_val_conserva_coloreo _ _ _ _ _ Hsol Hxi Hxj Hne Hrev)
    as Hsol1.
  destruct c; [|by apply IH].
  destruct (d1 !! xi) as [despues|] eqn:Hdesp; [|done].
  destruct (decide (length despues = 0)) as [Hvacio|_].
  { exfalso. apply nil_length_inv in Hvacio as ->.
    destruct (proj1 Hsol1 xi Hxi) as (x & dx & _ & Hdx & Hin).
    assert (dx = []) as -> by congruence. by apply elem_of_nil in Hin. }
  destruct (adyacentes !! xi) as [vs|] eqn:Hvs; [|done].
  apply IH; [done|].
  intros a c [Hac|(xk & [= -> ->] & [_ Hxk]%list_elem_of_filter)
                   %list_elem_of_fmap]%elem_of_app; [by auto|].
  assert (Hvec : xk ∈ vecinos_de adyacentes xi).
  { unfold vecinos_de. by rewrite Hvs. }
  split; [exact (variables_cerradas xi xk Hxi Hvec)|]. split; [done|].
  intros ->. by apply (coloreo_valido_vecino_distinto d xi xi Hsol Hxi).
Qed.

End Conservar.

Lemma australia_cerrado : cerrado Australia.adyacentes Australia.variables.
Proof.
  assert (H : map_Forall (λ _ vs, Forall (λ x, x ∈ Australia.variables) vs)
                         Australia.adyacentes) by decidir.
  intros v x _. unfold vecinos_de.
  destruct (Australia.adyacentes !! v) as [vs|] eqn:Hv; simpl.
  - intros Hx. specialize (H v vs Hv). rewrite Forall_forall in H.
    by apply H.
  - intros Hx. by apply elem_of_nil in Hx.
Qed.

(** ** File 19: forward checking keeps colourings *)

Section PodarConserva.

Variable adyacentes : gmap string (list string).
Variable variables : list string.
Variable sol : gmap string string.

Lemma compatibles_coloreo d var valor x w dx :
  coloreo_valido adyacentes variables d sol →
  var ∈ variables → x ∈ variables →
  sol !! var = Some valor → sol !! x = Some w → w ∈ dx →
  w ∈ compatibles adyacentes var valor x dx.
Proof.
  intros [_ Hdif] Hvar Hx Hvalor Hw Hin.
  apply list_elem_of_filter. split; [|done].
  apply no_conflicto_binario_true. intros Hvec.
  by apply (Hdif var x valor w).
Qed.

Lemma podar_dominios_conserva h dominios d asignacion var valor :
  coloreo_valido adyacentes variables d sol →
  h !! dominios = Some d →
  var ∈ variables → sol !! var = Some valor →
  is_Some (adyacentes !! var) →
  (∀ x, x ∈ vecinos_de adyacentes var → x ∉ dom asignacion →
        x ∈ variables) →
  ∃ h' nuevos d',
    podar_dominios adyacentes h dominios asignacion var valor
    = (h', Retorna (Some nuevos)) ∧
    h' !! nuevos = Some d' ∧
    coloreo_valido adyacentes variables d' sol.
Proof.
  intros Hsol Hd Hvar Hvalor Hady Hvec.
  assert (Hlazo : var ∉ vecinos_de adyacentes var).
  { intros Hin. destruct Hsol as [_ Hdif].
    by apply (Hdif var var valor valor). }
  pose proof (podar_dominios_spec adyacentes asignacion var valor h dominios
                d Hd Hlazo) as Hspec.
  destruct (podar_dominios adyacentes h dominios asignacion var valor)
    as [h' r].
  destruct Hspec as [_ Hr].
  destruct r as [| |[nuevos|]].
  - done.
  - exfalso. destruct Hr as [Hnone|(x & Hx & Hxl & Hnone)].
    + destruct Hady as [vs Hvs]. congruence.
    + destruct (proj1 Hsol x (Hvec x Hx Hxl)) as (w & dx & _ & Hdx & _).
      congruence.
  - destruct Hr as (_ & d' & Hd' & Hvar' & Hpod & _).
    exists h', nuevos, d'. split; [done|]. split; [done|].
    split; [|by destruct Hsol].
    intros v Hv. destruct (proj1 Hsol v Hv) as (w & dv & Hw & Hdv & Hin).
    destruct (decide (v = var)) as [->|Hne].
    + exists valor, [valor]. split; [done|]. split; [done|]. by left.
    + rewrite Hpod by done. unfold podado.
      destruct (decide _) as [[Hvv _]|_].
      * exists w. eexists. split; [done|]. rewrite Hdv. split; [done|].
        by apply (compatibles_coloreo d).
      * by exists w, dv.
  - exfalso. destruct Hr as (x & dx & Hx & Hxl & Hdx & Hvacio).
    destruct (proj1 Hsol x (Hvec x Hx Hxl)) as (w & dx' & Hw & Hdx' & Hin).
    assert (dx' = dx) as -> by congruence.
    pose proof (compatibles_coloreo d var valor x w dx Hsol Hvar
                  (Hvec x Hx Hxl) Hvalor Hw Hin) as Hc.
    rewrite Hvacio in Hc. by apply elem_of_nil in Hc.
Qed.

End PodarConserva.

(** X9: [podar_dominios] keeps every colouring that agrees with the
    assignment being made.  When some colouring of the variables takes its
    values in the domains and gives [var_actual] the value
    [valor_actual], the call raises nothing, does not return [None], and
    the colouring takes its values in the pruned domains as well.
    [var_actual] has an entry in the adjacency table and its unassigned
    neighbours are among the variables. *)
Theorem podar_dominios_conserva_coloreos
    adyacentes variables sol h dominios d asignacion var_actual valor_actual :
  coloreo_valido adyacentes variables d sol →
  h !! dominios = Some d →
  var_actual ∈ variables → sol !! var_actual = Some valor_actual →
  is_Some (adyacentes !! var_actual) →
  (∀ x, x ∈ vecinos_de adyacentes var_actual → x ∉ dom asignacion →
        x ∈ variables) →
  ∃ h' nuevos d',
    podar_dominios adyacentes h dominios asignacion var_actual valor_actual
    = (h', Retorna (Some nuevos)) ∧
    h' !! nuevos = Some d' ∧
    coloreo_valido adyacentes variables d' sol.
Proof. apply podar_dominios_conserva. Qed.

Lemma podar_dominios_conserva_coloreos_witness :
  coloreo_valido Australia.adyacentes Australia.variables
                 Australia.dominio_base Ejemplos.coloreo_backtracking ∧
  Ejemplos.almacen_base !! 0 = Some Australia.dominio_base ∧
  "WA" ∈ Australia.variables ∧
  Ejemplos.coloreo_backtracking !! "WA" = Some "ROJO" ∧
  is_Some (Australia.adyacentes !! "WA") ∧
  (∀ x, x ∈ vecinos_de Australia.adyacentes "WA" →
        x ∉ dom ({[ "WA" := "ROJO" ]} : gmap string string) →
        x ∈ Australia.variables) ∧
  ∃ h' nuevos d',
    podar_dominios Australia.adyacentes Ejemplos.almacen_base 0
                   {[ "WA" := "ROJO" ]} "WA" "ROJO"
    = (h', Retorna (Some nuevos)) ∧
    h' !! nuevos = Some d' ∧
    coloreo_valido Australia.adyacentes Australia.variables d'
                   Ejemplos.coloreo_backtracking.
Proof.
  assert (H1 : coloreo_valido Australia.adyacentes Australia.variables
                 Australia.dominio_base Ejemplos.coloreo_backtracking).
  { apply coloreo_valido_b_correcto. by vm_compute. }
  assert (H2 : Ejemplos.almacen_base !! 0 = Some Australia.dominio_base)
    by done.
  assert (H3 : "WA" ∈ Australia.variables) by decidir.
  assert (H4 : Ejemplos.coloreo_backtracking !! "WA" = Some "ROJO")
    by by vm_compute.
  assert (H5 : is_Some (Australia.adyacentes !! "WA"))
    by exact (adyacentes_completo "WA" H3).
  assert (H6 : ∀ x, x ∈ vecinos_de Australia.adyacentes "WA" →
                    x ∉ dom ({[ "WA" := "ROJO" ]} : gmap string string) →
                    x ∈ Australia.variables).
  { intros x Hx _. exact (australia_cerrado "WA" x H3 Hx). }
  split; [exact H1|]. split; [exact H2|]. split; [exact H3|].
  split; [exact H4|]. split; [exact H5|]. split; [exact H6|].
  exact (podar_dominios_conserva_coloreos
           Australia.adyacentes Australia.variables
           Ejemplos.coloreo_backtracking Ejemplos.almacen_base 0
           Australia.dominio_base {[ "WA" := "ROJO" ]} "WA" "ROJO"
           H1 H2 H3 H4 H5 H6).
Defined.

(** ** File 19: the search with forward checking *)

Section Marco.

Lemma marco_refl h : marco h h.
Proof. by intros l _. Qed.

Lemma marco_trans h1 h2 h3 : marco h1 h2 → marco h2 h3 → marco h1 h3.
Proof.
  intros H12 H23 l Hl. rewrite H23, H12; [done|done|].
  apply elem_of_dom. rewrite H12 by done. by apply elem_of_dom.
Qed.

Lemma marco_lookup h h' l d : marco h h' → h !! l = Some d → h' !! l = Some d.
Proof. intros Hm Hl. rewrite Hm; [done|]. apply elem_of_dom. by eauto. Qed.

End Marco.

Section ForwardChecking.

Variable adyacentes : gmap string (list string).
Variable orden_vars : list string.

Hypothesis orden_sin_repetidos : NoDup orden_vars.
Hypothesis grafo_sin_lazos : sin_lazos adyacentes.
Hypothesis orden_cerrado : cerrado adyacentes orden_vars.
Hypothesis orden_en_grafo : ∀ v, v ∈ orden_vars → is_Some (adyacentes !! v).

(** What [podar_dominios] does to the domains during the search. *)
Lemma podar_dominios_en_busqueda h l d asig var valor :
  h !! l = Some d →
  var ∈ orden_vars →
  (∀ v, v ∈ orden_vars → is_Some (d !! v)) →
  let '(h1, r) := podar_dominios adyacentes h l asig var valor in
  marco h h1 ∧
  match r with
  | Retorna (Some nuevos) =>
      ∃ d', h1 !! nuevos = Some d' ∧
            (∀ v, v ∈ orden_vars → is_Some (d' !! v)) ∧
            (∀ u dv' x, u ≠ var → d' !! u = Some dv' → x ∈ dv' →
                        ∃ dv, d !! u = Some dv ∧ x ∈ dv)
  | Retorna None =>
      ∃ x dx, x ∈ vecinos_de adyacentes var ∧ x ∈ orden_vars ∧
              (x ∉ dom asig) ∧ d !! x = Some dx ∧
              compatibles adyacentes var valor x dx = []
  | _ => False
  end.
Proof.
  intros Hl Hvar Hdoms.
  pose proof (podar_dominios_spec adyacentes asig var valor h l d Hl
                (grafo_sin_lazos var)) as Hspec.
  destruct (podar_dominios adyacentes h l asig var valor) as [h1 r].
  destruct Hspec as [Hmarco Hr]. split; [done|].
  destruct r as [| |[nuevos|]].
  - done.
  - destruct Hr as [Hnone|(x & Hx & Hxl & Hnone)].
    + destruct (orden_en_grafo var Hvar). congruence.
    + destruct (Hdoms x (orden_cerrado var x Hvar Hx)). congruence.
  - destruct Hr as (_ & d' & Hd' & Hvar' & Hpod & _).
    exists d'. split; [done|]. split.
    + intros v Hv. destruct (decide (v = var)) as [->|Hne]; [by eauto|].
      rewrite Hpod by done. unfold podado.
      destruct (Hdoms v Hv) as [dv ->]. by destruct (decide _).
    + intros u dv' x Hne Hu Hx. rewrite Hpod in Hu by done.
      unfold podado in Hu. destruct (decide _); [|by eauto].
      destruct (d !! u) as [dv|]; [|done]. injection Hu as <-.
      exists dv. split; [done|].
      by apply (compatibles_subseteq adyacentes var valor u dv).
  - destruct Hr as (x & dx & Hx & Hxl & Hdx & Hvacio).
    exists x, dx. split; [done|]. split; [by eapply orden_cerrado|]. done.
Qed.

Lemma solucion_desde_dominios d d' asig sol :
  (∀ i u dv' x, size asig ≤ i → orden_vars !! i = Some u →
                d' !! u = Some dv' → x ∈ dv' →
                ∃ dv, d !! u = Some dv ∧ x ∈ dv) →
  solucion_desde adyacentes orden_vars d' asig sol →
  solucion_desde adyacentes orden_vars d asig sol.
Proof.
  intros Hmono (Hsub & Hp & Hsz & Hsol).
  split; [done|]. split; [done|]. split; [done|].
  intros i u x Hi Hu Hx. destruct (Hsol i u x Hi Hu Hx) as [(dv' & Hdv' & Hin) Hc].
  split; [|done]. by apply (Hmono i u dv' x).
Qed.

Lemma probar_valores_fc_correcto fuel rec l d asig var dom valores :
  (∀ h1 a l1 d1,
     h1 !! l1 = Some d1 → prefijo orden_vars a → size a = S (size asig) →
     (∀ v, v ∈ orden_vars → is_Some (d1 !! v)) →
     let '(h', r) := rec h1 a l1 in
     marco h1 h' ∧ resultado_fc adyacentes orden_vars fuel d1 a r) →
  prefijo orden_vars asig →
  orden_vars !! size asig = Some var →
  (∀ v, v ∈ orden_vars → is_Some (d !! v)) →
  d !! var = Some dom → valores ⊆ dom →
  ∀ h0, h0 !! l = Some d →
    let '(h', r) := probar_valores_fc adyacentes rec h0 asig l var valores in
    marco h0 h' ∧
    match r with
    | SinCombustible => S fuel + size asig ≤ length orden_vars
    | Excepcion => False
    | Retorna (Some sol) => solucion_desde adyacentes orden_vars d asig sol
    | Retorna None =>
        ∀ sol x, coloreo_valido adyacentes orden_vars d sol → asig ⊆ sol →
                 sol !! var = Some x → x ∉ valores
    end.
Proof.
  intros Hrec Hp Hvar Hdoms Hdom.
  pose proof (list_elem_of_lookup_2 _ _ _ Hvar) as Hvar_in.
  pose proof (prefijo_siguiente_libre _ orden_sin_repetidos _ _ Hp Hvar)
    as Hlibre.
  induction valores as [|valor resto IH]; intros Hsub h0 Hl; simpl.
  { split; [apply marco_refl|]. intros sol x _ _ _ Hx.
    by apply elem_of_nil in Hx. }
  assert (Hresto : resto ⊆ dom) by set_solver.
  assert (Hvalor : valor ∈ dom) by set_solver.
  unfold es_consistente_parcial.
  destruct (es_consistente_con_asignacion adyacentes asig var valor) eqn:Hc.
  2:{ specialize (IH Hresto h0 Hl).
      destruct (probar_valores_fc adyacentes rec h0 asig l var resto)
        as [h' r].
      destruct IH as [Hm Hr]. split; [done|].
      destruct r as [| |[sol|]]; try done.
      intros sol x Hsol Hsub' Hx [->|Hin]%elem_of_cons; [|by eapply Hr].
      rewrite (coloreo_valido_consistente adyacentes orden_vars d
                 sol asig var valor) in Hc; done. }
  destruct (prefijo_insert _ orden_sin_repetidos _ _ valor Hp Hvar)
    as [Hp1 Hsz1].
  pose proof (podar_dominios_en_busqueda h0 l d (<[var:=valor]> asig) var
                valor Hl Hvar_in Hdoms) as Hpodar.
  assert (Hconserva : ∀ sol,
            coloreo_valido adyacentes orden_vars d sol →
            sol !! var = Some valor →
            ∃ h' nuevos d',
              podar_dominios adyacentes h0 l (<[var:=valor]> asig) var valor
              = (h', Retorna (Some nuevos)) ∧
              h' !! nuevos = Some d' ∧
              coloreo_valido adyacentes orden_vars d' sol).
  { intros sol Hsol Hx.
    apply (podar_dominios_conserva adyacentes orden_vars sol h0 l d);
      try done; [by apply orden_en_grafo|].
    intros x Hxv _. by eapply orden_cerrado. }
  destruct (podar_dominios adyacentes h0 l (<[var:=valor]> asig) var valor)
    as [h1 r1] eqn:Hpod.
  destruct Hpodar as [Hm1 Hr1].
  destruct r1 as [| |[nuevos|]]; [done|done| |].
  - destruct Hr1 as (d' & Hd' & Hdoms' & Hmono).
    specialize (Hrec h1 (<[var:=valor]> asig) nuevos d' Hd' Hp1 Hsz1 Hdoms').
    destruct (rec h1 (<[var:=valor]> asig) nuevos) as [h2 r2].
    destruct Hrec as [Hm2 Hr2].
    pose proof (marco_trans _ _ _ Hm1 Hm2) as Hm02.
    destruct r2 as [| |[sol|]]; simpl in Hr2.
    + split; [done|]. rewrite Hsz1 in Hr2. lia.
    + done.
    + split; [done|].
      apply (solucion_desde_insert adyacentes orden_vars d
               orden_sin_repetidos asig var valor dom sol); try done.
      apply (solucion_desde_dominios d d'); [|done].
      intros i u dv' x Hi Hu. apply Hmono. intros ->.
      pose proof (NoDup_lookup _ _ _ _ orden_sin_repetidos Hu Hvar). lia.
    + specialize (IH Hresto h2 (marco_lookup _ _ _ _ Hm02 Hl)).
      destruct (probar_valores_fc adyacentes rec h2 asig l var resto)
        as [h' r].
      destruct IH as [Hm Hr]. split; [by eapply marco_trans|].
      destruct r as [| |[sol|]]; try done.
      intros sol x Hsol Hsub' Hx [->|Hin]%elem_of_cons; [|by eapply Hr].
      destruct (Hconserva sol Hsol Hx) as (h'' & n'' & d'' & Heq & Hd'' & Hv).
      injection Heq as <- <-.
      assert (d'' = d') as -> by congruence.
      apply (Hr2 sol Hv). by apply insert_subseteq_l.
  - specialize (IH Hresto h1 (marco_lookup _ _ _ _ Hm1 Hl)).
    destruct (probar_valores_fc adyacentes rec h1 asig l var resto)
      as [h' r].
    destruct IH as [Hm Hr]. split; [by eapply marco_trans|].
    destruct r as [| |[sol|]]; try done.
    intros sol x Hsol Hsub' Hx [->|Hin]%elem_of_cons; [|by eapply Hr].
    by destruct (Hconserva sol Hsol Hx) as (h'' & n'' & d'' & Heq & _).
Qed.

Lemma forward_checking_correcto fuel :
  ∀ h asig l d,
    h !! l = Some d → prefijo orden_vars asig →
    (∀ v, v ∈ orden_vars → is_Some (d !! v)) →
    let '(h', r) := forward_checking adyacentes fuel h asig orden_vars l in
    marco h h' ∧ resultado_fc adyacentes orden_vars fuel d asig r.
Proof.
  induction fuel as [|fuel IH]; intros h asig l d Hl Hp Hdoms; simpl.
  { split; [apply marco_refl|]. destruct Hp as [Hle _]. simpl. lia. }
  destruct (decide (size asig = length orden_vars)) as [Heq|Hne].
  { split; [apply marco_refl|]. simpl.
    repeat split; try done; try apply Hp.
    all: apply lookup_lt_Some in H0; lia. }
  destruct Hp as [Hle Hpre].
  destruct (lookup_lt_is_Some_2 orden_vars (size asig)) as [var Hvar]; [lia|].
  rewrite Hvar, Hl.
  destruct (Hdoms var) as [dom Hdom]; [by eapply list_elem_of_lookup_2|].
  rewrite Hdom.
  pose proof (probar_valores_fc_correcto fuel
                (λ h' a l', forward_checking adyacentes fuel h' a orden_vars l')
                l d asig var dom dom) as Hloop.
  simpl in Hloop.
  specialize (Hloop (λ h1 a l1 d1 H1 H2 _ H3, IH h1 a l1 d1 H1 H2 H3)
                (conj Hle Hpre) Hvar Hdoms Hdom (reflexivity _) h Hl).
  destruct (probar_valores_fc adyacentes _ h asig l var dom) as [h' r].
  destruct Hloop as [Hm Hr]. split; [done|].
  destruct r as [| |[sol|]]; simpl; try done.
  intros sol Hsol Hsub.
  destruct (proj1 Hsol var) as (x & dv & Hx & Hdv & Hin);
    [by eapply list_elem_of_lookup_2|].
  assert (dv = dom) as -> by congruence.
  by apply (Hr sol x).
Qed.

End ForwardChecking.

Section SolucionDesdeVacio.

Variable adyacentes : gmap string (list string).
Variable orden_vars : list string.
Variable d : gmap string (list string).

(** A solution built from the empty dictionary is a colouring. *)
Lemma solucion_desde_vacio_coloreo sol :
  simetrica adyacentes → sin_lazos adyacentes →
  solucion_desde adyacentes orden_vars d ∅ sol →
  coloreo_valido adyacentes orden_vars d sol ∧
  (∀ v, is_Some (sol !! v) ↔ v ∈ orden_vars) ∧
  size sol = length orden_vars.
Proof.
  intros Hsim Hlazos (_ & [_ Hpre] & Hsz & Hsol).
  assert (Hkeys : ∀ v, is_Some (sol !! v) ↔ v ∈ orden_vars).
  { intros v. rewrite Hpre, list_elem_of_lookup, Hsz. split.
    - intros (i & _ & Hi). by exists i.
    - intros (i & Hi). exists i. split; [by eapply lookup_lt_Some|done]. }
  split; [|by split]. split.
  - intros v [i Hi]%list_elem_of_lookup_1.
    destruct (proj2 (Hkeys v)) as [x Hx]; [by eapply list_elem_of_lookup_2|].
    destruct (Hsol i v x) as [(dv & Hdv & Hin) _];
      [rewrite map_size_empty; lia|done..|].
    by exists x, dv.
  - intros u v x y [i Hi]%list_elem_of_lookup_1 [j Hj]%list_elem_of_lookup_1
      Hx Hy Hvec.
    destruct (Hsol i u x) as [_ Hu]; [rewrite map_size_empty; lia|done..|].
    destruct (Hsol j v y) as [_ Hv]; [rewrite map_size_empty; lia|done..|].
    destruct (lt_eq_lt_dec i j) as [[Hlt|Heq]|Hgt].
    + specialize (Hv i u x Hlt Hi Hx).
      apply no_conflicto_binario_true in Hv; [congruence|by apply Hsim].
    + subst j. assert (u = v) as -> by congruence.
      by apply Hlazos in Hvec.
    + specialize (Hu j v y Hgt Hj Hy).
      by apply no_conflicto_binario_true in Hu.
Qed.

End SolucionDesdeVacio.

(** *** [forward_checking] never writes to a dictionary of its caller *)

Section MarcoFC.

Variable adyacentes : gmap string (list string).

Lemma podar_vecinos_marco nuevos asig var valor vs h :
  ∀ l, l ≠ nuevos →
       (podar_vecinos adyacentes h nuevos asig var valor vs).1 !! l
       = h !! l.
Proof.
  revert h. induction vs as [|vecino resto IH]; intros h l Hl; simpl; [done|].
  destruct (decide (vecino ∈ dom asig)); [by apply IH|].
  destruct (h !! nuevos) as [dn|]; [|done].
  destruct (dn !! vecino) as [dv|]; [|done].
  destruct (decide (length _ = 0)); [done|].
  rewrite IH by done. by rewrite lookup_insert_ne.
Qed.

Lemma podar_dominios_marco h dominios asig var valor :
  marco h (podar_dominios adyacentes h dominios asig var valor).1.
Proof.
  unfold podar_dominios, deepcopy.
  destruct (h !! dominios) as [d|]; [|apply marco_refl].
  set (nuevos := fresh (dom h)).
  assert (Hfresh : nuevos ∉ dom h) by apply is_fresh.
  assert (Hbase : marco h (<[nuevos := <[var := [valor]]> d]>
                             (<[nuevos := d]> h))).
  { intros l Hl. rewrite !lookup_insert_ne; [done| |]; by intros <-. }
  destruct (adyacentes !! var) as [vs|]; [|done].
  pose proof (podar_vecinos_marco nuevos asig var valor vs
                (<[nuevos := <[var := [valor]]> d]> (<[nuevos := d]> h)))
    as Hm.
  destruct (podar_vecinos adyacentes _ nuevos asig var valor vs) as [h3 r].
  assert (marco h h3).
  { intros l Hl. simpl in Hm. rewrite Hm; [by apply Hbase|].
    by intros ->. }
  by destruct r as [| |[]].
Qed.

Lemma probar_valores_fc_marco rec asig l var valores :
  (∀ h a l', marco h (rec h a l').1) →
  ∀ h, marco h (probar_valores_fc adyacentes rec h asig l var valores).1.
Proof.
  intros Hrec. induction valores as [|valor resto IH]; intros h; simpl;
    [apply marco_refl|].
  destruct (es_consistente_parcial adyacentes asig var valor); [|apply IH].
  pose proof (podar_dominios_marco h l (<[var:=valor]> asig) var valor) as Hm1.
  destruct (podar_dominios adyacentes h l (<[var:=valor]> asig) var valor)
    as [h1 r1]. simpl in Hm1.
  destruct r1 as [| |[nuevos|]]; try done.
  - pose proof (Hrec h1 (<[var:=valor]> asig) nuevos) as Hm2.
    destruct (rec h1 (<[var:=valor]> asig) nuevos) as [h2 r2]. simpl in Hm2.
    pose proof (marco_trans _ _ _ Hm1 Hm2).
    destruct r2 as [| |[sol|]]; try done.
    eapply marco_trans; [done|apply IH].
  - eapply marco_trans; [done|apply IH].
Qed.

Lemma forward_checking_marco fuel h asig orden_vars l :
  marco h (forward_checking adyacentes fuel h asig orden_vars l).1.
Proof.
  revert h asig l. induction fuel as [|fuel IH]; intros h asig l; simpl;
    [apply marco_refl|].
  destruct (decide _); [apply marco_refl|].
  destruct (orden_vars !! size asig) as [var|]; [|apply marco_refl].
  destruct (h !! l) as [d|]; [|apply marco_refl].
  destruct (d !! var) as [dom|]; [|apply marco_refl].
  apply probar_valores_fc_marco. intros h' a l'. apply IH.
Qed.

End MarcoFC.


Section ForwardCheckingVacio.

Variable adyacentes : gmap string (list string).
Variable orden_vars : list string.

Hypothesis orden_sin_repetidos : NoDup orden_vars.
Hypothesis grafo_sin_lazos : sin_lazos adyacentes.
Hypothesis orden_cerrado : cerrado adyacentes orden_vars.
Hypothesis orden_en_grafo : ∀ v, v ∈ orden_vars → is_Some (adyacentes !! v).

Lemma forward_checking_valido fuel h l d h' sol :
  simetrica adyacentes →
  h !! l = Some d →
  (∀ v, v ∈ orden_vars → is_Some (d !! v)) →
  forward_checking adyacentes fuel h ∅ orden_vars l
  = (h', Retorna (Some sol)) →
  coloreo_valido adyacentes orden_vars d sol ∧
  (∀ v, is_Some (sol !! v) ↔ v ∈ orden_vars) ∧
  size sol = length orden_vars.
Proof.
  intros Hsim Hl Hdoms Hr.
  pose proof (forward_checking_correcto adyacentes orden_vars
                orden_sin_repetidos grafo_sin_lazos orden_cerrado
                orden_en_grafo fuel h ∅ l d Hl (prefijo_vacio orden_vars)
                Hdoms) as Hok.
  rewrite Hr in Hok. destruct Hok as [_ Hok]. simpl in Hok.
  by apply solucion_desde_vacio_coloreo.
Qed.

Lemma forward_checking_completo fuel h l d sol :
  h !! l = Some d →
  (∀ v, v ∈ orden_vars → is_Some (d !! v)) →
  coloreo_valido adyacentes orden_vars d sol →
  length orden_vars < fuel →
  ∃ h' sol', forward_checking adyacentes fuel h ∅ orden_vars l
             = (h', Retorna (Some sol')).
Proof.
  intros Hl Hdoms Hsol Hfuel.
  pose proof (forward_checking_correcto adyacentes orden_vars
                orden_sin_repetidos grafo_sin_lazos orden_cerrado
                orden_en_grafo fuel h ∅ l d Hl (prefijo_vacio orden_vars)
                Hdoms) as Hok.
  destruct (forward_checking adyacentes fuel h ∅ orden_vars l) as [h' r].
  destruct Hok as [_ Hok]. destruct r as [| |[sol'|]]; simpl in Hok.
  - rewrite map_size_empty in Hok. lia.
  - done.
  - by exists h', sol'.
  - destruct (Hok sol Hsol). apply map_empty_subseteq.
Qed.

End ForwardCheckingVacio.


(** X10: a dictionary that [forward_checking], called on the empty
    dictionary, returns has exactly the variables of the order as keys,
    gives each a value of its domain in the dictionary of domains the call
    received, and gives neighbours different values.  The graph is
    symmetric and has no loops, the order has no repeated variable and
    holds the neighbours of its variables, and every variable of it has an
    adjacency entry and a domain. *)
Theorem forward_checking_devuelve_coloreo_valido
    adyacentes orden_vars fuel h dominios d sol :
  simetrica adyacentes → sin_lazos adyacentes →
  NoDup orden_vars → cerrado adyacentes orden_vars →
  (∀ v, v ∈ orden_vars → is_Some (adyacentes !! v)) →
  h !! dominios = Some d →
  (∀ v, v ∈ orden_vars → is_Some (d !! v)) →
  (forward_checking adyacentes fuel h ∅ orden_vars dominios).2
  = Retorna (Some sol) →
  coloreo_valido adyacentes orden_vars d sol ∧
  (∀ v, is_Some (sol !! v) ↔ v ∈ orden_vars) ∧
  size sol = length orden_vars.
Proof.
  intros Hsim Hlazos Hnd Hcerr Hady Hl Hdoms Hr.
  destruct (forward_checking adyacentes fuel h ∅ orden_vars dominios)
    as [h' r] eqn:Hfc. simpl in Hr. subst r.
  by eapply forward_checking_valido.
Qed.

Lemma forward_checking_devuelve_coloreo_valido_witness :
  simetrica Australia.adyacentes ∧ sin_lazos Australia.adyacentes ∧
  NoDup Australia.variables ∧
  cerrado Australia.adyacentes Australia.variables ∧
  (∀ v, v ∈ Australia.variables → is_Some (Australia.adyacentes !! v)) ∧
  Ejemplos.almacen_base !! 0 = Some Australia.dominio_base ∧
  (∀ v, v ∈ Australia.variables → is_Some (Australia.dominio_base !! v)) ∧
  (forward_checking Australia.adyacentes 8 Ejemplos.almacen_base ∅
                    Australia.variables 0).2
  = Retorna (Some Ejemplos.coloreo_backtracking) ∧
  coloreo_valido Australia.adyacentes Australia.variables
                 Australia.dominio_base Ejemplos.coloreo_backtracking.
Proof.
  assert (H3 : NoDup Australia.variables) by decidir.
  assert (H6 : Ejemplos.almacen_base !! 0 = Some Australia.dominio_base)
    by done.
  assert (H8 : (forward_checking Australia.adyacentes 8 Ejemplos.almacen_base
                  ∅ Australia.variables 0).2
               = Retorna (Some Ejemplos.coloreo_backtracking))
    by by vm_compute.
  split; [exact adyacentes_simetrica|]. split; [exact adyacentes_sin_lazos|].
  split; [exact H3|]. split; [exact australia_cerrado|].
  split; [exact adyacentes_completo|]. split; [exact H6|].
  split; [exact dominio_base_completo|]. split; [exact H8|].
  exact (proj1 (forward_checking_devuelve_coloreo_valido
                  Australia.adyacentes Australia.variables 8
                  Ejemplos.almacen_base 0 Australia.dominio_base
                  Ejemplos.coloreo_backtracking
                  adyacentes_simetrica adyacentes_sin_lazos H3
                  australia_cerrado adyacentes_completo H6
                  dominio_base_completo H8)).
Defined.

(** X11: [forward_checking] is complete.  When the variables of the order
    have a colouring with values in the domains, the call on the empty
    dictionary returns a dictionary (never [None], no exception), given
    more fuel than there are variables.  The graph has no loops, the order
    has no repeated variable and holds the neighbours of its variables, and
    every variable of it has an adjacency entry and a domain. *)
Theorem forward_checking_encuentra_solucion_si_existe
    adyacentes orden_vars fuel h dominios d sol :
  sin_lazos adyacentes →
  NoDup orden_vars → cerrado adyacentes orden_vars →
  (∀ v, v ∈ orden_vars → is_Some (adyacentes !! v)) →
  h !! dominios = Some d →
  (∀ v, v ∈ orden_vars → is_Some (d !! v)) →
  coloreo_valido adyacentes orden_vars d sol →
  length orden_vars < fuel →
  ∃ sol', (forward_checking adyacentes fuel h ∅ orden_vars dominios).2
          = Retorna (Some sol').
Proof.
  intros Hlazos Hnd Hcerr Hady Hl Hdoms Hsol Hfuel.
  destruct (forward_checking_completo adyacentes orden_vars Hnd Hlazos Hcerr
              Hady fuel h dominios d sol Hl Hdoms Hsol Hfuel)
    as (h' & sol' & Hr).
  exists sol'. by rewrite Hr.
Qed.

Lemma forward_checking_encuentra_solucion_si_existe_witness :
  sin_lazos Australia.adyacentes ∧
  NoDup Australia.variables ∧
  cerrado Australia.adyacentes Australia.variables ∧
  (∀ v, v ∈ Australia.variables → is_Some (Australia.adyacentes !! v)) ∧
  Ejemplos.almacen_base !! 0 = Some Australia.dominio_base ∧
  (∀ v, v ∈ Australia.variables → is_Some (Australia.dominio_base !! v)) ∧
  coloreo_valido Australia.adyacentes Australia.variables
                 Australia.dominio_base Ejemplos.coloreo_australia ∧
  length Australia.variables < 8 ∧
  ∃ sol', (forward_checking Australia.adyacentes 8 Ejemplos.almacen_base ∅
                            Australia.variables 0).2
          = Retorna (Some sol').
Proof.
  assert (H2 : NoDup Australia.variables) by decidir.
  assert (H5 : Ejemplos.almacen_base !! 0 = Some Australia.dominio_base)
    by done.
  assert (H7 : coloreo_valido Australia.adyacentes Australia.variables
                 Australia.dominio_base Ejemplos.coloreo_australia).
  { apply coloreo_valido_b_correcto. by vm_compute. }
  assert (H8 : length Australia.variables < 8) by (simpl; lia).
  split; [exact adyacentes_sin_lazos|]. split; [exact H2|].
  split; [exact australia_cerrado|]. split; [exact adyacentes_completo|].
  split; [exact H5|]. split; [exact dominio_base_completo|].
  split; [exact H7|]. split; [exact H8|].
  exact (forward_checking_encuentra_solucion_si_existe
           Australia.adyacentes Australia.variables 8 Ejemplos.almacen_base
           0 Australia.dominio_base Ejemplos.coloreo_australia
           adyacentes_sin_lazos H2 australia_cerrado adyacentes_completo
           H5 dominio_base_completo H7 H8).
Defined.

(** X12: [forward_checking] never writes to a dictionary of domains that
    existed before the call: whatever the arguments and the outcome, every
    dictionary of the store, that of the caller included, holds after the
    call what it held before.  All pruning is done on fresh copies. *)
Theorem forward_checking_no_modifica_dominios
    adyacentes fuel h asignacion orden_vars dominios l d :
  h !! l = Some d →
  (forward_checking adyacentes fuel h asignacion orden_vars dominios).1 !! l
  = Some d.
Proof.
  intros Hl.
  rewrite (forward_checking_marco adyacentes fuel h asignacion orden_vars
             dominios l); [done|].
  by apply elem_of_dom.
Qed.

Lemma forward_checking_no_modifica_dominios_witness :
  Ejemplos.almacen_base !! 0 = Some Australia.dominio_base ∧
  (forward_checking Australia.adyacentes 8 Ejemplos.almacen_base ∅
                    Australia.variables 0).1 !! 0
  = Some Australia.dominio_base.
Proof.
  assert (H1 : Ejemplos.almacen_base !! 0 = Some Australia.dominio_base)
    by done.
  split; [exact H1|].
  exact (forward_checking_no_modifica_dominios
           Australia.adyacentes 8 Ejemplos.almacen_base ∅
           Australia.variables 0 0 Australia.dominio_base H1).
Defined.

(** ** File 20 on values: the search with forward checking and AC-3 *)

Section Propagacion.

Variable adyacentes : gmap string (list string).
Variable variables orden_vars : list string.
Variable pasos_ac3 : nat.

Hypothesis orden_sin_repetidos : NoDup orden_vars.
Hypothesis grafo_sin_lazos : sin_lazos adyacentes.
Hypothesis orden_cerrado : cerrado adyacentes orden_vars.
Hypothesis orden_en_grafo : ∀ v, v ∈ orden_vars → is_Some (adyacentes !! v).
Hypothesis mismas_variables : ∀ v, v ∈ variables ↔ v ∈ orden_vars.

Lemma total_valores_reducido d :
  ∀ d', reducido d d' → total_valores d' ≤ total_valores d.
Proof.
  induction d as [|i a m Hi IH] using map_ind; intros d' Hred.
  - assert (d' = ∅) as ->; [|done].
    apply map_eq. intros x. specialize (Hred x).
    rewrite lookup_empty in *. by destruct (d' !! x).
  - pose proof (Hred i) as Hi'. rewrite lookup_insert_eq in Hi'.
    destruct (d' !! i) as [b|] eqn:Hb; [|done].
    apply sublist_length in Hi'.
    assert (Hresto : reducido m (delete i d')).
    { intros x. destruct (decide (x = i)) as [->|Hne].
      - by rewrite Hi, lookup_delete_eq.
      - specialize (Hred x). rewrite lookup_insert_ne in Hred by done.
        by rewrite lookup_delete_ne. }
    specialize (IH _ Hresto).
    rewrite <- (insert_delete_id d' i b Hb).
    unfold total_valores in *.
    rewrite !map_fold_insert_L; try done; try (by apply lookup_delete_eq);
      try lia.
    all: intros; lia.
Qed.

Lemma grado_max_cota xi vs :
  adyacentes !! xi = Some vs → length vs ≤ grado_max adyacentes.
Proof.
  intros Hxi. unfold grado_max.
  rewrite <- (insert_delete_id adyacentes xi vs Hxi).
  rewrite map_fold_insert_L; [lia|intros; lia|apply lookup_delete_eq].
Qed.

Lemma cota_ac3_reducido d d' :
  reducido d d' →
  cota_ac3 adyacentes variables d' ≤ cota_ac3 adyacentes variables d.
Proof.
  intros Hred%total_valores_reducido. unfold cota_ac3. nia.
Qed.

Lemma reducido_elem d d' u dv' x :
  reducido d d' → d' !! u = Some dv' → x ∈ dv' →
  ∃ dv, d !! u = Some dv ∧ x ∈ dv.
Proof.
  intros Hred Hu Hx. specialize (Hred u). rewrite Hu in Hred.
  destruct (d !! u) as [dv|]; [|done].
  exists dv. split; [done|]. by apply (sublist_subseteq _ _ Hred).
Qed.

Lemma reducido_is_Some d d' v :
  reducido d d' → is_Some (d !! v) → is_Some (d' !! v).
Proof.
  intros Hred [dv Hv]. specialize (Hred v). rewrite Hv in Hred.
  destruct (d' !! v); [by eauto|done].
Qed.

Lemma arcos_iniciales_total vars :
  (∀ v, v ∈ vars → is_Some (adyacentes !! v)) →
  ∃ cola, arcos_iniciales adyacentes vars = Some cola ∧
          length cola ≤ length vars * grado_max adyacentes.
Proof.
  induction vars as [|x vars IH]; intros Hv; simpl; [by exists []|].
  destruct (Hv x) as [vs Hvs]; [by left|]. rewrite Hvs.
  destruct IH as (cola & -> & Hlen); [intros v ?; apply Hv; by right|].
  eexists. split; [done|]. rewrite length_app, length_fmap.
  pose proof (grado_max_cota x vs Hvs). lia.
Qed.

Lemma revisar_arco_val_explicito xi xj d dxi dxj :
  xi ≠ xj → d !! xi = Some dxi → d !! xj = Some dxj →
  revisar_arco_val adyacentes xi xj d
  = Retorna
      (negb (forallb (soportado adyacentes xi xj dxj) dxi),
       <[xi := filter (λ v, soportado adyacentes xi xj dxj v = true) dxi]> d).
Proof.
  intros Hne Hxi Hxj. unfold revisar_arco_val. rewrite Hxi.
  rewrite (revisar_valores_val_filtra adyacentes xi xj dxj dxi Hne [] false d);
    [done|done|done|].
  intros v Hv. by apply elem_of_nil in Hv.
Qed.

(** On arcs between variables that have a domain, the loop of [ac3_val]
    raises nothing. *)
Lemma ac3_bucle_val_no_lanza fuel :
  ∀ cola d,
    (∀ a c, (a, c) ∈ cola → a ∈ orden_vars ∧ c ∈ orden_vars ∧ a ≠ c) →
    (∀ v, v ∈ orden_vars → is_Some (d !! v)) →
    ac3_bucle_val adyacentes fuel cola d ≠ Excepcion.
Proof.
  induction fuel as [|fuel IH]; intros cola d Hcola Hdoms; simpl; [done|].
  destruct cola as [|[xi xj] resto]; [done|].
  destruct (Hcola xi xj) as (Hxi & Hxj & Hne); [by left|].
  assert (Hresto : ∀ a c, (a, c) ∈ resto →
                          a ∈ orden_vars ∧ c ∈ orden_vars ∧ a ≠ c).
  { intros a c Hac. apply Hcola. by right. }
  destruct (Hdoms xi Hxi) as [dxi Hdxi].
  destruct (Hdoms xj Hxj) as [dxj Hdxj].
  rewrite Hdxi, (revisar_arco_val_explicito xi xj d dxi dxj Hne Hdxi Hdxj).
  set (dxi' := filter (λ v, soportado adyacentes xi xj dxj v = true) dxi).
  assert (Hdoms1 : ∀ v, v ∈ orden_vars → is_Some (<[xi := dxi']> d !! v)).
  { intros v Hv. destruct (decide (xi = v)) as [<-|Hnv].
    - rewrite lookup_insert_eq. by eauto.
    - rewrite lookup_insert_ne by done. by apply Hdoms. }
  destruct (negb _); [|by apply IH].
  rewrite lookup_insert_eq.
  destruct (decide (length dxi' = 0)); [done|].
  destruct (orden_en_grafo xi Hxi) as [vs Hvs]. rewrite Hvs.
  apply IH; [|done].
  intros a c [Hac|Hac]%elem_of_app; [by apply Hresto|].
  apply list_elem_of_fmap in Hac as (xk & [= -> ->] & Hxk).
  apply list_elem_of_filter in Hxk as [_ Hxk].
  assert (Hvec : xk ∈ vecinos_de adyacentes xi).
  { unfold vecinos_de. by rewrite Hvs. }
  split; [exact (orden_cerrado xi xk Hxi Hvec)|]. split; [done|].
  intros ->. by apply (grafo_sin_lazos xi).
Qed.

(** What a run of [ac3_val] does to the domains during the search. *)
Lemma ac3_val_en_busqueda d :
  (∀ v, v ∈ orden_vars → is_Some (d !! v)) →
  match ac3_val adyacentes variables pasos_ac3 d with
  | SinCombustible => pasos_ac3 ≤ cota_ac3 adyacentes variables d
  | Excepcion => False
  | Retorna (b, d') =>
      reducido d d' ∧
      (∀ sol, coloreo_valido adyacentes orden_vars d sol →
              b = true ∧ coloreo_valido adyacentes orden_vars d' sol)
  end.
Proof.
  intros Hdoms. unfold ac3_val.
  destruct (arcos_iniciales_total variables) as (cola & Hc & Hlen).
  { intros v Hv. apply orden_en_grafo. by apply mismas_variables. }
  rewrite Hc.
  assert (Hcola : ∀ a c, (a, c) ∈ cola →
                         a ∈ orden_vars ∧ c ∈ orden_vars ∧ a ≠ c).
  { intros a c Hac.
    apply (arcos_iniciales_elem adyacentes variables cola a c Hc) in Hac
      as [Ha Hvec].
    apply mismas_variables in Ha.
    split; [done|]. split; [exact (orden_cerrado a c Ha Hvec)|].
    intros ->. by apply (grafo_sin_lazos c). }
  destruct (ac3_bucle_val adyacentes pasos_ac3 cola d) as [| |[b d']] eqn:Hr.
  - destruct (decide (pasos_ac3 ≤ cota_ac3 adyacentes variables d))
      as [|Hgt]; [done|].
    exfalso.
    apply (ac3_bucle_val_termina adyacentes (grado_max adyacentes) pasos_ac3
             cola d grado_max_cota); [|done].
    unfold cota_ac3 in Hgt. lia.
  - by apply (ac3_bucle_val_no_lanza pasos_ac3 cola d).
  - split; [exact (ac3_bucle_val_reducido adyacentes pasos_ac3 cola d b d' Hr)|].
    intros sol Hsol.
    exact (ac3_bucle_val_conserva_coloreo adyacentes orden_vars sol orden_cerrado
             pasos_ac3 cola d b d' Hsol Hcola Hr).
Qed.

Lemma podar_dominios_reducido h l d asig var valor dom h1 nuevos :
  h !! l = Some d → d !! var = Some dom → valor ∈ dom →
  podar_dominios adyacentes h l asig var valor
  = (h1, Retorna (Some nuevos)) →
  ∃ d', h1 !! nuevos = Some d' ∧ reducido d d'.
Proof.
  intros Hl Hdom Hvalor Hpod.
  pose proof (podar_dominios_spec adyacentes asig var valor h l d Hl
                (grafo_sin_lazos var)) as Hspec.
  rewrite Hpod in Hspec.
  destruct Hspec as (_ & _ & d' & Hd' & Hvar' & Hpoda & _).
  exists d'. split; [done|]. intros x.
  destruct (decide (x = var)) as [->|Hne].
  - rewrite Hdom, Hvar'.
    apply list_elem_of_split in Hvalor as (l1 & l2 & ->).
    apply sublist_inserts_l. apply sublist_skip, sublist_nil_l.
  - rewrite Hpoda by done. unfold podado. destruct (decide _).
    + destruct (d !! x); simpl; [|done]. apply sublist_filter.
    + by destruct (d !! x).
Qed.

Lemma probar_valores_prop_val_correcto fuel rec l d asig var dvar valores :
  (∀ h1 a l1 d1,
     h1 !! l1 = Some d1 → prefijo orden_vars a → size a = S (size asig) →
     (∀ v, v ∈ orden_vars → is_Some (d1 !! v)) →
     let '(h', r) := rec h1 a l1 in
     marco h1 h' ∧
     resultado_prop adyacentes variables orden_vars pasos_ac3 fuel d1 a r) →
  prefijo orden_vars asig →
  orden_vars !! size asig = Some var →
  (∀ v, v ∈ orden_vars → is_Some (d !! v)) →
  d !! var = Some dvar → valores ⊆ dvar →
  ∀ h0, h0 !! l = Some d →
    let '(h', r) := probar_valores_prop_val adyacentes variables pasos_ac3 rec
                      h0 asig l var valores in
    marco h0 h' ∧
    match r with
    | SinCombustible =>
        S fuel + size asig ≤ length orden_vars ∨
        pasos_ac3 ≤ cota_ac3 adyacentes variables d
    | Excepcion => False
    | Retorna (Some sol) => solucion_desde adyacentes orden_vars d asig sol
    | Retorna None =>
        ∀ sol x, coloreo_valido adyacentes orden_vars d sol → asig ⊆ sol →
                 sol !! var = Some x → x ∉ valores
    end.
Proof.
  intros Hrec Hp Hvar Hdoms Hdom.
  pose proof (list_elem_of_lookup_2 _ _ _ Hvar) as Hvar_in.
  pose proof (prefijo_siguiente_libre _ orden_sin_repetidos _ _ Hp Hvar)
    as Hlibre.
  induction valores as [|valor resto IH]; intros Hsub h0 Hl; simpl.
  { split; [apply marco_refl|]. intros sol x _ _ _ Hx.
    by apply elem_of_nil in Hx. }
  assert (Hresto : resto ⊆ dvar) by (intros y Hy; apply Hsub; by right).
  assert (Hvalor : valor ∈ dvar) by (apply Hsub; by left).
  unfold es_consistente_parcial, podar_dominios_forward_val.
  destruct (es_consistente_con_asignacion adyacentes asig var valor) eqn:Hc.
  2:{ specialize (IH Hresto h0 Hl).
      destruct (probar_valores_prop_val adyacentes variables pasos_ac3 rec h0
                  asig l var resto) as [h' r].
      destruct IH as [Hm Hr]. split; [done|].
      destruct r as [| |[sol|]]; try done.
      intros sol x Hsol Hsub' Hx [->|Hin]%elem_of_cons; [|by eapply Hr].
      rewrite (coloreo_valido_consistente adyacentes orden_vars d
                 sol asig var valor) in Hc; done. }
  destruct (prefijo_insert _ orden_sin_repetidos _ _ valor Hp Hvar)
    as [Hp1 Hsz1].
  pose proof (podar_dominios_en_busqueda adyacentes orden_vars
                grafo_sin_lazos orden_cerrado orden_en_grafo
                h0 l d (<[var:=valor]> asig) var
                valor Hl Hvar_in Hdoms) as Hpodar.
  assert (Hconserva : ∀ sol,
            coloreo_valido adyacentes orden_vars d sol →
            sol !! var = Some valor →
            ∃ h' nuevos d',
              podar_dominios adyacentes h0 l (<[var:=valor]> asig) var valor
              = (h', Retorna (Some nuevos)) ∧
              h' !! nuevos = Some d' ∧
              coloreo_valido adyacentes orden_vars d' sol).
  { intros sol Hsol Hx.
    apply (podar_dominios_conserva adyacentes orden_vars sol h0 l d);
      try done; [by apply orden_en_grafo|].
    intros x Hxv _. by eapply orden_cerrado. }
  destruct (podar_dominios adyacentes h0 l (<[var:=valor]> asig) var valor)
    as [h1 r1] eqn:Hpod.
  destruct Hpodar as [Hm1 Hr1].
  destruct r1 as [| |[nuevos|]]; [done|done| |].
  - destruct Hr1 as (d' & Hd' & Hdoms' & _).
    destruct (podar_dominios_reducido h0 l d (<[var:=valor]> asig) var valor
                dvar h1 nuevos Hl Hdom Hvalor Hpod) as (d1 & Hd1 & Hred1).
    assert (d1 = d') as -> by congruence.
    rewrite Hd'. unfold deepcopy.
    set (copia := fresh (dom h1)).
    assert (Hfresh : copia ∉ dom h1) by apply is_fresh.
    pose proof (cota_ac3_reducido d d' Hred1) as Hcota1.
    pose proof (ac3_val_en_busqueda d' Hdoms') as Hac3.
    destruct (ac3_val adyacentes variables pasos_ac3 d') as [| |[b d2]].
    { split; [|right; lia]. eapply marco_trans; [done|].
      intros x Hx. rewrite lookup_insert_ne; [done|by intros <-]. }
    { done. }
    destruct Hac3 as [Hred2 Hcons].
    set (h2 := <[copia := d2]> (<[copia := d']> h1)).
    assert (Hm12 : marco h1 h2).
    { intros x Hx. unfold h2. rewrite !lookup_insert_ne; [done| |];
        by intros <-. }
    pose proof (marco_trans _ _ _ Hm1 Hm12) as Hm02.
    destruct b.
    + assert (Hdoms2 : ∀ v, v ∈ orden_vars → is_Some (d2 !! v)).
      { intros v Hv. eapply reducido_is_Some; [done|]. by apply Hdoms'. }
      pose proof (cota_ac3_reducido d' d2 Hred2) as Hcota2.
      assert (Hl2 : h2 !! copia = Some d2) by apply lookup_insert_eq.
      specialize (Hrec h2 (<[var:=valor]> asig) copia d2 Hl2 Hp1 Hsz1
                    Hdoms2).
      destruct (rec h2 (<[var:=valor]> asig) copia) as [h3 r2].
      destruct Hrec as [Hm3 Hr2].
      pose proof (marco_trans _ _ _ Hm02 Hm3) as Hm03.
      destruct r2 as [| |[sol|]]; simpl in Hr2.
      * split; [done|]. rewrite Hsz1 in Hr2. lia.
      * done.
      * split; [done|].
        apply (solucion_desde_insert adyacentes orden_vars d
                 orden_sin_repetidos asig var valor dvar sol); try done.
        apply (solucion_desde_dominios adyacentes orden_vars d d2); [|done].
        intros i u dv' x _ _.
        apply reducido_elem. by eapply reducido_trans.
      * specialize (IH Hresto h3 (marco_lookup _ _ _ _ Hm03 Hl)).
        destruct (probar_valores_prop_val adyacentes variables pasos_ac3 rec h3
                    asig l var resto) as [h' r].
        destruct IH as [Hm Hr]. split; [by eapply marco_trans|].
        destruct r as [| |[sol|]]; try done.
        intros sol x Hsol Hsub' Hx [->|Hin]%elem_of_cons; [|by eapply Hr].
        destruct (Hconserva sol Hsol Hx) as (h'' & n'' & d'' & Heq & Hd'' & Hv).
        injection Heq as <- <-.
        assert (d'' = d') as -> by congruence.
        destruct (Hcons sol Hv) as [_ Hv2].
        apply (Hr2 sol Hv2). by apply insert_subseteq_l.
    + specialize (IH Hresto h2 (marco_lookup _ _ _ _ Hm02 Hl)).
      destruct (probar_valores_prop_val adyacentes variables pasos_ac3 rec h2
                  asig l var resto) as [h' r].
      destruct IH as [Hm Hr]. split; [by eapply marco_trans|].
      destruct r as [| |[sol|]]; try done.
      intros sol x Hsol Hsub' Hx [->|Hin]%elem_of_cons; [|by eapply Hr].
      destruct (Hconserva sol Hsol Hx) as (h'' & n'' & d'' & Heq & Hd'' & Hv).
      injection Heq as <- <-.
      assert (d'' = d') as -> by congruence.
      by destruct (Hcons sol Hv) as [? _].
  - specialize (IH Hresto h1 (marco_lookup _ _ _ _ Hm1 Hl)).
    destruct (probar_valores_prop_val adyacentes variables pasos_ac3 rec h1
                asig l var resto) as [h' r].
    destruct IH as [Hm Hr]. split; [by eapply marco_trans|].
    destruct r as [| |[sol|]]; try done.
    intros sol x Hsol Hsub' Hx [->|Hin]%elem_of_cons; [|by eapply Hr].
    by destruct (Hconserva sol Hsol Hx) as (h'' & n'' & d'' & Heq & _).
Qed.

Lemma backtracking_con_propagacion_val_correcto fuel :
  ∀ h asig l d,
    h !! l = Some d → prefijo orden_vars asig →
    (∀ v, v ∈ orden_vars → is_Some (d !! v)) →
    let '(h', r) := backtracking_con_propagacion_val adyacentes variables
                      pasos_ac3 fuel h asig orden_vars l in
    marco h h' ∧
    resultado_prop adyacentes variables orden_vars pasos_ac3 fuel d asig r.
Proof.
  induction fuel as [|fuel IH]; intros h asig l d Hl Hp Hdoms; simpl.
  { split; [apply marco_refl|]. destruct Hp as [Hle _]. simpl. lia. }
  destruct (decide (size asig = length orden_vars)) as [Heq|Hne].
  { split; [apply marco_refl|]. simpl.
    repeat split; try done; try apply Hp.
    all: apply lookup_lt_Some in H0; lia. }
  destruct Hp as [Hle Hpre].
  destruct (lookup_lt_is_Some_2 orden_vars (size asig)) as [var Hvar]; [lia|].
  rewrite Hvar, Hl.
  destruct (Hdoms var) as [dvar Hdom]; [by eapply list_elem_of_lookup_2|].
  rewrite Hdom.
  pose proof (probar_valores_prop_val_correcto fuel
                (λ h' a l', backtracking_con_propagacion_val adyacentes variables
                              pasos_ac3 fuel h' a orden_vars l')
                l d asig var dvar dvar) as Hloop.
  simpl in Hloop.
  specialize (Hloop (λ h1 a l1 d1 H1 H2 _ H3, IH h1 a l1 d1 H1 H2 H3)
                (conj Hle Hpre) Hvar Hdoms Hdom (reflexivity _) h Hl).
  destruct (probar_valores_prop_val adyacentes variables pasos_ac3 _ h asig l
              var dvar) as [h' r].
  destruct Hloop as [Hm Hr]. split; [done|].
  destruct r as [| |[sol|]]; simpl; try done.
  intros sol Hsol Hsub.
  destruct (proj1 Hsol var) as (x & dv & Hx & Hdv & Hin);
    [by eapply list_elem_of_lookup_2|].
  assert (dv = dvar) as -> by congruence.
  by apply (Hr sol x).
Qed.

End Propagacion.

(** *** [backtracking_con_propagacion_val] never writes to a dictionary of its
    caller *)

Section MarcoPropagacion.

Variable adyacentes : gmap string (list string).
Variable variables : list string.
Variable pasos_ac3 : nat.

Lemma probar_valores_prop_val_marco rec asig l var valores :
  (∀ h a l', marco h (rec h a l').1) →
  ∀ h, marco h (probar_valores_prop_val adyacentes variables pasos_ac3 rec
                  h asig l var valores).1.
Proof.
  intros Hrec. induction valores as [|valor resto IH]; intros h; simpl;
    [apply marco_refl|].
  destruct (es_consistente_parcial adyacentes asig var valor); [|apply IH].
  unfold podar_dominios_forward_val.
  pose proof (podar_dominios_marco adyacentes h l (<[var:=valor]> asig)
                var valor) as Hm1.
  destruct (podar_dominios adyacentes h l (<[var:=valor]> asig) var valor)
    as [h1 r1]. simpl in Hm1.
  destruct r1 as [| |[nuevos|]]; try done.
  - destruct (h1 !! nuevos) as [d_fc|]; [|done].
    unfold deepcopy. set (copia := fresh (dom h1)).
    assert (Hfresh : copia ∉ dom h1) by apply is_fresh.
    assert (Hm2 : marco h (<[copia := d_fc]> h1)).
    { eapply marco_trans; [done|]. intros x Hx.
      rewrite lookup_insert_ne; [done|by intros <-]. }
    assert (Hm3 : ∀ d_prop,
              marco h (<[copia := d_prop]> (<[copia := d_fc]> h1))).
    { intros d_prop. eapply marco_trans; [exact Hm1|]. intros x Hx.
      rewrite !lookup_insert_ne; [done| |]; by intros <-. }
    destruct (ac3_val adyacentes variables pasos_ac3 d_fc) as [| |[[] d_prop]];
      try done.
    + pose proof (Hrec (<[copia := d_prop]> (<[copia := d_fc]> h1))
                    (<[var:=valor]> asig) copia) as Hm4.
      destruct (rec (<[copia := d_prop]> (<[copia := d_fc]> h1))
                  (<[var:=valor]> asig) copia) as [h3 r3]. simpl in Hm4.
      pose proof (marco_trans _ _ _ (Hm3 d_prop) Hm4) as Hm5.
      destruct r3 as [| |[sol|]]; try done.
      eapply marco_trans; [done|apply IH].
    + eapply marco_trans; [apply Hm3|apply IH].
  - eapply marco_trans; [done|apply IH].
Qed.

Lemma backtracking_con_propagacion_val_marco fuel h asig orden_vars l :
  marco h (backtracking_con_propagacion_val adyacentes variables pasos_ac3 fuel
             h asig orden_vars l).1.
Proof.
  revert h asig l. induction fuel as [|fuel IH]; intros h asig l; simpl;
    [apply marco_refl|].
  destruct (decide _); [apply marco_refl|].
  destruct (orden_vars !! size asig) as [var|]; [|apply marco_refl].
  destruct (h !! l) as [d|]; [|apply marco_refl].
  destruct (d !! var) as [dvar|]; [|apply marco_refl].
  apply probar_valores_prop_val_marco. intros h' a l'. apply IH.
Qed.

End MarcoPropagacion.

Section PropagacionVacio.

Variable adyacentes : gmap string (list string).
Variable variables orden_vars : list string.
Variable pasos_ac3 : nat.

Hypothesis orden_sin_repetidos : NoDup orden_vars.
Hypothesis grafo_sin_lazos : sin_lazos adyacentes.
Hypothesis orden_cerrado : cerrado adyacentes orden_vars.
Hypothesis orden_en_grafo : ∀ v, v ∈ orden_vars → is_Some (adyacentes !! v).
Hypothesis mismas_variables : ∀ v, v ∈ variables ↔ v ∈ orden_vars.

(** With enough fuel the search answers, and the answer is [None] exactly
    when the variables have no colouring. *)
Lemma backtracking_con_propagacion_val_decide fuel h l d :
  h !! l = Some d →
  (∀ v, v ∈ orden_vars → is_Some (d !! v)) →
  length orden_vars < fuel →
  cota_ac3 adyacentes variables d < pasos_ac3 →
  match (backtracking_con_propagacion_val adyacentes variables pasos_ac3 fuel
           h ∅ orden_vars l).2 with
  | Retorna (Some sol) => solucion_desde adyacentes orden_vars d ∅ sol
  | Retorna None => ∀ sol, ¬ coloreo_valido adyacentes orden_vars d sol
  | _ => False
  end.
Proof.
  intros Hl Hdoms Hfuel Hcota.
  pose proof (backtracking_con_propagacion_val_correcto adyacentes variables
                orden_vars pasos_ac3 orden_sin_repetidos grafo_sin_lazos
                orden_cerrado orden_en_grafo mismas_variables fuel h ∅ l d
                Hl (prefijo_vacio orden_vars) Hdoms) as Hok.
  destruct (backtracking_con_propagacion_val adyacentes variables pasos_ac3 fuel
              h ∅ orden_vars l) as [h' r].
  destruct Hok as [_ Hok]. destruct r as [| |[sol'|]]; simpl in *.
  - rewrite map_size_empty in Hok. lia.
  - done.
  - done.
  - intros sol Hsol. apply (Hok sol Hsol). apply map_empty_subseteq.
Qed.

End PropagacionVacio.

Lemma adyacentes_grado_max : grado_max Australia.adyacentes = 5.
Proof. by vm_compute. Qed.

Lemma dos_colores_australia_completo v :
  v ∈ Australia.variables → is_Some (Ejemplos.dos_colores_australia !! v).
Proof. intros Hv. por_casos Hv. Qed.

Lemma dos_colores_australia_sin_coloreo sol :
  ¬ coloreo_valido Australia.adyacentes Australia.variables
      Ejemplos.dos_colores_australia sol.
Proof.
  intros [Hval Hdif].
  assert (Hwa : "WA" ∈ Australia.variables) by decidir.
  assert (Hnt : "NT" ∈ Australia.variables) by decidir.
  assert (Hsa : "SA" ∈ Australia.variables) by decidir.
  destruct (Hval "WA" Hwa) as (a & da & Ha & Hda & Hina).
  destruct (Hval "NT" Hnt) as (b & db & Hb & Hdb & Hinb).
  destruct (Hval "SA" Hsa) as (c & dc & Hc & Hdc & Hinc).
  vm_compute in Hda, Hdb, Hdc.
  injection Hda as <-. injection Hdb as <-. injection Hdc as <-.
  assert (Hab : a ≠ b) by (apply (Hdif "WA" "NT"); try done; decidir).
  assert (Hac : a ≠ c) by (apply (Hdif "WA" "SA"); try done; decidir).
  assert (Hbc : b ≠ c) by (apply (Hdif "NT" "SA"); try done; decidir).
  apply list_elem_of_In in Hina, Hinb, Hinc. simpl in Hina, Hinb, Hinc.
  destruct Hina as [<-|[<-|[]]], Hinb as [<-|[<-|[]]],
    Hinc as [<-|[<-|[]]]; congruence.
Qed.

(** ** Files 18 and 19: the answer when there is no colouring *)

(** X18: when the variables have no colouring with values in the domains,
    [backtracking] called on the empty dictionary reports the failure (the
    script returns [None]) and the dictionary is empty again: it raises
    nothing and needs a recursion depth of the number of variables plus
    one.  The graph is symmetric and has no loops, the order has no
    repeated variable and every variable of it has a domain. *)
Theorem backtracking_sin_solucion_devuelve_fallo
    adyacentes variables_orden dominios fuel :
  simetrica adyacentes → sin_lazos adyacentes →
  NoDup variables_orden →
  (∀ v, v ∈ variables_orden → is_Some (dominios !! v)) →
  (∀ sol, ¬ coloreo_valido adyacentes variables_orden dominios sol) →
  length variables_orden < fuel →
  backtracking adyacentes fuel ∅ variables_orden dominios
  = Retorna (Fallo ∅).
Proof.
  intros Hsim Hlazos Hnd Hdoms Hno Hfuel.
  pose proof (backtracking_correcto adyacentes variables_orden dominios
                Hnd Hdoms fuel ∅ (prefijo_vacio variables_orden)) as Hok.
  destruct (backtracking adyacentes fuel ∅ variables_orden dominios)
    as [| |[sol|asig]]; simpl in Hok.
  - rewrite map_size_empty in Hok. lia.
  - done.
  - destruct (Hno sol). by apply solucion_desde_vacio_coloreo.
  - by subst asig.
Qed.

Lemma backtracking_sin_solucion_devuelve_fallo_witness :
  simetrica Australia.adyacentes ∧ sin_lazos Australia.adyacentes ∧
  NoDup Australia.variables ∧
  (∀ v, v ∈ Australia.variables →
        is_Some (Ejemplos.dos_colores_australia !! v)) ∧
  (∀ sol, ¬ coloreo_valido Australia.adyacentes Australia.variables
              Ejemplos.dos_colores_australia sol) ∧
  length Australia.variables < 8 ∧
  backtracking Australia.adyacentes 8 ∅ Australia.variables
               Ejemplos.dos_colores_australia
  = Retorna (Fallo ∅).
Proof.
  assert (H3 : NoDup Australia.variables) by decidir.
  assert (H6 : length Australia.variables < 8) by (simpl; lia).
  split; [exact adyacentes_simetrica|]. split; [exact adyacentes_sin_lazos|].
  split; [exact H3|]. split; [exact dos_colores_australia_completo|].
  split; [exact dos_colores_australia_sin_coloreo|]. split; [exact H6|].
  exact (backtracking_sin_solucion_devuelve_fallo
           Australia.adyacentes Australia.variables
           Ejemplos.dos_colores_australia 8
           adyacentes_simetrica adyacentes_sin_lazos H3
           dos_colores_australia_completo dos_colores_australia_sin_coloreo
           H6).
Defined.

(** X19: when the variables have no colouring with values in the domains,
    [forward_checking] called on the empty dictionary returns [None]: it
    raises nothing and needs a recursion depth of the number of variables
    plus one.  The graph is symmetric and has no loops, the order has no
    repeated variable and holds the neighbours of its variables, and every
    variable of it has an adjacency entry and a domain. *)
Theorem forward_checking_sin_solucion_devuelve_none
    adyacentes orden_vars fuel h dominios d :
  simetrica adyacentes → sin_lazos adyacentes →
  NoDup orden_vars → cerrado adyacentes orden_vars →
  (∀ v, v ∈ orden_vars → is_Some (adyacentes !! v)) →
  h !! dominios = Some d →
  (∀ v, v ∈ orden_vars → is_Some (d !! v)) →
  (∀ sol, ¬ coloreo_valido adyacentes orden_vars d sol) →
  length orden_vars < fuel →
  (forward_checking adyacentes fuel h ∅ orden_vars dominios).2
  = Retorna None.
Proof.
  intros Hsim Hlazos Hnd Hcerr Hady Hl Hdoms Hno Hfuel.
  pose proof (forward_checking_correcto adyacentes orden_vars Hnd Hlazos
                Hcerr Hady fuel h ∅ dominios d Hl (prefijo_vacio orden_vars)
                Hdoms) as Hok.
  destruct (forward_checking adyacentes fuel h ∅ orden_vars dominios)
    as [h' r].
  destruct Hok as [_ Hok]. destruct r as [| |[sol|]]; simpl in *.
  - rewrite map_size_empty in Hok. lia.
  - done.
  - destruct (Hno sol). by apply solucion_desde_vacio_coloreo.
  - done.
Qed.

Lemma forward_checking_sin_solucion_devuelve_none_witness :
  simetrica Australia.adyacentes ∧ sin_lazos Australia.adyacentes ∧
  NoDup Australia.variables ∧
  cerrado Australia.adyacentes Australia.variables ∧
  (∀ v, v ∈ Australia.variables → is_Some (Australia.adyacentes !! v)) ∧
  ({[0 := Ejemplos.dos_colores_australia]} : almacen) !! 0
  = Some Ejemplos.dos_colores_australia ∧
  (∀ v, v ∈ Australia.variables →
        is_Some (Ejemplos.dos_colores_australia !! v)) ∧
  (∀ sol, ¬ coloreo_valido Australia.adyacentes Australia.variables
              Ejemplos.dos_colores_australia sol) ∧
  length Australia.variables < 8 ∧
  (forward_checking Australia.adyacentes 8
     {[0 := Ejemplos.dos_colores_australia]} ∅ Australia.variables 0).2
  = Retorna None.
Proof.
  assert (H3 : NoDup Australia.variables) by decidir.
  assert (H6 : ({[0 := Ejemplos.dos_colores_australia]} : almacen) !! 0
               = Some Ejemplos.dos_colores_australia) by done.
  assert (H9 : length Australia.variables < 8) by (simpl; lia).
  split; [exact adyacentes_simetrica|]. split; [exact adyacentes_sin_lazos|].
  split; [exact H3|]. split; [exact australia_cerrado|].
  split; [exact adyacentes_completo|]. split; [exact H6|].
  split; [exact dos_colores_australia_completo|].
  split; [exact dos_colores_australia_sin_coloreo|]. split; [exact H9|].
  exact (forward_checking_sin_solucion_devuelve_none
           Australia.adyacentes Australia.variables 8
           {[0 := Ejemplos.dos_colores_australia]} 0
           Ejemplos.dos_colores_australia
           adyacentes_simetrica adyacentes_sin_lazos H3 australia_cerrado
           adyacentes_completo H6 dos_colores_australia_completo
           dos_colores_australia_sin_coloreo H9).
Defined.


(** ** Files 18 and 21: the two consistency checks *)

(** X22: the conflict list of [es_consistente_con_parcial] (file 21) holds
    exactly the assigned variables that are in the adjacency list of [var]
    and have the value [valor]; it is empty exactly when
    [es_consistente_con_asignacion] (file 18) returns [True] on the same
    arguments. *)
Theorem es_consistente_con_parcial_conflictos adyacentes asig var valor :
  (∀ o, o ∈ es_consistente_con_parcial adyacentes asig var valor
        ↔ asig !! o = Some valor ∧ o ∈ vecinos_de adyacentes var) ∧
  (size (es_consistente_con_parcial adyacentes asig var valor) = 0
   ↔ es_consistente_con_asignacion adyacentes asig var valor = true).
Proof.
  split; [|apply es_consistente_con_parcial_vacio].
  intros o. rewrite elem_of_es_consistente_con_parcial. split.
  - intros (ov & Ho & [Hvec <-]%no_conflicto_binario_false). done.
  - intros [Ho Hvec]. exists valor. split; [done|].
    by apply no_conflicto_binario_false.
Qed.

(** ** Files 18, 19 and 20: the three searches return the same dictionary *)

Section Filtrada.

Lemma filtrada_refl l : filtrada l l.
Proof.
  exists (λ _, true). induction l as [|x l IH]; [done|].
  rewrite filter_cons_True by done. by rewrite <- IH.
Qed.

Lemma filtrada_filter (g : string → bool) l l' :
  filtrada l l' → filtrada l (filter (λ x, g x = true) l').
Proof.
  intros [f ->]. exists (λ x, g x && f x). rewrite list_filter_filter.
  apply list_filter_iff. intros x. by rewrite andb_true_iff.
Qed.

Lemma filtrada_trans l1 l2 l3 :
  filtrada l1 l2 → filtrada l2 l3 → filtrada l1 l3.
Proof. intros H12 [g ->]. by apply filtrada_filter. Qed.

End Filtrada.

Section Simulacion.

Variable adyacentes : gmap string (list string).
Variable orden_vars : list string.
Variable d : gmap string (list string).

Hypothesis orden_sin_repetidos : NoDup orden_vars.
Hypothesis grafo_simetrico : simetrica adyacentes.
Hypothesis grafo_sin_lazos : sin_lazos adyacentes.
Hypothesis dominios_completos : ∀ v, v ∈ orden_vars → is_Some (d !! v).

Lemma solucion_parcial_vacia : solucion_parcial adyacentes orden_vars d ∅.
Proof. intros i u x _ Hu. by rewrite lookup_empty in Hu. Qed.

Lemma prefijo_indice asig i u :
  prefijo orden_vars asig → orden_vars !! i = Some u →
  is_Some (asig !! u) ↔ i < size asig.
Proof.
  intros [_ Hpre] Hi. rewrite Hpre. split.
  - intros (j & Hj & Hu).
    by rewrite (NoDup_lookup _ _ _ _ orden_sin_repetidos Hi Hu).
  - intros Hlt. by exists i.
Qed.

Lemma solucion_parcial_insert asig var x dv :
  prefijo orden_vars asig → orden_vars !! size asig = Some var →
  d !! var = Some dv → x ∈ dv →
  es_consistente_con_asignacion adyacentes asig var x = true →
  solucion_parcial adyacentes orden_vars d asig →
  solucion_parcial adyacentes orden_vars d (<[var:=x]> asig).
Proof.
  intros Hp Hvar Hdv Hx Hc Hpar i u y Hi Hu.
  rewrite es_consistente_con_asignacion_true in Hc.
  destruct (decide (u = var)) as [->|Hne].
  - rewrite lookup_insert_eq in Hu. injection Hu as <-.
    pose proof (NoDup_lookup _ _ _ _ orden_sin_repetidos Hi Hvar) as ->.
    split; [by eauto|]. intros j v y Hj Hv Hy.
    rewrite lookup_insert_ne in Hy; [by apply Hc|].
    intros <-. pose proof (NoDup_lookup _ _ _ _ orden_sin_repetidos Hv Hvar).
    lia.
  - rewrite lookup_insert_ne in Hu by done.
    destruct (Hpar i u y Hi Hu) as [Hval Hant]. split; [done|].
    intros j v y' Hj Hv Hy.
    rewrite lookup_insert_ne in Hy; [by eapply Hant|].
    intros <-.
    pose proof (NoDup_lookup _ _ _ _ orden_sin_repetidos Hv Hvar) as ->.
    assert (i < size asig); [|lia].
    apply (prefijo_indice asig i u Hp Hi). by eauto.
Qed.

Lemma solucion_desde_parcial asig sol :
  prefijo orden_vars asig →
  solucion_parcial adyacentes orden_vars d asig →
  solucion_desde adyacentes orden_vars d asig sol →
  solucion_desde adyacentes orden_vars d ∅ sol.
Proof.
  intros Hp Hpar (Hsub & Hpsol & Hsz & Hsol).
  split; [apply map_empty_subseteq|]. split; [done|]. split; [done|].
  intros i u x _ Hi Hx.
  destruct (decide (size asig ≤ i)) as [Hle|Hgt]; [by apply Hsol|].
  assert (Hu : asig !! u = Some x).
  { destruct (proj2 (prefijo_indice asig i u Hp Hi)) as [x' Hx']; [lia|].
    pose proof (lookup_weaken _ _ _ _ Hx' Hsub). congruence. }
  destruct (Hpar i u x Hi Hu) as [Hval Hant]. split; [done|].
  intros j v y Hj Hv Hy. apply (Hant j v y Hj Hv).
  destruct (proj2 (prefijo_indice asig j v Hp Hv)) as [y' Hy']; [lia|].
  pose proof (lookup_weaken _ _ _ _ Hy' Hsub). congruence.
Qed.

(** With enough fuel [backtracking] answers, and says whether the
    dictionary it was given extends to a colouring. *)
Lemma backtracking_decide fuel asig :
  prefijo orden_vars asig →
  solucion_parcial adyacentes orden_vars d asig →
  length orden_vars < fuel + size asig →
  match backtracking adyacentes fuel asig orden_vars d with
  | Retorna (Exito sol) =>
      coloreo_valido adyacentes orden_vars d sol ∧ asig ⊆ sol
  | Retorna (Fallo a) =>
      a = asig ∧
      ∀ sol, coloreo_valido adyacentes orden_vars d sol → asig ⊆ sol → False
  | _ => False
  end.
Proof.
  intros Hp Hpar Hf.
  pose proof (backtracking_correcto adyacentes orden_vars d
                orden_sin_repetidos dominios_completos fuel asig Hp) as Hok.
  destruct (backtracking adyacentes fuel asig orden_vars d)
    as [| |[sol|a]] eqn:Hbt; simpl in Hok.
  - lia.
  - done.
  - split; [|apply Hok].
    apply solucion_desde_vacio_coloreo; try done.
    by apply (solucion_desde_parcial asig).
  - split; [done|]. intros sol Hsol Hsub.
    destruct (backtracking_completo adyacentes orden_vars d
                orden_sin_repetidos fuel sol asig Hsol Hp Hsub Hf)
      as [sol' Hs].
    congruence.
Qed.

Hypothesis orden_cerrado : cerrado adyacentes orden_vars.
Hypothesis orden_en_grafo : ∀ v, v ∈ orden_vars → is_Some (adyacentes !! v).

Lemma recortado_inicial : recortado adyacentes orden_vars d ∅ d.
Proof.
  split; [apply reducido_refl|]. split; [|done].
  intros u dv dv' _ Hu Hu'. assert (dv' = dv) as -> by congruence.
  apply filtrada_refl.
Qed.

Lemma recortado_dominios asig d' :
  recortado adyacentes orden_vars d asig d' →
  ∀ v, v ∈ orden_vars → is_Some (d' !! v).
Proof.
  intros [Hred _] v Hv. eapply reducido_is_Some; [done|].
  by apply dominios_completos.
Qed.

(** Forward checking keeps the domains trimmed. *)
Lemma podar_dominios_recortado h l d' asig var x dv' h1 nuevos :
  h !! l = Some d' → var ∈ orden_vars → asig !! var = None →
  recortado adyacentes orden_vars d asig d' →
  d' !! var = Some dv' → x ∈ dv' →
  podar_dominios adyacentes h l (<[var:=x]> asig) var x
  = (h1, Retorna (Some nuevos)) →
  ∃ d'', h1 !! nuevos = Some d'' ∧ reducido d' d'' ∧
         recortado adyacentes orden_vars d (<[var:=x]> asig) d''.
Proof.
  intros Hl Hvar Hlibre (Hred & Hfil & Hcol) Hdv' Hx Hpod.
  destruct (podar_dominios_reducido adyacentes grafo_sin_lazos h l d'
              (<[var:=x]> asig) var x dv' h1 nuevos Hl Hdv' Hx Hpod)
    as (d'' & Hd'' & Hred').
  exists d''. split; [done|]. split; [done|].
  pose proof (podar_dominios_spec adyacentes (<[var:=x]> asig) var x h l d'
                Hl (grafo_sin_lazos var)) as Hspec.
  rewrite Hpod in Hspec.
  destruct Hspec as (_ & _ & d2 & Hd2 & _ & Hpoda & _).
  assert (d2 = d'') as -> by congruence.
  split; [by eapply reducido_trans|]. split.
  - intros u dv dvu Hu Hdu Hdu''.
    assert (Hne : u ≠ var).
    { intros ->. apply Hu, elem_of_dom. rewrite lookup_insert_eq. by eauto. }
    assert (Hu0 : u ∉ dom asig).
    { intros Hin. apply Hu, elem_of_dom. rewrite lookup_insert_ne by done.
      by apply elem_of_dom. }
    rewrite Hpoda in Hdu'' by done. unfold podado in Hdu''.
    destruct (d' !! u) as [dvu'|] eqn:Hdu'.
    2:{ by destruct (decide _). }
    pose proof (Hfil u dv dvu' Hu0 Hdu Hdu') as Hf.
    destruct (decide _); simpl in Hdu''; injection Hdu'' as <-; [|done].
    by apply (filtrada_filter
                (no_conflicto_binario adyacentes var x u)).
  - intros sol Hsol Hsub.
    assert (Hsolx : sol !! var = Some x).
    { apply (lookup_weaken _ _ _ _ (lookup_insert_eq asig var x) Hsub). }
    assert (Hsub0 : asig ⊆ sol).
    { etrans; [|exact Hsub]. by apply insert_subseteq. }
    destruct (podar_dominios_conserva adyacentes orden_vars sol h l d'
                (<[var:=x]> asig) var x (Hcol sol Hsol Hsub0) Hl Hvar Hsolx
                (orden_en_grafo var Hvar))
      as (h' & n' & d3 & Heq & Hd3 & Hv).
    { intros y Hy _. exact (orden_cerrado var y Hvar Hy). }
    rewrite Hpod in Heq. injection Heq as <- <-. congruence.
Qed.

Lemma probar_valores_fc_simula fuel l d' asig var dv f :
  (∀ h1 a l1 d1,
     h1 !! l1 = Some d1 → prefijo orden_vars a →
     solucion_parcial adyacentes orden_vars d a →
     recortado adyacentes orden_vars d a d1 →
     size a = S (size asig) →
     (forward_checking adyacentes fuel h1 a orden_vars l1).2
     = valor_devuelto (backtracking adyacentes fuel a orden_vars d)) →
  prefijo orden_vars asig →
  solucion_parcial adyacentes orden_vars d asig →
  recortado adyacentes orden_vars d asig d' →
  length orden_vars < S fuel + size asig →
  orden_vars !! size asig = Some var →
  d !! var = Some dv →
  d' !! var = Some (filter (λ x, f x = true) dv) →
  ∀ valores, valores ⊆ dv →
  ∀ h0, h0 !! l = Some d' →
    (probar_valores_fc adyacentes
       (λ h' a l', forward_checking adyacentes fuel h' a orden_vars l')
       h0 asig l var (filter (λ x, f x = true) valores)).2
    = valor_devuelto
        (probar_valores adyacentes
           (λ a, backtracking adyacentes fuel a orden_vars d)
           var asig valores).
Proof.
  intros Hrec Hp Hpar Hrec0 Hfuel Hvar Hdv Hdv'.
  pose proof (list_elem_of_lookup_2 _ _ _ Hvar) as Hvar_in.
  pose proof (prefijo_siguiente_libre _ orden_sin_repetidos _ _ Hp Hvar)
    as Hlibre.
  induction valores as [|x resto IH]; intros Hsub h0 Hl; [done|].
  assert (Hresto : resto ⊆ dv) by (intros y Hy; apply Hsub; by right).
  assert (Hx : x ∈ dv) by (apply Hsub; by left).
  cbn [probar_valores].
  destruct (es_consistente_con_asignacion adyacentes asig var x) eqn:Hc.
  2:{ destruct (f x) eqn:Hf.
      - rewrite filter_cons_True by done. cbn [probar_valores_fc].
        unfold es_consistente_parcial. rewrite Hc. by apply IH.
      - rewrite filter_cons_False by (by rewrite Hf). by apply IH. }
  destruct (prefijo_insert _ orden_sin_repetidos _ _ x Hp Hvar)
    as [Hp1 Hsz1].
  pose proof (solucion_parcial_insert asig var x dv Hp Hvar Hdv Hx Hc Hpar)
    as Hpar1.
  assert (Hfuel1 : length orden_vars < fuel + size (<[var:=x]> asig))
    by lia.
  pose proof (backtracking_decide fuel (<[var:=x]> asig) Hp1 Hpar1 Hfuel1)
    as Hdec.
  assert (Hdel : delete var (<[var:=x]> asig) = asig)
    by by apply delete_insert_id.
  assert (Hsub0 : asig ⊆ <[var:=x]> asig) by by apply insert_subseteq.
  destruct (f x) eqn:Hf.
  - rewrite filter_cons_True by done. cbn [probar_valores_fc].
    unfold es_consistente_parcial. rewrite Hc.
    assert (Hx' : x ∈ filter (λ x, f x = true) dv).
    { by apply list_elem_of_filter. }
    pose proof (podar_dominios_en_busqueda adyacentes orden_vars
                  grafo_sin_lazos orden_cerrado orden_en_grafo
                  h0 l d' (<[var:=x]> asig) var x Hl Hvar_in
                  (recortado_dominios asig d' Hrec0)) as Hpodar.
    destruct (podar_dominios adyacentes h0 l (<[var:=x]> asig) var x)
      as [h1 r1] eqn:Hpod.
    destruct Hpodar as [Hm1 Hr1].
    destruct r1 as [| |[nuevos|]]; [done|done| |].
    + destruct (podar_dominios_recortado h0 l d' asig var x _ h1 nuevos
                  Hl Hvar_in Hlibre Hrec0 Hdv' Hx' Hpod)
        as (d'' & Hd'' & _ & Hrec1).
      specialize (Hrec h1 (<[var:=x]> asig) nuevos d'' Hd'' Hp1 Hpar1 Hrec1
                    Hsz1).
      pose proof (forward_checking_marco adyacentes fuel h1
                    (<[var:=x]> asig) orden_vars nuevos) as Hm2.
      destruct (forward_checking adyacentes fuel h1 (<[var:=x]> asig)
                  orden_vars nuevos) as [h2 r2].
      simpl in Hrec, Hm2.
      destruct (backtracking adyacentes fuel (<[var:=x]> asig) orden_vars d)
        as [| |[sol|a]]; try done; simpl in Hrec; subst r2; [done|].
      destruct Hdec as [-> _]. rewrite lookup_insert_eq, Hdel.
      apply IH; [done|].
      apply (marco_lookup h0 h2); [by eapply marco_trans|done].
    + destruct (backtracking adyacentes fuel (<[var:=x]> asig) orden_vars d)
        as [| |[sol|a]]; try done.
      * exfalso. destruct Hdec as [Hsol Hsubsol].
        destruct Hrec0 as (_ & _ & Hcol).
        assert (Hsolx : sol !! var = Some x).
        { apply (lookup_weaken _ _ _ _ (lookup_insert_eq asig var x)
                   Hsubsol). }
        destruct (podar_dominios_conserva adyacentes orden_vars sol h0 l d'
                    (<[var:=x]> asig) var x
                    (Hcol sol Hsol (transitivity Hsub0 Hsubsol)) Hl Hvar_in
                    Hsolx (orden_en_grafo var Hvar_in))
          as (h' & n' & d3 & Heq & _).
        { intros y Hy _. exact (orden_cerrado var y Hvar_in Hy). }
        rewrite Hpod in Heq. done.
      * destruct Hdec as [-> _]. rewrite lookup_insert_eq, Hdel.
        apply IH; [done|]. by apply (marco_lookup h0 h1).
  - rewrite filter_cons_False by (by rewrite Hf).
    destruct (backtracking adyacentes fuel (<[var:=x]> asig) orden_vars d)
      as [| |[sol|a]]; try done.
    + exfalso. destruct Hdec as [Hsol Hsubsol].
      destruct Hrec0 as (_ & _ & Hcol).
      destruct (proj1 (Hcol sol Hsol (transitivity Hsub0 Hsubsol)) var Hvar_in)
        as (y & dvy & Hy & Hdvy & Hin).
      assert (y = x) as ->.
      { pose proof (lookup_weaken _ _ _ _ (lookup_insert_eq asig var x)
                      Hsubsol). congruence. }
      rewrite Hdv' in Hdvy. injection Hdvy as <-.
      apply list_elem_of_filter in Hin as [Hfx _]. congruence.
    + destruct Hdec as [-> _]. rewrite lookup_insert_eq, Hdel.
      by apply IH.
Qed.

Lemma forward_checking_simula fuel :
  ∀ h asig l d',
    h !! l = Some d' → prefijo orden_vars asig →
    solucion_parcial adyacentes orden_vars d asig →
    recortado adyacentes orden_vars d asig d' →
    length orden_vars < fuel + size asig →
    (forward_checking adyacentes fuel h asig orden_vars l).2
    = valor_devuelto (backtracking adyacentes fuel asig orden_vars d).
Proof.
  induction fuel as [|fuel IH]; intros h asig l d' Hl Hp Hpar Hrec0 Hfuel.
  { destruct Hp as [Hle _]. simpl in Hfuel. lia. }
  cbn [forward_checking backtracking].
  destruct (decide (size asig = length orden_vars)) as [Heq|Hne]; [done|].
  pose proof Hp as [Hle Hpre].
  destruct (lookup_lt_is_Some_2 orden_vars (size asig)) as [var Hvar]; [lia|].
  rewrite Hvar, Hl.
  pose proof (list_elem_of_lookup_2 _ _ _ Hvar) as Hvar_in.
  pose proof (prefijo_siguiente_libre _ orden_sin_repetidos _ _ Hp Hvar)
    as Hlibre.
  destruct (dominios_completos var Hvar_in) as [dv Hdv].
  destruct (recortado_dominios asig d' Hrec0 var Hvar_in) as [dv' Hdv'].
  rewrite Hdv, Hdv'.
  assert (Hfil : filtrada dv dv').
  { destruct Hrec0 as (_ & Hfil & _). apply (Hfil var); try done.
    by apply not_elem_of_dom. }
  destruct Hfil as [f ->].
  apply (probar_valores_fc_simula fuel l d' asig var dv f); try done.
  intros h1 a l1 d1 H1 H2 H3 H4 H5. apply (IH h1 a l1 d1); try done.
  lia.
Qed.

(** *** The search with propagation *)

Variable variables : list string.
Variable pasos_ac3 : nat.

Hypothesis mismas_variables : ∀ v, v ∈ variables ↔ v ∈ orden_vars.
Hypothesis pasos_suficientes : cota_ac3 adyacentes variables d < pasos_ac3.

(** The loop of [ac3_val] removes every occurrence of the values it removes. *)
Lemma ac3_bucle_val_filtrada fuel :
  ∀ cola d1 b d2,
    (∀ a c, (a, c) ∈ cola → a ∈ orden_vars ∧ c ∈ orden_vars ∧ a ≠ c) →
    (∀ v, v ∈ orden_vars → is_Some (d1 !! v)) →
    ac3_bucle_val adyacentes fuel cola d1 = Retorna (b, d2) →
    ∀ u dv dv2, d1 !! u = Some dv → d2 !! u = Some dv2 → filtrada dv dv2.
Proof.
  induction fuel as [|fuel IH]; intros cola d1 b d2 Hcola Hdoms; simpl;
    [done|].
  destruct cola as [|[xi xj] resto].
  { intros [= _ <-] u dv dv2 Hu Hu2.
    assert (dv2 = dv) as -> by congruence. apply filtrada_refl. }
  destruct (Hcola xi xj) as (Hxi & Hxj & Hne); [by left|].
  assert (Hresto : ∀ a c, (a, c) ∈ resto →
                          a ∈ orden_vars ∧ c ∈ orden_vars ∧ a ≠ c).
  { intros a c Hac. apply Hcola. by right. }
  destruct (Hdoms xi Hxi) as [dxi Hdxi].
  destruct (Hdoms xj Hxj) as [dxj Hdxj].
  rewrite Hdxi,
    (revisar_arco_val_explicito adyacentes xi xj d1 dxi dxj Hne Hdxi Hdxj).
  set (dxi' := filter (λ v, soportado adyacentes xi xj dxj v = true) dxi).
  assert (Hdoms1 : ∀ v, v ∈ orden_vars → is_Some (<[xi := dxi']> d1 !! v)).
  { intros v Hv. destruct (decide (xi = v)) as [<-|Hnv].
    - rewrite lookup_insert_eq. by eauto.
    - rewrite lookup_insert_ne by done. by apply Hdoms. }
  assert (Hpaso : ∀ u dv dv2,
            d1 !! u = Some dv →
            (∀ dv1, <[xi := dxi']> d1 !! u = Some dv1 → filtrada dv1 dv2) →
            filtrada dv dv2).
  { intros u dv dv2 Hu Hsig. destruct (decide (xi = u)) as [<-|Hnu].
    - assert (dv = dxi) as -> by congruence.
      eapply filtrada_trans; [|apply Hsig, lookup_insert_eq].
      apply (filtrada_filter (soportado adyacentes xi xj dxj)),
        filtrada_refl.
    - apply Hsig. by rewrite lookup_insert_ne. }
  destruct (negb _).
  - rewrite lookup_insert_eq.
    destruct (decide (length dxi' = 0)).
    { intros [= _ <-] u dv dv2 Hu Hu2. apply (Hpaso u dv dv2 Hu).
      intros dv1 Hdv1. assert (dv2 = dv1) as -> by congruence.
      apply filtrada_refl. }
    destruct (orden_en_grafo xi Hxi) as [vs Hvs]. rewrite Hvs.
    assert (Hcola1 : ∀ a c,
              (a, c) ∈ resto ++ ((λ xk, (xk, xi)) <$>
                                   filter (λ xk, xk ≠ xj) vs) →
              a ∈ orden_vars ∧ c ∈ orden_vars ∧ a ≠ c).
    { intros a c [Hac|Hac]%elem_of_app; [by apply Hresto|].
      apply list_elem_of_fmap in Hac as (xk & [= -> ->] & Hxk).
      apply list_elem_of_filter in Hxk as [_ Hxk].
      assert (Hvec : xk ∈ vecinos_de adyacentes xi).
      { unfold vecinos_de. by rewrite Hvs. }
      split; [exact (orden_cerrado xi xk Hxi Hvec)|]. split; [done|].
      intros ->. by apply (grafo_sin_lazos xi). }
    intros Hr u dv dv2 Hu Hu2. apply (Hpaso u dv dv2 Hu).
    intros dv1 Hdv1.
    exact (IH _ _ _ _ Hcola1 Hdoms1 Hr u dv1 dv2 Hdv1 Hu2).
  - intros Hr u dv dv2 Hu Hu2. apply (Hpaso u dv dv2 Hu).
    intros dv1 Hdv1.
    exact (IH _ _ _ _ Hresto Hdoms1 Hr u dv1 dv2 Hdv1 Hu2).
Qed.

Lemma ac3_val_filtrada d1 b d2 :
  (∀ v, v ∈ orden_vars → is_Some (d1 !! v)) →
  ac3_val adyacentes variables pasos_ac3 d1 = Retorna (b, d2) →
  ∀ u dv dv2, d1 !! u = Some dv → d2 !! u = Some dv2 → filtrada dv dv2.
Proof.
  intros Hdoms. unfold ac3_val.
  destruct (arcos_iniciales adyacentes variables) as [cola|] eqn:Hc; [|done].
  apply ac3_bucle_val_filtrada; [|done].
  intros a c Hac.
  apply (arcos_iniciales_elem adyacentes variables cola a c Hc) in Hac
    as [Ha Hvec].
  apply mismas_variables in Ha.
  split; [done|]. split; [exact (orden_cerrado a c Ha Hvec)|].
  intros ->. by apply (grafo_sin_lazos c).
Qed.

(** A run of [ac3_val] on trimmed domains that answers [True] leaves them
    trimmed; it answers, and [False] only when no colouring is left. *)
Lemma ac3_val_recortado asig d1 :
  recortado adyacentes orden_vars d asig d1 →
  match ac3_val adyacentes variables pasos_ac3 d1 with
  | Retorna (b, d2) =>
      reducido d1 d2 ∧
      if b then recortado adyacentes orden_vars d asig d2
      else ∀ sol, coloreo_valido adyacentes orden_vars d sol →
                  asig ⊆ sol → False
  | _ => False
  end.
Proof.
  intros Hrec0. pose proof Hrec0 as (Hred & Hfil & Hcol).
  pose proof (recortado_dominios asig d1 Hrec0) as Hdoms.
  pose proof (ac3_val_en_busqueda adyacentes variables orden_vars pasos_ac3
                grafo_sin_lazos orden_cerrado orden_en_grafo
                mismas_variables d1 Hdoms) as Hac3.
  pose proof (ac3_val_filtrada d1) as Hfil2.
  pose proof (cota_ac3_reducido adyacentes variables d d1 Hred) as Hcota.
  destruct (ac3_val adyacentes variables pasos_ac3 d1) as [| |[b d2]];
    [lia|done|].
  destruct Hac3 as [Hred2 Hcons]. split; [done|].
  destruct b.
  - split; [by eapply reducido_trans|]. split.
    + intros u dv dv2 Hu Hdu Hdu2.
      destruct (reducido_is_Some d d1 u Hred) as [dv1 Hdv1]; [by eauto|].
      eapply filtrada_trans; [by eapply Hfil|].
      by apply (Hfil2 true d2 Hdoms eq_refl u dv1 dv2).
    + intros sol Hsol Hsub. by apply Hcons, Hcol.
  - intros sol Hsol Hsub.
    by destruct (Hcons sol (Hcol sol Hsol Hsub)) as [? _].
Qed.

Lemma probar_valores_prop_val_simula fuel l d' asig var dv f :
  (∀ h1 a l1 d1,
     h1 !! l1 = Some d1 → prefijo orden_vars a →
     solucion_parcial adyacentes orden_vars d a →
     recortado adyacentes orden_vars d a d1 →
     size a = S (size asig) →
     (backtracking_con_propagacion_val adyacentes variables pasos_ac3 fuel
        h1 a orden_vars l1).2
     = valor_devuelto (backtracking adyacentes fuel a orden_vars d)) →
  prefijo orden_vars asig →
  solucion_parcial adyacentes orden_vars d asig →
  recortado adyacentes orden_vars d asig d' →
  length orden_vars < S fuel + size asig →
  orden_vars !! size asig = Some var →
  d !! var = Some dv →
  d' !! var = Some (filter (λ x, f x = true) dv) →
  ∀ valores, valores ⊆ dv →
  ∀ h0, h0 !! l = Some d' →
    (probar_valores_prop_val adyacentes variables pasos_ac3
       (λ h' a l', backtracking_con_propagacion_val adyacentes variables
                     pasos_ac3 fuel h' a orden_vars l')
       h0 asig l var (filter (λ x, f x = true) valores)).2
    = valor_devuelto
        (probar_valores adyacentes
           (λ a, backtracking adyacentes fuel a orden_vars d)
           var asig valores).
Proof.
  intros Hrec Hp Hpar Hrec0 Hfuel Hvar Hdv Hdv'.
  pose proof (list_elem_of_lookup_2 _ _ _ Hvar) as Hvar_in.
  pose proof (prefijo_siguiente_libre _ orden_sin_repetidos _ _ Hp Hvar)
    as Hlibre.
  induction valores as [|x resto IH]; intros Hsub h0 Hl; [done|].
  assert (Hresto : resto ⊆ dv) by (intros y Hy; apply Hsub; by right).
  assert (Hx : x ∈ dv) by (apply Hsub; by left).
  cbn [probar_valores].
  destruct (es_consistente_con_asignacion adyacentes asig var x) eqn:Hc.
  2:{ destruct (f x) eqn:Hf.
      - rewrite filter_cons_True by done. cbn [probar_valores_prop_val].
        unfold es_consistente_parcial. rewrite Hc. by apply IH.
      - rewrite filter_cons_False by (by rewrite Hf). by apply IH. }
  destruct (prefijo_insert _ orden_sin_repetidos _ _ x Hp Hvar)
    as [Hp1 Hsz1].
  pose proof (solucion_parcial_insert asig var x dv Hp Hvar Hdv Hx Hc Hpar)
    as Hpar1.
  assert (Hfuel1 : length orden_vars < fuel + size (<[var:=x]> asig))
    by lia.
  pose proof (backtracking_decide fuel (<[var:=x]> asig) Hp1 Hpar1 Hfuel1)
    as Hdec.
  assert (Hdel : delete var (<[var:=x]> asig) = asig)
    by by apply delete_insert_id.
  assert (Hsub0 : asig ⊆ <[var:=x]> asig) by by apply insert_subseteq.
  destruct (f x) eqn:Hf.
  - rewrite filter_cons_True by done. cbn [probar_valores_prop_val].
    unfold es_consistente_parcial, podar_dominios_forward_val. rewrite Hc.
    assert (Hx' : x ∈ filter (λ x, f x = true) dv).
    { by apply list_elem_of_filter. }
    pose proof (podar_dominios_en_busqueda adyacentes orden_vars
                  grafo_sin_lazos orden_cerrado orden_en_grafo
                  h0 l d' (<[var:=x]> asig) var x Hl Hvar_in
                  (recortado_dominios asig d' Hrec0)) as Hpodar.
    destruct (podar_dominios adyacentes h0 l (<[var:=x]> asig) var x)
      as [h1 r1] eqn:Hpod.
    destruct Hpodar as [Hm1 Hr1].
    destruct r1 as [| |[nuevos|]]; [done|done| |].
    + destruct (podar_dominios_recortado h0 l d' asig var x _ h1 nuevos
                  Hl Hvar_in Hlibre Hrec0 Hdv' Hx' Hpod)
        as (d'' & Hd'' & _ & Hrec1).
      rewrite Hd''. unfold deepcopy.
      set (copia := fresh (dom h1)).
      assert (Hfresh : copia ∉ dom h1) by apply is_fresh.
      pose proof (ac3_val_recortado (<[var:=x]> asig) d'' Hrec1) as Hac3.
      destruct (ac3_val adyacentes variables pasos_ac3 d'') as [| |[b d2]];
        [done|done|].
      destruct Hac3 as [_ Hac3].
      set (h2 := <[copia := d2]> (<[copia := d'']> h1)).
      assert (Hm12 : marco h1 h2).
      { intros y Hy. unfold h2. rewrite !lookup_insert_ne; [done| |];
          by intros <-. }
      pose proof (marco_trans _ _ _ Hm1 Hm12) as Hm02.
      destruct b.
      * assert (Hl2 : h2 !! copia = Some d2) by apply lookup_insert_eq.
        specialize (Hrec h2 (<[var:=x]> asig) copia d2 Hl2 Hp1 Hpar1 Hac3
                      Hsz1).
        pose proof (backtracking_con_propagacion_val_marco adyacentes variables
                      pasos_ac3 fuel h2 (<[var:=x]> asig) orden_vars copia)
          as Hm3.
        destruct (backtracking_con_propagacion_val adyacentes variables
                    pasos_ac3 fuel h2 (<[var:=x]> asig) orden_vars copia)
          as [h3 r3].
        simpl in Hrec, Hm3.
        destruct (backtracking adyacentes fuel (<[var:=x]> asig)
                    orden_vars d)
          as [| |[sol|a]]; try done; simpl in Hrec; subst r3; [done|].
        destruct Hdec as [-> _]. rewrite lookup_insert_eq, Hdel.
        apply IH; [done|].
        apply (marco_lookup h0 h3); [by eapply marco_trans|done].
      * destruct (backtracking adyacentes fuel (<[var:=x]> asig)
                    orden_vars d)
          as [| |[sol|a]]; try done.
        -- exfalso. destruct Hdec as [Hsol Hsubsol].
           by apply (Hac3 sol).
        -- destruct Hdec as [-> _]. rewrite lookup_insert_eq, Hdel.
           apply IH; [done|]. by apply (marco_lookup h0 h2).
    + destruct (backtracking adyacentes fuel (<[var:=x]> asig) orden_vars d)
        as [| |[sol|a]]; try done.
      * exfalso. destruct Hdec as [Hsol Hsubsol].
        destruct Hrec0 as (_ & _ & Hcol).
        assert (Hsolx : sol !! var = Some x).
        { apply (lookup_weaken _ _ _ _ (lookup_insert_eq asig var x)
                   Hsubsol). }
        destruct (podar_dominios_conserva adyacentes orden_vars sol h0 l d'
                    (<[var:=x]> asig) var x
                    (Hcol sol Hsol (transitivity Hsub0 Hsubsol)) Hl Hvar_in
                    Hsolx (orden_en_grafo var Hvar_in))
          as (h' & n' & d3 & Heq & _).
        { intros y Hy _. exact (orden_cerrado var y Hvar_in Hy). }
        rewrite Hpod in Heq. done.
      * destruct Hdec as [-> _]. rewrite lookup_insert_eq, Hdel.
        apply IH; [done|]. by apply (marco_lookup h0 h1).
  - rewrite filter_cons_False by (by rewrite Hf).
    destruct (backtracking adyacentes fuel (<[var:=x]> asig) orden_vars d)
      as [| |[sol|a]]; try done.
    + exfalso. destruct Hdec as [Hsol Hsubsol].
      destruct Hrec0 as (_ & _ & Hcol).
      destruct (proj1 (Hcol sol Hsol (transitivity Hsub0 Hsubsol)) var Hvar_in)
        as (y & dvy & Hy & Hdvy & Hin).
      assert (y = x) as ->.
      { pose proof (lookup_weaken _ _ _ _ (lookup_insert_eq asig var x)
                      Hsubsol). congruence. }
      rewrite Hdv' in Hdvy. injection Hdvy as <-.
      apply list_elem_of_filter in Hin as [Hfx _]. congruence.
    + destruct Hdec as [-> _]. rewrite lookup_insert_eq, Hdel.
      by apply IH.
Qed.

Lemma backtracking_con_propagacion_val_simula fuel :
  ∀ h asig l d',
    h !! l = Some d' → prefijo orden_vars asig →
    solucion_parcial adyacentes orden_vars d asig →
    recortado adyacentes orden_vars d asig d' →
    length orden_vars < fuel + size asig →
    (backtracking_con_propagacion_val adyacentes variables pasos_ac3 fuel
       h asig orden_vars l).2
    = valor_devuelto (backtracking adyacentes fuel asig orden_vars d).
Proof.
  induction fuel as [|fuel IH]; intros h asig l d' Hl Hp Hpar Hrec0 Hfuel.
  { destruct Hp as [Hle _]. simpl in Hfuel. lia. }
  cbn [backtracking_con_propagacion_val backtracking].
  destruct (decide (size asig = length orden_vars)) as [Heq|Hne]; [done|].
  pose proof Hp as [Hle Hpre].
  destruct (lookup_lt_is_Some_2 orden_vars (size asig)) as [var Hvar]; [lia|].
  rewrite Hvar, Hl.
  pose proof (list_elem_of_lookup_2 _ _ _ Hvar) as Hvar_in.
  pose proof (prefijo_siguiente_libre _ orden_sin_repetidos _ _ Hp Hvar)
    as Hlibre.
  destruct (dominios_completos var Hvar_in) as [dv Hdv].
  destruct (recortado_dominios asig d' Hrec0 var Hvar_in) as [dv' Hdv'].
  rewrite Hdv, Hdv'.
  assert (Hfil : filtrada dv dv').
  { destruct Hrec0 as (_ & Hfil & _). apply (Hfil var); try done.
    by apply not_elem_of_dom. }
  destruct Hfil as [f ->].
  apply (probar_valores_prop_val_simula fuel l d' asig var dv f); try done.
  intros h1 a l1 d1 H1 H2 H3 H4 H5. apply (IH h1 a l1 d1); try done.
  lia.
Qed.

End Simulacion.


(** X13: [forward_checking] returns what [backtracking] returns.  On the
    same order and domains, from the empty dictionary and with a recursion
    depth above the number of variables, both return the same dictionary or
    both return [None]: pruning the domains changes neither the first
    colouring found nor whether one is found.  The graph is symmetric and
    has no loops, the order has no repeated variable and holds the
    neighbours of its variables, and every variable of it has an adjacency
    entry and a domain. *)
Theorem forward_checking_devuelve_lo_que_backtracking
    adyacentes orden_vars fuel h dominios d :
  simetrica adyacentes → sin_lazos adyacentes →
  NoDup orden_vars → cerrado adyacentes orden_vars →
  (∀ v, v ∈ orden_vars → is_Some (adyacentes !! v)) →
  h !! dominios = Some d →
  (∀ v, v ∈ orden_vars → is_Some (d !! v)) →
  length orden_vars < fuel →
  (forward_checking adyacentes fuel h ∅ orden_vars dominios).2
  = valor_devuelto (backtracking adyacentes fuel ∅ orden_vars d).
Proof.
  intros Hsim Hlazos Hnd Hcerr Hady Hl Hdoms Hfuel.
  apply (forward_checking_simula adyacentes orden_vars d Hnd Hsim Hlazos
           Hdoms Hcerr Hady fuel h ∅ dominios d Hl).
  - apply prefijo_vacio.
  - apply solucion_parcial_vacia.
  - apply recortado_inicial.
  - rewrite map_size_empty. lia.
Qed.

Lemma forward_checking_devuelve_lo_que_backtracking_witness :
  simetrica Australia.adyacentes ∧ sin_lazos Australia.adyacentes ∧
  NoDup Australia.variables ∧
  cerrado Australia.adyacentes Australia.variables ∧
  (∀ v, v ∈ Australia.variables → is_Some (Australia.adyacentes !! v)) ∧
  Ejemplos.almacen_base !! 0 = Some Australia.dominio_base ∧
  (∀ v, v ∈ Australia.variables → is_Some (Australia.dominio_base !! v)) ∧
  length Australia.variables < 8 ∧
  (forward_checking Australia.adyacentes 8 Ejemplos.almacen_base ∅
                    Australia.variables 0).2
  = valor_devuelto (backtracking Australia.adyacentes 8 ∅ Australia.variables
                                 Australia.dominio_base).
Proof.
  assert (H3 : NoDup Australia.variables) by decidir.
  assert (H6 : Ejemplos.almacen_base !! 0 = Some Australia.dominio_base)
    by done.
  assert (H8 : length Australia.variables < 8) by (simpl; lia).
  split; [exact adyacentes_simetrica|]. split; [exact adyacentes_sin_lazos|].
  split; [exact H3|]. split; [exact australia_cerrado|].
  split; [exact adyacentes_completo|]. split; [exact H6|].
  split; [exact dominio_base_completo|]. split; [exact H8|].
  exact (forward_checking_devuelve_lo_que_backtracking
           Australia.adyacentes Australia.variables 8 Ejemplos.almacen_base
           0 Australia.dominio_base
           adyacentes_simetrica adyacentes_sin_lazos H3 australia_cerrado
           adyacentes_completo H6 dominio_base_completo H8).
Defined.

(** ** File 20: the length of the initial queue of [ac3] *)

Lemma arcos_iniciales_length adyacentes vars cola :
  arcos_iniciales adyacentes vars = Some cola →
  length cola ≤ length vars * grado_max adyacentes.
Proof.
  revert cola. induction vars as [|x vars IH]; intros cola; simpl.
  - by intros [= <-].
  - destruct (adyacentes !! x) as [vs|] eqn:Hx; [|done].
    destruct (arcos_iniciales adyacentes vars) as [cola0|]; [|done].
    intros [= <-]. rewrite length_app, length_fmap.
    pose proof (grado_max_cota adyacentes x vs Hx).
    specialize (IH cola0 eq_refl). lia.
Qed.


(** * File 20 on dictionaries of list objects

    [revisar_arco], [ac3] and [backtracking_con_propagacion] as the source
    has them, on dictionaries whose keys hold list objects.  What holds
    whatever lists the keys hold is proved on the objects; what needs every
    key to hold a list of its own is carried over from the loops on values,
    which such a dictionary follows step by step. *)

(** ** Reading and writing a dictionary *)

Section Diccionario.

Lemma lookup_vista d k : vista d !! k = leer d k.
Proof. unfold vista, leer. by rewrite lookup_omap. Qed.

Lemma escribir_id d a l : listas d !! a = Some l → escribir d a l = d.
Proof.
  intros Ha. destruct d as [c m]. unfold escribir. simpl in *.
  by rewrite insert_id.
Qed.

Lemma escribir_escribir d a l1 l2 :
  escribir (escribir d a l1) a l2 = escribir d a l2.
Proof. unfold escribir. simpl. by rewrite insert_insert_eq. Qed.

Lemma leer_escribir d a l k :
  leer (escribir d a l) k
  = if decide (claves d !! k = Some a) then Some l else leer d k.
Proof.
  unfold leer, escribir. simpl.
  destruct (claves d !! k) as [a'|] eqn:Hk; simpl.
  - destruct (decide (Some a' = Some a)) as [[= ->]|Hne].
    + by rewrite lookup_insert_eq.
    + rewrite lookup_insert_ne; [done|]. intros ->. by apply Hne.
  - done.
Qed.

Lemma leer_escribir_is_Some d a l k :
  is_Some (leer d k) → is_Some (leer (escribir d a l) k).
Proof. rewrite leer_escribir. destruct (decide _); [by eauto|done]. Qed.

(** Shrinking one list object shrinks what the keys read. *)
Lemma reducido_escribir d a l l' :
  listas d !! a = Some l → l' `sublist_of` l →
  reducido (vista d) (vista (escribir d a l')).
Proof.
  intros Ha Hsub k. rewrite !lookup_vista, leer_escribir.
  destruct (decide (claves d !! k = Some a)) as [Hk|Hk].
  - unfold leer. rewrite Hk. simpl. by rewrite Ha.
  - by destruct (leer d k).
Qed.

Lemma vista_escribir_sin_compartir d xi a l :
  sin_compartir d → claves d !! xi = Some a →
  vista (escribir d a l) = <[xi := l]> (vista d).
Proof.
  intros Hsc Hxi. apply map_eq. intros k.
  rewrite lookup_vista, leer_escribir.
  destruct (decide (claves d !! k = Some a)) as [Hk|Hk].
  - rewrite (Hsc k xi a Hk Hxi). by rewrite lookup_insert_eq.
  - rewrite lookup_insert_ne, lookup_vista; [done|].
    intros <-. by apply Hk.
Qed.

Lemma sin_compartir_escribir d a l :
  sin_compartir d → sin_compartir (escribir d a l).
Proof. done. Qed.

Lemma asignar_fresco d :
  let a := fresh (dom (listas d) ∪ map_img (claves d)) in
  listas d !! a = None ∧ ∀ k, claves d !! k ≠ Some a.
Proof.
  simpl. set (a := fresh _).
  assert (Ha : a ∉ dom (listas d) ∪ (map_img (claves d) : gset nat))
    by apply is_fresh.
  apply not_elem_of_union in Ha as [Ha1 Ha2]. split.
  - by apply not_elem_of_dom.
  - intros k Hk. apply Ha2. by eapply elem_of_map_img_2.
Qed.

Lemma leer_asignar d k l k' :
  leer (asignar d k l) k' = if decide (k = k') then Some l else leer d k'.
Proof.
  destruct (asignar_fresco d) as [Hl Hc].
  unfold leer, asignar. simpl. destruct (decide (k = k')) as [<-|Hne].
  - rewrite lookup_insert_eq. simpl. by rewrite lookup_insert_eq.
  - rewrite lookup_insert_ne by done.
    destruct (claves d !! k') as [a'|] eqn:Hk'; simpl; [|done].
    rewrite lookup_insert_ne; [done|]. intros <-. by apply (Hc k').
Qed.

Lemma vista_asignar d k l : vista (asignar d k l) = <[k := l]> (vista d).
Proof.
  apply map_eq. intros k'. rewrite lookup_vista, leer_asignar.
  destruct (decide (k = k')) as [<-|Hne].
  - by rewrite lookup_insert_eq.
  - by rewrite lookup_insert_ne, lookup_vista.
Qed.

Lemma sin_compartir_asignar d k l :
  sin_compartir d → sin_compartir (asignar d k l).
Proof.
  intros Hsc k1 k2 a. destruct (asignar_fresco d) as [_ Hc].
  unfold asignar. simpl.
  destruct (decide (k = k1)) as [<-|H1], (decide (k = k2)) as [<-|H2];
    rewrite ?lookup_insert_eq, ?lookup_insert_ne by done; try done.
  - intros [= <-] H. by destruct (Hc k2).
  - intros H [= <-]. by destruct (Hc k1).
  - apply Hsc.
Qed.

Lemma de_valores_correcto m :
  vista (de_valores m) = m ∧ sin_compartir (de_valores m).
Proof.
  unfold de_valores.
  apply (map_fold_weak_ind
           (λ d m, vista d = m ∧ sin_compartir d)).
  - split; [done|]. intros k1 k2 a Hk. simpl in Hk.
    by rewrite lookup_empty in Hk.
  - intros k l m' d _ [Hv Hsc]. split.
    + by rewrite vista_asignar, Hv.
    + by apply sin_compartir_asignar.
Qed.

End Diccionario.

(** ** [revisar_arco] and [ac3], whatever lists the keys hold *)

Section TotalValores.

Lemma total_valores_estricto m m' k l l' :
  reducido m m' → m !! k = Some l → m' !! k = Some l' →
  length l' < length l → total_valores m' < total_valores m.
Proof.
  intros Hred Hk Hk' Hlt.
  pose proof (total_valores_insert m' k l' l Hk') as Hins.
  assert (Hred0 : reducido m (<[k := l]> m')).
  { intros x. destruct (decide (k = x)) as [<-|Hne].
    - by rewrite Hk, lookup_insert_eq.
    - rewrite lookup_insert_ne by done. apply Hred. }
  apply total_valores_reducido in Hred0. lia.
Qed.

End TotalValores.

Section RevisarObjeto.

Variable adyacentes : gmap string (list string).

(** Whatever the dictionary, [revisar_arco] leaves the keys on their list
    objects and only shortens lists; when it reports a change the lists
    have lost a value. *)
Lemma revisar_valores_encoge xi xj pendientes :
  ∀ c d c' d',
    revisar_valores adyacentes xi xj pendientes c d = Retorna (c', d') →
    claves d' = claves d ∧
    reducido (vista d) (vista d') ∧
    (c = true → c' = true) ∧
    (c = false → c' = true →
     total_valores (vista d') < total_valores (vista d)) ∧
    (c' = false → d' = d).
Proof.
  induction pendientes as [|v resto IH]; intros c d c' d'; simpl.
  - intros [= <- <-]. split; [done|]. split; [apply reducido_refl|].
    split; [done|]. split; [congruence|done].
  - destruct (leer d xj) as [dxj|]; [|done].
    destruct (existsb _ dxj); [by apply IH|].
    destruct (claves d !! xi) as [a|] eqn:Hxi; [|done].
    destruct (listas d !! a) as [dxi|] eqn:Ha; [|done].
    destruct (quitar v dxi) as [dxi'|] eqn:Hq; [|done].
    intros Hr. apply IH in Hr as (Hcl & Hred & Hc & _ & _).
    pose proof (quitar_sublist _ _ _ Hq) as Hsub.
    pose proof (reducido_escribir d a dxi dxi' Ha Hsub) as Hred1.
    assert (Hred2 : reducido (vista d) (vista d'))
      by by eapply reducido_trans.
    specialize (Hc eq_refl). subst c'.
    split; [done|]. split; [done|]. split; [done|]. split; [|done].
    intros _ _.
    assert (Hlt : total_valores (vista (escribir d a dxi'))
                  < total_valores (vista d)).
    { apply (total_valores_estricto _ _ xi dxi dxi'); [done| | |].
      - rewrite lookup_vista. unfold leer. rewrite Hxi. simpl. done.
      - rewrite lookup_vista, leer_escribir. by rewrite decide_True.
      - apply quitar_length in Hq. lia. }
    pose proof (total_valores_reducido _ _ Hred). lia.
Qed.

Lemma revisar_valores_no_agota xi xj pendientes c d :
  revisar_valores adyacentes xi xj pendientes c d ≠ SinCombustible.
Proof.
  revert c d. induction pendientes as [|v resto IH]; intros c d; simpl;
    [done|].
  destruct (leer d xj) as [dxj|]; [|done].
  destruct (existsb _ dxj); [by apply IH|].
  destruct (claves d !! xi) as [a|]; [|done].
  destruct (listas d !! a) as [dxi|]; [|done].
  destruct (quitar v dxi); [by apply IH|done].
Qed.

Lemma revisar_arco_encoge xi xj d c' d' :
  revisar_arco adyacentes xi xj d = Retorna (c', d') →
  claves d' = claves d ∧
  reducido (vista d) (vista d') ∧
  (c' = true → total_valores (vista d') < total_valores (vista d)) ∧
  (c' = false → d' = d).
Proof.
  unfold revisar_arco. destruct (leer d xi); [|done].
  intros (H1 & H2 & _ & H4 & H5)%revisar_valores_encoge.
  split; [done|]. split; [done|]. split; [by apply H4|done].
Qed.

Lemma sublist_cola (v : string) p l :
  v :: p `sublist_of` l → p `sublist_of` l.
Proof. intros H. etrans; [|exact H]. by apply sublist_cons. Qed.

(** The values still to visit are in the list, whatever was removed. *)
Lemma quitar_pendientes v pendientes l :
  v :: pendientes `sublist_of` l →
  ∃ l', quitar v l = Some l' ∧ pendientes `sublist_of` l'.
Proof.
  induction l as [|x l IH]; intros Hsub.
  { by apply sublist_nil_r in Hsub. }
  apply sublist_cons_r in Hsub as [Hsub|(p' & [= <- <-] & Hsub)]; simpl.
  - destruct (decide (x = v)) as [->|Hne].
    + exists l. split; [done|]. by eapply sublist_cola.
    + destruct (IH Hsub) as (l' & -> & Hl'). exists (x :: l').
      split; [done|]. by apply sublist_cons.
  - rewrite decide_True by done. by exists l.
Qed.

(** With a list under both keys [revisar_arco] raises nothing. *)
Lemma revisar_valores_retorna xi xj a pendientes :
  ∀ c d l,
    claves d !! xi = Some a → listas d !! a = Some l →
    pendientes `sublist_of` l → is_Some (leer d xj) →
    ∃ r, revisar_valores adyacentes xi xj pendientes c d = Retorna r.
Proof.
  induction pendientes as [|v resto IH]; intros c d l Hxi Ha Hsub Hxj; simpl.
  { by eauto. }
  destruct Hxj as [dxj Hxj]. rewrite Hxj.
  destruct (existsb _ dxj).
  { apply (IH c d l Hxi Ha); [by eapply sublist_cola|by eauto]. }
  rewrite Hxi, Ha.
  destruct (quitar_pendientes v resto l Hsub) as (l' & -> & Hsub').
  apply (IH true (escribir d a l') l' Hxi); [|done|].
  - unfold escribir. simpl. by rewrite lookup_insert_eq.
  - apply leer_escribir_is_Some. by eauto.
Qed.

Lemma revisar_arco_retorna_siempre xi xj d :
  is_Some (leer d xi) → is_Some (leer d xj) →
  ∃ r, revisar_arco adyacentes xi xj d = Retorna r.
Proof.
  intros [l Hl] Hxj. unfold revisar_arco. rewrite Hl.
  unfold leer in Hl. destruct (claves d !! xi) as [a|] eqn:Hxi; [|done].
  simpl in Hl. by apply (revisar_valores_retorna xi xj a l false d l).
Qed.

(** When every value of [xi] has a support nothing is written. *)
Lemma revisar_arco_sin_cambios xi xj d :
  arco_consistente adyacentes (vista d) xi xj →
  revisar_arco adyacentes xi xj d = Retorna (false, d).
Proof.
  intros (dxi & Hxi & Hsop). rewrite lookup_vista in Hxi.
  unfold revisar_arco. rewrite Hxi.
  assert (Hall : ∀ v, v ∈ dxi → ∃ dxj, leer d xj = Some dxj ∧
                   existsb (λ w, no_conflicto_binario adyacentes xi v xj w)
                           dxj = true).
  { intros v Hv. destruct (Hsop v Hv) as (dxj & w & Hxj & Hw & Hc).
    rewrite lookup_vista in Hxj. exists dxj. split; [done|].
    apply existsb_exists. exists w. split; [by apply list_elem_of_In|done]. }
  clear Hxi Hsop. induction dxi as [|v dxi IH]; simpl; [done|].
  destruct (Hall v) as (dxj & -> & ->); [by left|].
  apply IH. intros u Hu. apply Hall. by right.
Qed.

End RevisarObjeto.

Section AC3Objeto.

Variable adyacentes : gmap string (list string).

(** Whatever it answers, the loop of [ac3] leaves the keys on their list
    objects and only shortens lists. *)
Lemma ac3_bucle_encoge fuel :
  ∀ cola d b d',
    ac3_bucle adyacentes fuel cola d = Retorna (b, d') →
    claves d' = claves d ∧ reducido (vista d) (vista d').
Proof.
  induction fuel as [|fuel IH]; intros cola d b d'; simpl; [done|].
  destruct cola as [|[xi xj] resto].
  { intros [= _ <-]. split; [done|apply reducido_refl]. }
  destruct (leer d xi) as [antes|]; [|done].
  destruct (revisar_arco adyacentes xi xj d) as [| |[c d1]] eqn:Hrev;
    try done.
  apply revisar_arco_encoge in Hrev as (Hcl & Hred & _ & _).
  assert (Hpaso : ∀ cola',
            ac3_bucle adyacentes fuel cola' d1 = Retorna (b, d') →
            claves d' = claves d ∧ reducido (vista d) (vista d')).
  { intros cola' [Hcl' Hred']%IH. split; [congruence|].
    by eapply reducido_trans. }
  destruct c; [|by apply Hpaso].
  destruct (leer d1 xi) as [despues|]; [|done].
  destruct (decide (length despues = 0)); [by intros [= _ <-]|].
  destruct (adyacentes !! xi); [|done]. by apply Hpaso.
Qed.

(** The loop ends: a turn that adds arcs removes a value. *)
Lemma ac3_bucle_acaba g fuel :
  (∀ xi vs, adyacentes !! xi = Some vs → length vs ≤ g) →
  ∀ cola d,
    length cola + g * total_valores (vista d) < fuel →
    ac3_bucle adyacentes fuel cola d ≠ SinCombustible.
Proof.
  intros Hg. induction fuel as [|fuel IH]; intros cola d Hf; [lia|]. simpl.
  destruct cola as [|[xi xj] resto]; [done|]. simpl in Hf.
  destruct (leer d xi) as [antes|]; [|done].
  destruct (revisar_arco adyacentes xi xj d) as [| |[c d1]] eqn:Hrev.
  - unfold revisar_arco in Hrev. destruct (leer d xi); [|done].
    by apply revisar_valores_no_agota in Hrev.
  - done.
  - apply revisar_arco_encoge in Hrev as (_ & Hred & Hlt & _).
    apply total_valores_reducido in Hred.
    destruct c.
    + specialize (Hlt eq_refl).
      destruct (leer d1 xi) as [despues|]; [|done].
      destruct (decide (length despues = 0)); [done|].
      destruct (adyacentes !! xi) as [vs|] eqn:Hvs; [|done].
      apply IH. rewrite length_app, length_fmap.
      pose proof (length_filter (λ xk, xk ≠ xj) vs).
      pose proof (Hg xi vs Hvs). nia.
    + apply IH. nia.
Qed.

Lemma ac3_bucle_falso_vacio fuel :
  ∀ cola d d',
    ac3_bucle adyacentes fuel cola d = Retorna (false, d') →
    ∃ xi, leer d' xi = Some [].
Proof.
  induction fuel as [|fuel IH]; intros cola d d'; simpl; [done|].
  destruct cola as [|[xi xj] resto]; [done|].
  destruct (leer d xi) as [antes|]; [|done].
  destruct (revisar_arco adyacentes xi xj d) as [| |[[] d1]]; try done.
  - destruct (leer d1 xi) as [despues|] eqn:Hdesp; [|done].
    destruct (decide (length despues = 0)) as [Hvacio|_].
    + intros [= <-]. exists xi. by apply nil_length_inv in Hvacio as ->.
    + destruct (adyacentes !! xi); [|done]. apply IH.
  - apply IH.
Qed.

Lemma ac3_bucle_mas_pasos fuel extra :
  ∀ cola d r,
    ac3_bucle adyacentes fuel cola d = Retorna r →
    ac3_bucle adyacentes (fuel + extra) cola d = Retorna r.
Proof.
  induction fuel as [|fuel IH]; intros cola d r; simpl; [done|].
  destruct cola as [|[xi xj] resto]; [done|].
  destruct (leer d xi); [|done].
  destruct (revisar_arco adyacentes xi xj d) as [| |[[] d1]]; try done.
  - destruct (leer d1 xi) as [despues|]; [|done].
    destruct (decide (length despues = 0)); [done|].
    destruct (adyacentes !! xi); [|done]. apply IH.
  - apply IH.
Qed.


(** On consistent arcs the loop only consumes the queue. *)
Lemma ac3_bucle_estable cola :
  ∀ d fuel,
    (∀ a b, (a, b) ∈ cola → arco_consistente adyacentes (vista d) a b) →
    length cola < fuel →
    ac3_bucle adyacentes fuel cola d = Retorna (true, d).
Proof.
  induction cola as [|[xi xj] resto IH]; intros d fuel Hcola Hf;
    (destruct fuel as [|fuel]; [simpl in Hf; lia|]); simpl; [done|].
  pose proof (Hcola xi xj ltac:(by left)) as Hc.
  pose proof Hc as (dxi & Hxi & _). rewrite lookup_vista in Hxi.
  rewrite Hxi, revisar_arco_sin_cambios by done.
  apply IH; [|simpl in Hf; lia].
  intros a b Hab. apply Hcola. by right.
Qed.

Variable vars : list string.

Hypothesis vars_cerradas : cerrado adyacentes vars.
Hypothesis vars_en_grafo : ∀ v, v ∈ vars → is_Some (adyacentes !! v).

(** On arcs between variables that have a list, the loop raises nothing. *)
Lemma ac3_bucle_no_falla fuel :
  ∀ cola d,
    (∀ a c, (a, c) ∈ cola → a ∈ vars ∧ c ∈ vars) →
    (∀ v, v ∈ vars → is_Some (leer d v)) →
    ac3_bucle adyacentes fuel cola d ≠ Excepcion.
Proof.
  induction fuel as [|fuel IH]; intros cola d Hcola Hdoms; simpl; [done|].
  destruct cola as [|[xi xj] resto]; [done|].
  destruct (Hcola xi xj) as (Hxi & Hxj); [by left|].
  assert (Hresto : ∀ a c, (a, c) ∈ resto → a ∈ vars ∧ c ∈ vars).
  { intros a c Hac. apply Hcola. by right. }
  destruct (Hdoms xi Hxi) as [dxi Hdxi]. rewrite Hdxi.
  destruct (revisar_arco_retorna_siempre adyacentes xi xj d)
    as [[c d1] Hrev]; [by eauto|by apply Hdoms|].
  rewrite Hrev.
  apply revisar_arco_encoge in Hrev as (_ & Hred & _ & _).
  assert (Hdoms1 : ∀ v, v ∈ vars → is_Some (leer d1 v)).
  { intros v Hv. rewrite <- lookup_vista.
    eapply reducido_is_Some; [done|]. rewrite lookup_vista. by apply Hdoms. }
  destruct c; [|by apply IH].
  destruct (Hdoms1 xi Hxi) as [despues ->].
  destruct (decide (length despues = 0)); [done|].
  destruct (vars_en_grafo xi Hxi) as [vs Hvs]. rewrite Hvs.
  apply IH; [|done].
  intros a c [Hac|Hac]%elem_of_app; [by apply Hresto|].
  apply list_elem_of_fmap in Hac as (xk & [= -> ->] & Hxk).
  apply list_elem_of_filter in Hxk as [_ Hxk].
  split; [|done]. apply (vars_cerradas xi xk Hxi).
  unfold vecinos_de. by rewrite Hvs.
Qed.

End AC3Objeto.

(** ** Dictionaries whose keys hold different lists

    There the loops do to [vista] what the loops on values do. *)

Section SinCompartir.

Variable adyacentes : gmap string (list string).

Lemma revisar_valores_por_valor xi xj pendientes :
  ∀ c d, sin_compartir d →
    revisar_valores_val adyacentes xi xj pendientes c (vista d)
    = a_valores (revisar_valores adyacentes xi xj pendientes c d).
Proof.
  induction pendientes as [|v resto IH]; intros c d Hsc; simpl; [done|].
  rewrite lookup_vista.
  destruct (leer d xj) as [dxj|]; [|done].
  destruct (existsb _ dxj); [by apply IH|].
  rewrite lookup_vista. unfold leer at 1.
  destruct (claves d !! xi) as [a|] eqn:Hxi; [|done]. simpl.
  destruct (listas d !! a) as [dxi|]; [|done].
  destruct (quitar v dxi) as [dxi'|]; [|done].
  rewrite <- (vista_escribir_sin_compartir d xi a dxi' Hsc Hxi).
  by apply IH.
Qed.

Lemma revisar_arco_por_valor xi xj d :
  sin_compartir d →
  revisar_arco_val adyacentes xi xj (vista d)
  = a_valores (revisar_arco adyacentes xi xj d).
Proof.
  intros Hsc. unfold revisar_arco_val, revisar_arco. rewrite lookup_vista.
  destruct (leer d xi); [|done]. by apply revisar_valores_por_valor.
Qed.

Lemma sin_compartir_claves d d' :
  claves d' = claves d → sin_compartir d → sin_compartir d'.
Proof. intros Hcl Hsc k1 k2 a. rewrite Hcl. apply Hsc. Qed.

Lemma ac3_bucle_por_valor fuel :
  ∀ cola d, sin_compartir d →
    ac3_bucle_val adyacentes fuel cola (vista d)
    = a_valores (ac3_bucle adyacentes fuel cola d).
Proof.
  induction fuel as [|fuel IH]; intros cola d Hsc; simpl; [done|].
  destruct cola as [|[xi xj] resto]; [done|].
  rewrite lookup_vista.
  destruct (leer d xi) as [antes|]; [|done].
  rewrite revisar_arco_por_valor by done.
  destruct (revisar_arco adyacentes xi xj d) as [| |[c d1]] eqn:Hrev;
    try done.
  apply revisar_arco_encoge in Hrev as (Hcl & _).
  pose proof (sin_compartir_claves d d1 Hcl Hsc) as Hsc1.
  simpl. destruct c; [|by apply IH].
  rewrite lookup_vista.
  destruct (leer d1 xi) as [despues|]; [|done].
  destruct (decide (length despues = 0)); [done|].
  destruct (adyacentes !! xi); [|done]. by apply IH.
Qed.

Lemma ac3_por_valor variables fuel d :
  sin_compartir d →
  ac3_val adyacentes variables fuel (vista d)
  = a_valores (ac3 adyacentes variables fuel d).
Proof.
  intros Hsc. unfold ac3_val, ac3.
  destruct (arcos_iniciales adyacentes variables); [|done].
  by apply ac3_bucle_por_valor.
Qed.

End SinCompartir.

(** ** The search, whatever lists the keys hold *)

Section MarcoDicc.

Lemma marco_dicc_refl h : marco_dicc h h.
Proof. by intros l _. Qed.

Lemma marco_dicc_trans h1 h2 h3 :
  marco_dicc h1 h2 → marco_dicc h2 h3 → marco_dicc h1 h3.
Proof.
  intros H12 H23 l Hl. rewrite H23, H12; [done|done|].
  apply elem_of_dom. rewrite H12 by done. by apply elem_of_dom.
Qed.

Lemma marco_dicc_lookup h h' l d :
  marco_dicc h h' → h !! l = Some d → h' !! l = Some d.
Proof. intros Hm Hl. rewrite Hm; [done|]. by apply elem_of_dom. Qed.

Lemma marco_dicc_fresco h d d' :
  marco_dicc h (<[fresh (dom h) := d']> (<[fresh (dom h) := d]> h)).
Proof.
  intros l Hl. assert (l ≠ fresh (dom h)) by (intros ->; by apply is_fresh in Hl).
  by rewrite !lookup_insert_ne.
Qed.

End MarcoDicc.

Section PodarObjeto.

Variable adyacentes : gmap string (list string).

(** [podar_dominios_forward] only binds keys to new lists: through
    [vista] it is [podar_dominios] of file 19. *)
Lemma podar_vecinos_forward_por_valor nuevos asig var valor vs :
  ∀ h,
    podar_vecinos adyacentes (vista <$> h) nuevos asig var valor vs
    = ((vista <$> (podar_vecinos_forward adyacentes h nuevos asig var valor
                     vs).1),
       (podar_vecinos_forward adyacentes h nuevos asig var valor vs).2).
Proof.
  induction vs as [|vecino resto IH]; intros h; simpl; [done|].
  destruct (decide (vecino ∈ dom asig)); [by apply IH|].
  rewrite lookup_fmap.
  destruct (h !! nuevos) as [nd|]; [|done]. simpl.
  rewrite lookup_vista.
  destruct (leer nd vecino) as [dv|]; [|done].
  destruct (decide (length _ = 0)); [done|].
  rewrite <- vista_asignar, <- fmap_insert. apply IH.
Qed.

Lemma podar_dominios_forward_por_valor h l asig var valor :
  podar_dominios adyacentes (vista <$> h) l asig var valor
  = ((vista <$> (podar_dominios_forward adyacentes h l asig var valor).1),
     (podar_dominios_forward adyacentes h l asig var valor).2).
Proof.
  unfold podar_dominios, podar_dominios_forward, deepcopy, deepcopy_dicc.
  rewrite lookup_fmap. destruct (h !! l) as [d|]; [|done]. simpl.
  rewrite dom_fmap_L.
  rewrite <- !fmap_insert, insert_insert_eq.
  rewrite <- vista_asignar, <- fmap_insert.
  rewrite !insert_insert_eq.
  destruct (adyacentes !! var) as [vs|]; [|done].
  rewrite podar_vecinos_forward_por_valor.
  by destruct (podar_vecinos_forward adyacentes _ _ asig var valor vs)
    as [h3 [| |[]]].
Qed.

Lemma podar_vecinos_forward_marco nuevos asig var valor vs :
  ∀ h l, l ≠ nuevos →
    (podar_vecinos_forward adyacentes h nuevos asig var valor vs).1 !! l
    = h !! l.
Proof.
  induction vs as [|vecino resto IH]; intros h l Hl; simpl; [done|].
  destruct (decide (vecino ∈ dom asig)); [by apply IH|].
  destruct (h !! nuevos) as [nd|]; [|done].
  destruct (leer nd vecino) as [dv|]; [|done].
  destruct (decide (length _ = 0)); [done|].
  rewrite IH by done. by rewrite lookup_insert_ne.
Qed.

Lemma podar_dominios_forward_marco h l asig var valor :
  marco_dicc h (podar_dominios_forward adyacentes h l asig var valor).1.
Proof.
  unfold podar_dominios_forward, deepcopy_dicc.
  destruct (h !! l) as [d|]; [|apply marco_dicc_refl].
  pose proof (marco_dicc_fresco h d (asignar d var [valor])) as Hbase.
  set (nuevos := fresh (dom h)) in *.
  assert (Hfresh : nuevos ∉ dom h) by apply is_fresh.
  destruct (adyacentes !! var) as [vs|]; [|done].
  pose proof (podar_vecinos_forward_marco nuevos asig var valor vs
                (<[nuevos := asignar d var [valor]]> (<[nuevos := d]> h)))
    as Hm.
  destruct (podar_vecinos_forward adyacentes _ nuevos asig var valor vs)
    as [h3 r].
  assert (marco_dicc h h3).
  { intros x Hx. simpl in Hm. rewrite Hm; [by apply Hbase|].
    by intros ->. }
  by destruct r as [| |[]].
Qed.

(** Forward checking makes no two keys hold one list. *)
Lemma podar_vecinos_forward_sin_compartir nuevos asig var valor vs :
  ∀ h nd,
    h !! nuevos = Some nd → sin_compartir nd →
    ∃ nd', (podar_vecinos_forward adyacentes h nuevos asig var valor vs).1
           !! nuevos = Some nd' ∧ sin_compartir nd'.
Proof.
  induction vs as [|vecino resto IH]; intros h nd Hn Hsc; simpl;
    [by eauto|].
  destruct (decide (vecino ∈ dom asig)); [by eapply IH|].
  rewrite Hn.
  destruct (leer nd vecino) as [dv|]; [|by eauto].
  destruct (decide (length _ = 0)); [by eauto|].
  eapply IH; [apply lookup_insert_eq|by apply sin_compartir_asignar].
Qed.

Lemma podar_dominios_forward_sin_compartir h l d asig var valor h1 nuevos :
  h !! l = Some d → sin_compartir d →
  podar_dominios_forward adyacentes h l asig var valor
  = (h1, Retorna (Some nuevos)) →
  ∃ d', h1 !! nuevos = Some d' ∧ sin_compartir d'.
Proof.
  intros Hl Hsc. unfold podar_dominios_forward, deepcopy_dicc. rewrite Hl.
  destruct (adyacentes !! var) as [vs|]; [|done].
  pose proof (podar_vecinos_forward_sin_compartir (fresh (dom h)) asig var
                valor vs
                (<[fresh (dom h) := asignar d var [valor]]>
                   (<[fresh (dom h) := d]> h))
                (asignar d var [valor]) (lookup_insert_eq _ _ _)
                (sin_compartir_asignar d var [valor] Hsc)) as Hnd.
  destruct (podar_vecinos_forward adyacentes _ _ asig var valor vs)
    as [h3 [| |[]]]; try done.
  by intros [= <- <-].
Qed.

End PodarObjeto.

Section PropagacionObjeto.

Variable adyacentes : gmap string (list string).
Variable variables orden_vars : list string.
Variable pasos_ac3 : nat.

Hypothesis orden_sin_repetidos : NoDup orden_vars.
Hypothesis grafo_sin_lazos : sin_lazos adyacentes.
Hypothesis orden_cerrado : cerrado adyacentes orden_vars.
Hypothesis orden_en_grafo : ∀ v, v ∈ orden_vars → is_Some (adyacentes !! v).
Hypothesis mismas_variables : ∀ v, v ∈ variables ↔ v ∈ orden_vars.

(** What a run of [ac3] does during the search, whatever lists the keys
    hold. *)
Lemma ac3_en_la_busqueda d :
  (∀ v, v ∈ orden_vars → is_Some (leer d v)) →
  match ac3 adyacentes variables pasos_ac3 d with
  | SinCombustible => pasos_ac3 ≤ cota_ac3 adyacentes variables (vista d)
  | Excepcion => False
  | Retorna (b, d') => claves d' = claves d ∧ reducido (vista d) (vista d')
  end.
Proof.
  intros Hdoms. unfold ac3.
  destruct (arcos_iniciales_total adyacentes variables) as (cola & Hc & Hlen).
  { intros v Hv. apply orden_en_grafo. by apply mismas_variables. }
  rewrite Hc.
  assert (Hcola : ∀ a c, (a, c) ∈ cola → a ∈ orden_vars ∧ c ∈ orden_vars).
  { intros a c Hac.
    apply (arcos_iniciales_elem adyacentes variables cola a c Hc) in Hac
      as [Ha Hvec].
    apply mismas_variables in Ha.
    split; [done|]. exact (orden_cerrado a c Ha Hvec). }
  destruct (ac3_bucle adyacentes pasos_ac3 cola d) as [| |[b d']] eqn:Hr.
  - destruct (decide (pasos_ac3 ≤ cota_ac3 adyacentes variables (vista d)))
      as [|Hgt]; [done|].
    exfalso.
    apply (ac3_bucle_acaba adyacentes (grado_max adyacentes) pasos_ac3
             (grado_max_cota adyacentes) cola d); [|done].
    unfold cota_ac3 in Hgt. lia.
  - by apply (ac3_bucle_no_falla adyacentes orden_vars orden_cerrado
                orden_en_grafo pasos_ac3 cola d).
  - exact (ac3_bucle_encoge adyacentes pasos_ac3 cola d b d' Hr).
Qed.

Lemma leer_reducido d d' v :
  reducido (vista d) (vista d') → is_Some (leer d v) → is_Some (leer d' v).
Proof.
  intros Hred. rewrite <- !lookup_vista. by apply reducido_is_Some.
Qed.

Lemma probar_valores_prop_seguro fuel rec l d asig var dvar valores :
  (∀ h1 a l1 d1,
     h1 !! l1 = Some d1 → prefijo orden_vars a → size a = S (size asig) →
     (∀ v, v ∈ orden_vars → is_Some (leer d1 v)) →
     let '(h', r) := rec h1 a l1 in
     marco_dicc h1 h' ∧
     resultado_seguro adyacentes variables orden_vars pasos_ac3 fuel
                      (vista d1) a r) →
  prefijo orden_vars asig →
  orden_vars !! size asig = Some var →
  (∀ v, v ∈ orden_vars → is_Some (leer d v)) →
  leer d var = Some dvar → valores ⊆ dvar →
  ∀ h0, h0 !! l = Some d →
    let '(h', r) := probar_valores_prop adyacentes variables pasos_ac3 rec
                      h0 asig l var valores in
    marco_dicc h0 h' ∧
    match r with
    | SinCombustible =>
        S fuel + size asig ≤ length orden_vars ∨
        pasos_ac3 ≤ cota_ac3 adyacentes variables (vista d)
    | Excepcion => False
    | Retorna (Some sol) =>
        solucion_desde adyacentes orden_vars (vista d) asig sol
    | Retorna None => True
    end.
Proof.
  intros Hrec Hp Hvar Hdoms Hdvar.
  pose proof (list_elem_of_lookup_2 _ _ _ Hvar) as Hvar_in.
  assert (Hdomsv : ∀ v, v ∈ orden_vars → is_Some (vista d !! v)).
  { intros v Hv. rewrite lookup_vista. by apply Hdoms. }
  assert (Hdvarv : vista d !! var = Some dvar) by by rewrite lookup_vista.
  induction valores as [|valor resto IH]; intros Hsub h0 Hl; simpl.
  { split; [apply marco_dicc_refl|done]. }
  assert (Hresto : resto ⊆ dvar) by (intros y Hy; apply Hsub; by right).
  assert (Hvalor : valor ∈ dvar) by (apply Hsub; by left).
  unfold es_consistente_parcial.
  destruct (es_consistente_con_asignacion adyacentes asig var valor) eqn:Hc;
    [|by apply IH].
  destruct (prefijo_insert _ orden_sin_repetidos _ _ valor Hp Hvar)
    as [Hp1 Hsz1].
  assert (Hlv : (vista <$> h0) !! l = Some (vista d))
    by by rewrite lookup_fmap, Hl.
  pose proof (podar_dominios_en_busqueda adyacentes orden_vars
                grafo_sin_lazos orden_cerrado orden_en_grafo
                (vista <$> h0) l (vista d) (<[var:=valor]> asig) var
                valor Hlv Hvar_in Hdomsv) as Hpodar.
  pose proof (podar_dominios_reducido adyacentes grafo_sin_lazos
                (vista <$> h0) l (vista d) (<[var:=valor]> asig) var valor
                dvar) as Hpodred.
  rewrite podar_dominios_forward_por_valor in Hpodar, Hpodred.
  pose proof (podar_dominios_forward_marco adyacentes h0 l
                (<[var:=valor]> asig) var valor) as Hm1.
  destruct (podar_dominios_forward adyacentes h0 l (<[var:=valor]> asig)
              var valor) as [h1 r1].
  simpl in Hpodar, Hpodred, Hm1. destruct Hpodar as [_ Hr1].
  destruct r1 as [| |[nuevos|]]; [done|done| |].
  - destruct (Hpodred (vista <$> h1) nuevos Hlv Hdvarv Hvalor eq_refl)
      as (dv' & Hdv' & Hred1).
    rewrite lookup_fmap in Hdv'.
    destruct (h1 !! nuevos) as [d'|] eqn:Hd'; [|done].
    simpl in Hdv'. injection Hdv' as <-.
    assert (Hdoms' : ∀ v, v ∈ orden_vars → is_Some (leer d' v)).
    { intros v Hv. eapply leer_reducido; [done|]. by apply Hdoms. }
    unfold deepcopy_dicc.
    pose proof (marco_dicc_fresco h1 d') as Hfresco.
    set (copia := fresh (dom h1)) in *.
    pose proof (cota_ac3_reducido adyacentes variables _ _ Hred1) as Hcota1.
    pose proof (ac3_en_la_busqueda d' Hdoms') as Hac3.
    destruct (ac3 adyacentes variables pasos_ac3 d') as [| |[b d2]].
    { split; [|right; lia]. eapply marco_dicc_trans; [done|].
      intros x Hx. rewrite lookup_insert_ne; [done|].
      intros <-. by apply is_fresh in Hx. }
    { done. }
    destruct Hac3 as [_ Hred2].
    set (h2 := <[copia := d2]> (<[copia := d']> h1)).
    assert (Hm02 : marco_dicc h0 h2).
    { eapply marco_dicc_trans; [done|apply Hfresco]. }
    assert (Hsigue : ∀ h, marco_dicc h0 h →
              let '(h', r) := probar_valores_prop adyacentes variables
                                pasos_ac3 rec h asig l var resto in
              marco_dicc h0 h' ∧
              match r with
              | SinCombustible =>
                  S fuel + size asig ≤ length orden_vars ∨
                  pasos_ac3 ≤ cota_ac3 adyacentes variables (vista d)
              | Excepcion => False
              | Retorna (Some sol) =>
                  solucion_desde adyacentes orden_vars (vista d) asig sol
              | Retorna None => True
              end).
    { intros h Hm. specialize (IH Hresto h (marco_dicc_lookup _ _ _ _ Hm Hl)).
      destruct (probar_valores_prop adyacentes variables pasos_ac3 rec h
                  asig l var resto) as [h' r].
      destruct IH as [Hm' Hr]. split; [by eapply marco_dicc_trans|done]. }
    destruct b; [|by apply Hsigue].
    assert (Hdoms2 : ∀ v, v ∈ orden_vars → is_Some (leer d2 v)).
    { intros v Hv. eapply leer_reducido; [done|]. by apply Hdoms'. }
    pose proof (cota_ac3_reducido adyacentes variables _ _ Hred2) as Hcota2.
    assert (Hl2 : h2 !! copia = Some d2) by apply lookup_insert_eq.
    specialize (Hrec h2 (<[var:=valor]> asig) copia d2 Hl2 Hp1 Hsz1 Hdoms2).
    destruct (rec h2 (<[var:=valor]> asig) copia) as [h3 r2].
    destruct Hrec as [Hm3 Hr2].
    pose proof (marco_dicc_trans _ _ _ Hm02 Hm3) as Hm03.
    destruct r2 as [| |[sol|]]; simpl in Hr2.
    + split; [done|]. rewrite Hsz1 in Hr2. lia.
    + done.
    + split; [done|].
      apply (solucion_desde_insert adyacentes orden_vars (vista d)
               orden_sin_repetidos asig var valor dvar sol); try done.
      apply (solucion_desde_dominios adyacentes orden_vars (vista d)
               (vista d2)); [|done].
      intros i u dv' x _ _.
      apply reducido_elem. by eapply reducido_trans.
    + by apply Hsigue.
  - specialize (IH Hresto h1 (marco_dicc_lookup _ _ _ _ Hm1 Hl)).
    destruct (probar_valores_prop adyacentes variables pasos_ac3 rec h1
                asig l var resto) as [h' r].
    destruct IH as [Hm Hr]. split; [by eapply marco_dicc_trans|done].
Qed.

Lemma backtracking_con_propagacion_seguro fuel :
  ∀ h asig l d,
    h !! l = Some d → prefijo orden_vars asig →
    (∀ v, v ∈ orden_vars → is_Some (leer d v)) →
    let '(h', r) := backtracking_con_propagacion adyacentes variables
                      pasos_ac3 fuel h asig orden_vars l in
    marco_dicc h h' ∧
    resultado_seguro adyacentes variables orden_vars pasos_ac3 fuel
                     (vista d) asig r.
Proof.
  induction fuel as [|fuel IH]; intros h asig l d Hl Hp Hdoms; simpl.
  { split; [apply marco_dicc_refl|]. destruct Hp as [Hle _]. simpl. lia. }
  destruct (decide (size asig = length orden_vars)) as [Heq|Hne].
  { split; [apply marco_dicc_refl|]. simpl.
    repeat split; try done; try apply Hp.
    all: apply lookup_lt_Some in H0; lia. }
  destruct Hp as [Hle Hpre].
  destruct (lookup_lt_is_Some_2 orden_vars (size asig)) as [var Hvar]; [lia|].
  rewrite Hvar, Hl.
  destruct (Hdoms var) as [dvar Hdvar]; [by eapply list_elem_of_lookup_2|].
  rewrite Hdvar.
  pose proof (probar_valores_prop_seguro fuel
                (λ h' a l', backtracking_con_propagacion adyacentes variables
                              pasos_ac3 fuel h' a orden_vars l')
                l d asig var dvar dvar) as Hloop.
  simpl in Hloop.
  specialize (Hloop (λ h1 a l1 d1 H1 H2 _ H3, IH h1 a l1 d1 H1 H2 H3)
                (conj Hle Hpre) Hvar Hdoms Hdvar (reflexivity _) h Hl).
  destruct (probar_valores_prop adyacentes variables pasos_ac3 _ h asig l
              var dvar) as [h' r].
  destruct Hloop as [Hm Hr]. split; [done|].
  by destruct r as [| |[sol|]].
Qed.

End PropagacionObjeto.

Section BusquedaObjeto.

Variable adyacentes : gmap string (list string).
Variable variables : list string.
Variable pasos_ac3 : nat.

(** The search never writes to a dictionary of its caller. *)
Lemma probar_valores_prop_marco rec asig l var valores :
  (∀ h a l', marco_dicc h (rec h a l').1) →
  ∀ h, marco_dicc h (probar_valores_prop adyacentes variables pasos_ac3 rec
                       h asig l var valores).1.
Proof.
  intros Hrec. induction valores as [|valor resto IH]; intros h; simpl;
    [apply marco_dicc_refl|].
  destruct (es_consistente_parcial adyacentes asig var valor); [|apply IH].
  pose proof (podar_dominios_forward_marco adyacentes h l
                (<[var:=valor]> asig) var valor) as Hm1.
  destruct (podar_dominios_forward adyacentes h l (<[var:=valor]> asig)
              var valor) as [h1 r1]. simpl in Hm1.
  destruct r1 as [| |[nuevos|]]; try done.
  - destruct (h1 !! nuevos) as [d_fc|]; [|done].
    unfold deepcopy_dicc.
    assert (Hm2 : marco_dicc h (<[fresh (dom h1) := d_fc]> h1)).
    { eapply marco_dicc_trans; [done|]. intros x Hx.
      rewrite lookup_insert_ne; [done|]. intros <-. by apply is_fresh in Hx. }
    assert (Hm3 : ∀ d_prop,
              marco_dicc h (<[fresh (dom h1) := d_prop]>
                              (<[fresh (dom h1) := d_fc]> h1))).
    { intros d_prop. eapply marco_dicc_trans; [exact Hm1|].
      apply marco_dicc_fresco. }
    destruct (ac3 adyacentes variables pasos_ac3 d_fc) as [| |[[] d_prop]];
      try done.
    + pose proof (Hrec (<[fresh (dom h1) := d_prop]>
                          (<[fresh (dom h1) := d_fc]> h1))
                    (<[var:=valor]> asig) (fresh (dom h1))) as Hm4.
      destruct (rec _ (<[var:=valor]> asig) (fresh (dom h1))) as [h3 r3].
      simpl in Hm4.
      pose proof (marco_dicc_trans _ _ _ (Hm3 d_prop) Hm4) as Hm5.
      destruct r3 as [| |[sol|]]; try done.
      eapply marco_dicc_trans; [done|apply IH].
    + eapply marco_dicc_trans; [apply Hm3|apply IH].
  - eapply marco_dicc_trans; [done|apply IH].
Qed.

Lemma backtracking_con_propagacion_marco fuel h asig orden_vars l :
  marco_dicc h (backtracking_con_propagacion adyacentes variables pasos_ac3
                  fuel h asig orden_vars l).1.
Proof.
  revert h asig l. induction fuel as [|fuel IH]; intros h asig l; simpl;
    [apply marco_dicc_refl|].
  destruct (decide _); [apply marco_dicc_refl|].
  destruct (orden_vars !! size asig) as [var|]; [|apply marco_dicc_refl].
  destruct (h !! l) as [d|]; [|apply marco_dicc_refl].
  destruct (leer d var) as [dvar|]; [|apply marco_dicc_refl].
  apply probar_valores_prop_marco. intros h' a l'. apply IH.
Qed.

Lemma ac3_claves fuel d b d' :
  ac3 adyacentes variables fuel d = Retorna (b, d') → claves d' = claves d.
Proof.
  unfold ac3. destruct (arcos_iniciales adyacentes variables); [|done].
  by intros [? _]%ac3_bucle_encoge.
Qed.

(** On a dictionary whose keys hold different lists the search does,
    seen through [vista], what the search on values does. *)
Lemma probar_valores_prop_por_valor rec rec_val asig l var valores :
  (∀ h1 a l1 d1,
     h1 !! l1 = Some d1 → sin_compartir d1 →
     rec_val (vista <$> h1) a l1
     = (vista <$> (rec h1 a l1).1, (rec h1 a l1).2)) →
  (∀ h1 a l1, marco_dicc h1 (rec h1 a l1).1) →
  ∀ h d, h !! l = Some d → sin_compartir d →
    probar_valores_prop_val adyacentes variables pasos_ac3 rec_val
      (vista <$> h) asig l var valores
    = (vista <$> (probar_valores_prop adyacentes variables pasos_ac3 rec
                    h asig l var valores).1,
       (probar_valores_prop adyacentes variables pasos_ac3 rec
          h asig l var valores).2).
Proof.
  intros Hrec Hmrec.
  induction valores as [|valor resto IH]; intros h d Hl Hsc; simpl; [done|].
  destruct (es_consistente_parcial adyacentes asig var valor);
    [|by eapply IH].
  unfold podar_dominios_forward_val.
  rewrite podar_dominios_forward_por_valor.
  pose proof (podar_dominios_forward_marco adyacentes h l
                (<[var:=valor]> asig) var valor) as Hm1.
  pose proof (podar_dominios_forward_sin_compartir adyacentes h l d
                (<[var:=valor]> asig) var valor) as Hsc1.
  destruct (podar_dominios_forward adyacentes h l (<[var:=valor]> asig)
              var valor) as [h1 r1]. simpl in *.
  destruct r1 as [| |[nuevos|]]; try done.
  - destruct (Hsc1 h1 nuevos Hl Hsc eq_refl) as (d_fc & Hd_fc & Hsc_fc).
    rewrite lookup_fmap, Hd_fc. simpl.
    unfold deepcopy, deepcopy_dicc. rewrite dom_fmap_L.
    rewrite (ac3_por_valor adyacentes variables pasos_ac3 d_fc Hsc_fc).
    pose proof (marco_dicc_fresco h1 d_fc) as Hfresco.
    set (copia := fresh (dom h1)) in *.
    destruct (ac3 adyacentes variables pasos_ac3 d_fc) as [| |[b d2]]
      eqn:Hac3; simpl.
    + by rewrite fmap_insert.
    + by rewrite fmap_insert.
    + pose proof (sin_compartir_claves d_fc d2
                    (ac3_claves _ _ _ _ Hac3) Hsc_fc) as Hsc2.
      rewrite <- !fmap_insert.
      set (h2 := <[copia := d2]> (<[copia := d_fc]> h1)).
      assert (Hm02 : marco_dicc h h2).
      { eapply marco_dicc_trans; [done|apply Hfresco]. }
      destruct b.
      * rewrite (Hrec h2 (<[var:=valor]> asig) copia d2
                   (lookup_insert_eq _ _ _) Hsc2).
        pose proof (Hmrec h2 (<[var:=valor]> asig) copia) as Hm3.
        destruct (rec h2 (<[var:=valor]> asig) copia) as [h3 r3].
        simpl in *.
        destruct r3 as [| |[sol|]]; try done.
        apply (IH h3 d); [|done].
        eapply marco_dicc_lookup; [|done]. by eapply marco_dicc_trans.
      * apply (IH h2 d); [|done]. by eapply marco_dicc_lookup.
  - apply (IH h1 d); [|done]. by eapply marco_dicc_lookup.
Qed.

Lemma backtracking_con_propagacion_por_valor fuel orden_vars :
  ∀ h asig l d, h !! l = Some d → sin_compartir d →
    backtracking_con_propagacion_val adyacentes variables pasos_ac3 fuel
      (vista <$> h) asig orden_vars l
    = (vista <$> (backtracking_con_propagacion adyacentes variables
                    pasos_ac3 fuel h asig orden_vars l).1,
       (backtracking_con_propagacion adyacentes variables pasos_ac3 fuel
          h asig orden_vars l).2).
Proof.
  induction fuel as [|fuel IH]; intros h asig l d Hl Hsc; simpl; [done|].
  destruct (decide _); [done|].
  destruct (orden_vars !! size asig) as [var|]; [|done].
  rewrite lookup_fmap, Hl. simpl. rewrite lookup_vista.
  destruct (leer d var) as [dvar|]; [|done].
  apply (probar_valores_prop_por_valor _ _ asig l var dvar) with (d := d);
    [exact IH| |exact Hl|exact Hsc].
  intros h1 a l1. apply backtracking_con_propagacion_marco.
Qed.

End BusquedaObjeto.

(** ** [revisar_arco] and [ac3]: what they leave and what they answer *)

Section RevisarFiltra.

Variable adyacentes : gmap string (list string).

(** When [xj] holds another list than [xi], the loop keeps in the list of
    [xi] exactly the values that have a support. *)
Lemma revisar_valores_filtra xi xj a a' dxj pendientes :
  a ≠ a' →
  ∀ hechos cambiado d,
    claves d !! xi = Some a →
    claves d !! xj = Some a' →
    listas d !! a' = Some dxj →
    listas d !! a = Some (hechos ++ pendientes) →
    (∀ v, v ∈ hechos → soportado adyacentes xi xj dxj v = true) →
    revisar_valores adyacentes xi xj pendientes cambiado d
    = Retorna
        (cambiado || negb (forallb (soportado adyacentes xi xj dxj) pendientes),
         escribir d a
           (hechos ++ filter (λ v, soportado adyacentes xi xj dxj v = true)
                             pendientes)).
Proof.
  intros Hne. induction pendientes as [|v resto IH];
    intros hechos cambiado d Hxi Hxj Hdxj Hdxi Hhechos; simpl.
  - rewrite orb_false_r, escribir_id; [done|]. by rewrite app_nil_r in *.
  - assert (Hleer : leer d xj = Some dxj).
    { unfold leer. rewrite Hxj. done. }
    rewrite Hleer. fold (soportado adyacentes xi xj dxj v).
    destruct (soportado adyacentes xi xj dxj v) eqn:Hs.
    + rewrite filter_cons_True by done. simpl.
      rewrite (IH (hechos ++ [v]) cambiado d); try done.
      * by rewrite <- app_assoc.
      * by rewrite <- app_assoc.
      * intros u [Hu| ->%list_elem_of_singleton]%elem_of_app; auto.
    + rewrite filter_cons_False by (by rewrite Hs).
      rewrite Hxi, Hdxi, quitar_app.
      2:{ intros Hin. apply Hhechos in Hin. congruence. }
      rewrite (IH hechos true (escribir d a (hechos ++ resto))); try done.
      * by rewrite escribir_escribir, orb_true_r.
      * simpl. by rewrite lookup_insert_ne.
      * simpl. by rewrite lookup_insert_eq.
Qed.

End RevisarFiltra.

(** X5: on two variables that hold different list objects,
    [revisar_arco] raises nothing and leaves in the list object of [xi]
    exactly the values that have a support in the list of [xj], in their
    order; the keys and every other list object are as they were, so a key
    that holds the list of [xi] reads the filtered list as well.  It
    reports a change exactly when some value had no support. *)
Theorem revisar_arco_filtra adyacentes xi xj d a a' dxi dxj :
  claves d !! xi = Some a → claves d !! xj = Some a' → a ≠ a' →
  listas d !! a = Some dxi → listas d !! a' = Some dxj →
  revisar_arco adyacentes xi xj d
  = Retorna
      (negb (forallb (soportado adyacentes xi xj dxj) dxi),
       escribir d a
         (filter (λ v, soportado adyacentes xi xj dxj v = true) dxi)).
Proof.
  intros Hxi Hxj Hne Hdxi Hdxj. unfold revisar_arco, leer.
  rewrite Hxi. simpl. rewrite Hdxi.
  rewrite (revisar_valores_filtra adyacentes xi xj a a' dxj dxi Hne
             [] false d); try done.
  intros v Hv. by apply elem_of_nil in Hv.
Qed.

Lemma revisar_arco_filtra_witness :
  claves Ejemplos.lista_compartida !! "T" = Some 0 ∧
  claves Ejemplos.lista_compartida !! "V" = Some 5 ∧
  0 ≠ 5 ∧
  listas Ejemplos.lista_compartida !! 0 = Some ["ROJO"; "VERDE"] ∧
  listas Ejemplos.lista_compartida !! 5 = Some ["ROJO"] ∧
  revisar_arco Australia.adyacentes "T" "V" Ejemplos.lista_compartida
  = Retorna
      (negb (forallb (soportado Australia.adyacentes "T" "V" ["ROJO"])
                     ["ROJO"; "VERDE"]),
       escribir Ejemplos.lista_compartida 0
         (filter (λ v, soportado Australia.adyacentes "T" "V" ["ROJO"] v
                       = true) ["ROJO"; "VERDE"])).
Proof.
  assert (H1 : claves Ejemplos.lista_compartida !! "T" = Some 0)
    by by vm_compute.
  assert (H2 : claves Ejemplos.lista_compartida !! "V" = Some 5)
    by by vm_compute.
  assert (H3 : 0 ≠ 5) by lia.
  assert (H4 : listas Ejemplos.lista_compartida !! 0
               = Some ["ROJO"; "VERDE"]) by by vm_compute.
  assert (H5 : listas Ejemplos.lista_compartida !! 5 = Some ["ROJO"])
    by by vm_compute.
  split; [exact H1|]. split; [exact H2|]. split; [exact H3|].
  split; [exact H4|]. split; [exact H5|].
  exact (revisar_arco_filtra Australia.adyacentes "T" "V"
           Ejemplos.lista_compartida 0 5 ["ROJO"; "VERDE"] ["ROJO"]
           H1 H2 H3 H4 H5).
Defined.

(** X6: [ac3] only removes values.  Whatever it answers and whatever lists
    the keys hold, the dictionary it leaves has the keys it was given,
    holding the list objects they held, and each key reads a sublist of
    what it read before; this holds for any adjacency table and any list
    of variables. *)
Theorem ac3_solo_quita_valores adyacentes variables fuel d b d' :
  ac3 adyacentes variables fuel d = Retorna (b, d') →
  claves d' = claves d ∧ reducido (vista d) (vista d').
Proof.
  unfold ac3. destruct (arcos_iniciales adyacentes variables); [|done].
  apply ac3_bucle_encoge.
Qed.

Lemma ac3_solo_quita_valores_witness :
  ac3 Australia.adyacentes Australia.variables 60 Ejemplos.lista_compartida
  = Retorna (true, Ejemplos.lista_compartida_ac3) ∧
  claves Ejemplos.lista_compartida_ac3 = claves Ejemplos.lista_compartida ∧
  reducido (vista Ejemplos.lista_compartida)
           (vista Ejemplos.lista_compartida_ac3).
Proof.
  assert (H : ac3 Australia.adyacentes Australia.variables 60
                Ejemplos.lista_compartida
              = Retorna (true, Ejemplos.lista_compartida_ac3))
    by by vm_compute.
  split; [exact H|].
  exact (ac3_solo_quita_valores Australia.adyacentes Australia.variables 60
           Ejemplos.lista_compartida true Ejemplos.lista_compartida_ac3 H).
Defined.

(** X7: [ac3] keeps every colouring of a dictionary in which no two keys
    hold the same list.  When the variables include all their neighbours
    and some colouring takes its values in the domains, [ac3] cannot answer
    [False], and the colouring still takes its values in the domains that
    are left. *)
Theorem ac3_conserva_coloreos adyacentes variables sol fuel d b d' :
  sin_compartir d →
  cerrado adyacentes variables →
  coloreo_valido adyacentes variables (vista d) sol →
  ac3 adyacentes variables fuel d = Retorna (b, d') →
  b = true ∧ coloreo_valido adyacentes variables (vista d') sol.
Proof.
  intros Hsc Hcerr Hsol Hr.
  pose proof (ac3_por_valor adyacentes variables fuel d Hsc) as Hv.
  rewrite Hr in Hv. simpl in Hv. unfold ac3_val in Hv.
  destruct (arcos_iniciales adyacentes variables) as [cola|] eqn:Hc; [|done].
  apply (ac3_bucle_val_conserva_coloreo adyacentes variables sol Hcerr
           fuel cola (vista d)); [done| |done].
  intros a c Hac.
  apply (arcos_iniciales_elem adyacentes variables cola a c Hc) in Hac
    as [Ha Hvec].
  split; [done|]. split; [exact (Hcerr a c Ha Hvec)|].
  by apply (coloreo_valido_vecino_distinto adyacentes variables sol
              (vista d) a c).
Qed.

Lemma ac3_conserva_coloreos_witness :
  sin_compartir Ejemplos.dicc_wa_nt ∧
  cerrado Australia.adyacentes Australia.variables ∧
  coloreo_valido Australia.adyacentes Australia.variables
    (vista Ejemplos.dicc_wa_nt) Ejemplos.coloreo_australia ∧
  ac3 Australia.adyacentes Australia.variables 60 Ejemplos.dicc_wa_nt
  = Retorna (true, Ejemplos.dicc_wa_nt_ac3) ∧
  true = true ∧
  coloreo_valido Australia.adyacentes Australia.variables
    (vista Ejemplos.dicc_wa_nt_ac3) Ejemplos.coloreo_australia.
Proof.
  assert (H1 : sin_compartir Ejemplos.dicc_wa_nt)
    by exact (proj2 (de_valores_correcto Ejemplos.dominios_wa_nt)).
  assert (H3 : coloreo_valido Australia.adyacentes Australia.variables
                 (vista Ejemplos.dicc_wa_nt) Ejemplos.coloreo_australia).
  { apply coloreo_valido_b_correcto. by vm_compute. }
  assert (H4 : ac3 Australia.adyacentes Australia.variables 60
                 Ejemplos.dicc_wa_nt
               = Retorna (true, Ejemplos.dicc_wa_nt_ac3)) by by vm_compute.
  split; [exact H1|]. split; [exact australia_cerrado|].
  split; [exact H3|]. split; [exact H4|].
  exact (ac3_conserva_coloreos Australia.adyacentes Australia.variables
           Ejemplos.coloreo_australia 60 Ejemplos.dicc_wa_nt true
           Ejemplos.dicc_wa_nt_ac3 H1 australia_cerrado H3 H4).
Defined.

(** X8: the [while] loop of [ac3] always ends, whatever the graph, the
    domains and the lists the keys hold: it takes at most [cota_ac3]
    turns, the arcs of the initial queue plus the longest adjacency list
    for every value the keys read, because a turn that adds arcs to the
    queue removes a value. *)
Theorem ac3_siempre_termina adyacentes variables fuel d :
  cota_ac3 adyacentes variables (vista d) < fuel →
  ac3 adyacentes variables fuel d ≠ SinCombustible.
Proof.
  intros Hf. unfold ac3.
  destruct (arcos_iniciales adyacentes variables) as [cola|] eqn:Hc; [|done].
  apply (ac3_bucle_acaba adyacentes (grado_max adyacentes)).
  - apply grado_max_cota.
  - pose proof (arcos_iniciales_length _ _ _ Hc). unfold cota_ac3 in Hf. lia.
Qed.

Lemma ac3_siempre_termina_witness :
  cota_ac3 Australia.adyacentes Australia.variables
           (vista Ejemplos.lista_compartida) < 121 ∧
  ac3 Australia.adyacentes Australia.variables 121 Ejemplos.lista_compartida
  ≠ SinCombustible.
Proof.
  assert (H : cota_ac3 Australia.adyacentes Australia.variables
                (vista Ejemplos.lista_compartida) < 121)
    by (vm_compute; lia).
  split; [exact H|].
  exact (ac3_siempre_termina Australia.adyacentes Australia.variables 121
           Ejemplos.lista_compartida H).
Defined.

(** X20: [ac3] returns.  When the variables hold their neighbours and have
    an adjacency entry and a list each, whatever lists the keys share, the
    call raises nothing and its [while] loop ends within [cota_ac3] turns:
    the arcs of the initial queue plus the longest adjacency list for every
    value that can be removed. *)
Theorem ac3_retorna adyacentes variables fuel d :
  cerrado adyacentes variables →
  (∀ v, v ∈ variables → is_Some (adyacentes !! v)) →
  (∀ v, v ∈ variables → is_Some (leer d v)) →
  cota_ac3 adyacentes variables (vista d) < fuel →
  ∃ b d', ac3 adyacentes variables fuel d = Retorna (b, d').
Proof.
  intros Hcerr Hady Hdoms Hf.
  pose proof (ac3_en_la_busqueda adyacentes variables variables fuel
                Hcerr Hady (λ v, iff_refl _) d Hdoms) as Hok.
  destruct (ac3 adyacentes variables fuel d) as [| |[b d']];
    [lia|done|by eauto].
Qed.

(** X21: when [ac3] returns [False], some key of the dictionary it was
    given holds an empty list. *)
Theorem ac3_falso_deja_dominio_vacio adyacentes variables fuel d d' :
  ac3 adyacentes variables fuel d = Retorna (false, d') →
  ∃ xi, leer d' xi = Some [].
Proof.
  unfold ac3. destruct (arcos_iniciales adyacentes variables); [|done].
  apply ac3_bucle_falso_vacio.
Qed.

Lemma ac3_falso_deja_dominio_vacio_witness :
  ac3 Australia.adyacentes Australia.variables 60
      Ejemplos.lista_compartida_ac3
  = Retorna (false, Ejemplos.lista_compartida_ac3_ac3) ∧
  ∃ xi, leer Ejemplos.lista_compartida_ac3_ac3 xi = Some [].
Proof.
  assert (H : ac3 Australia.adyacentes Australia.variables 60
                Ejemplos.lista_compartida_ac3
              = Retorna (false, Ejemplos.lista_compartida_ac3_ac3))
    by by vm_compute.
  split; [exact H|].
  exact (ac3_falso_deja_dominio_vacio Australia.adyacentes
           Australia.variables 60 Ejemplos.lista_compartida_ac3
           Ejemplos.lista_compartida_ac3_ac3 H).
Defined.

(** The example dictionaries. *)
Lemma dominio_inicial_vista :
  vista Australia.dominio_inicial = Australia.dominio_base.
Proof. by vm_compute. Qed.

Lemma dominio_inicial_sin_compartir : sin_compartir Australia.dominio_inicial.
Proof.
  unfold Australia.dominio_inicial. simpl.
  repeat apply sin_compartir_asignar. by intros k1 k2 a Hk.
Qed.

Lemma dominio_inicial_completo v :
  v ∈ Australia.variables → is_Some (leer Australia.dominio_inicial v).
Proof. intros Hv. por_casos Hv. Qed.

Lemma lista_compartida_completa v :
  v ∈ Australia.variables → is_Some (leer Ejemplos.lista_compartida v).
Proof. intros Hv. por_casos Hv. Qed.

Lemma dicc_dos_colores_completo v :
  v ∈ Australia.variables → is_Some (leer Ejemplos.dicc_dos_colores v).
Proof. intros Hv. por_casos Hv. Qed.

Lemma dicc_dos_colores_sin_coloreo sol :
  ¬ coloreo_valido Australia.adyacentes Australia.variables
      (vista Ejemplos.dicc_dos_colores) sol.
Proof.
  unfold Ejemplos.dicc_dos_colores.
  rewrite (proj1 (de_valores_correcto Ejemplos.dos_colores_australia)).
  apply dos_colores_australia_sin_coloreo.
Qed.

Lemma ac3_retorna_witness :
  cerrado Australia.adyacentes Australia.variables ∧
  (∀ v, v ∈ Australia.variables → is_Some (Australia.adyacentes !! v)) ∧
  (∀ v, v ∈ Australia.variables →
        is_Some (leer Ejemplos.lista_compartida v)) ∧
  cota_ac3 Australia.adyacentes Australia.variables
           (vista Ejemplos.lista_compartida) < 121 ∧
  ∃ b d', ac3 Australia.adyacentes Australia.variables 121
              Ejemplos.lista_compartida = Retorna (b, d').
Proof.
  assert (H4 : cota_ac3 Australia.adyacentes Australia.variables
                 (vista Ejemplos.lista_compartida) < 121)
    by (vm_compute; lia).
  split; [exact australia_cerrado|]. split; [exact adyacentes_completo|].
  split; [exact lista_compartida_completa|]. split; [exact H4|].
  exact (ac3_retorna Australia.adyacentes Australia.variables 121
           Ejemplos.lista_compartida australia_cerrado adyacentes_completo
           lista_compartida_completa H4).
Defined.

(** ** File 20 on the map of Australia *)

Section MapaObjetos.

Import Australia Ejemplos.







(** C9: on the seven regions with the three colours for each, whatever
    lists the keys hold, [ac3] returns [True] and removes nothing: the
    dictionary is left as it was, every region reading the three
    colours. *)
Theorem ac3_australia_no_poda extra d :
  vista d = dominio_base →
  ac3 adyacentes variables (21 + extra) d = Retorna (true, d) ∧
  ∀ v, v ∈ variables → leer d v = Some ["ROJO"; "VERDE"; "AZUL"].
Proof.
  intros Hd.
  assert (Hleer : ∀ v, v ∈ variables →
                       leer d v = Some ["ROJO"; "VERDE"; "AZUL"]).
  { intros v Hv. rewrite <- lookup_vista, Hd.
    repeat (apply elem_of_cons in Hv as [->|Hv]; [by vm_compute|]).
    by apply elem_of_nil in Hv. }
  split; [|done].
  unfold ac3.
  destruct (arcos_iniciales adyacentes variables) as [cola|] eqn:Hc;
    [|by vm_compute in Hc].
  apply ac3_bucle_estable.
  - intros a c Hac.
    apply (arcos_iniciales_elem adyacentes variables cola a c Hc) in Hac
      as [Ha Hvec].
    assert (Hc' : c ∈ variables) by exact (australia_cerrado a c Ha Hvec).
    assert (Hne : a ≠ c).
    { intros ->. by apply (adyacentes_sin_lazos c). }
    exists ["ROJO"; "VERDE"; "AZUL"]. rewrite !lookup_vista.
    split; [by apply Hleer|].
    intros v Hv. exists ["ROJO"; "VERDE"; "AZUL"].
    rewrite (Hleer c Hc').
    apply list_elem_of_In in Hv. simpl in Hv.
    destruct Hv as [<-|[<-|[<-|[]]]].
    + exists "VERDE". split; [done|]. split; [decidir|].
      unfold no_conflicto_binario. by destruct (decide _).
    + exists "ROJO". split; [done|]. split; [decidir|].
      unfold no_conflicto_binario. by destruct (decide _).
    + exists "ROJO". split; [done|]. split; [decidir|].
      unfold no_conflicto_binario. by destruct (decide _).
  - assert (length cola = 20) as ->; [|lia].
    vm_compute in Hc. by injection Hc as <-.
Qed.

Lemma ac3_australia_no_poda_witness :
  vista dominio_inicial = dominio_base ∧
  ac3 adyacentes variables (21 + 0) dominio_inicial
  = Retorna (true, dominio_inicial) ∧
  ∀ v, v ∈ variables → leer dominio_inicial v = Some ["ROJO"; "VERDE"; "AZUL"].
Proof.
  split; [exact dominio_inicial_vista|].
  exact (ac3_australia_no_poda 0 dominio_inicial dominio_inicial_vista).
Defined.

End MapaObjetos.

(** ** File 20: the search on dictionaries of list objects *)

(** X14: a dictionary that [backtracking_con_propagacion], called on the
    empty dictionary, returns has exactly the variables of the order as
    keys, gives each a value of the domain its key read in the dictionary
    of domains the call received, and gives neighbours different values,
    whatever lists the keys of that dictionary hold.  The graph is
    symmetric and has no loops, the order has no repeated variable, holds
    the neighbours of its variables and the same variables as the global
    list that [ac3] reads, and every variable has an adjacency entry and a
    domain. *)
Theorem backtracking_con_propagacion_devuelve_coloreo_valido
    adyacentes variables orden_vars pasos_ac3 fuel h dominios d sol :
  simetrica adyacentes → sin_lazos adyacentes →
  NoDup orden_vars → cerrado adyacentes orden_vars →
  (∀ v, v ∈ orden_vars → is_Some (adyacentes !! v)) →
  (∀ v, v ∈ variables ↔ v ∈ orden_vars) →
  h !! dominios = Some d →
  (∀ v, v ∈ orden_vars → is_Some (leer d v)) →
  (backtracking_con_propagacion adyacentes variables pasos_ac3 fuel h ∅
                                orden_vars dominios).2
  = Retorna (Some sol) →
  coloreo_valido adyacentes orden_vars (vista d) sol ∧
  (∀ v, is_Some (sol !! v) ↔ v ∈ orden_vars) ∧
  size sol = length orden_vars.
Proof.
  intros Hsim Hlazos Hnd Hcerr Hady Hmismas Hl Hdoms Hr.
  pose proof (backtracking_con_propagacion_seguro adyacentes variables
                orden_vars pasos_ac3 Hnd Hlazos Hcerr Hady Hmismas fuel h ∅
                dominios d Hl (prefijo_vacio orden_vars) Hdoms) as Hok.
  destruct (backtracking_con_propagacion adyacentes variables pasos_ac3 fuel
              h ∅ orden_vars dominios) as [h' r].
  simpl in Hr. subst r. destruct Hok as [_ Hok]. simpl in Hok.
  by apply solucion_desde_vacio_coloreo.
Qed.

Lemma backtracking_con_propagacion_devuelve_coloreo_valido_witness :
  simetrica Australia.adyacentes ∧ sin_lazos Australia.adyacentes ∧
  NoDup Australia.variables ∧
  cerrado Australia.adyacentes Australia.variables ∧
  (∀ v, v ∈ Australia.variables → is_Some (Australia.adyacentes !! v)) ∧
  (∀ v, v ∈ Australia.variables ↔ v ∈ Australia.variables) ∧
  Ejemplos.almacen_inicial !! 0 = Some Australia.dominio_inicial ∧
  (∀ v, v ∈ Australia.variables →
        is_Some (leer Australia.dominio_inicial v)) ∧
  (backtracking_con_propagacion Australia.adyacentes Australia.variables
     141 8 Ejemplos.almacen_inicial ∅ Australia.variables 0).2
  = Retorna (Some Ejemplos.coloreo_backtracking) ∧
  coloreo_valido Australia.adyacentes Australia.variables
                 (vista Australia.dominio_inicial)
                 Ejemplos.coloreo_backtracking.
Proof.
  assert (H3 : NoDup Australia.variables) by decidir.
  assert (H6 : ∀ v, v ∈ Australia.variables ↔ v ∈ Australia.variables)
    by done.
  assert (H7 : Ejemplos.almacen_inicial !! 0
               = Some Australia.dominio_inicial) by done.
  assert (H9 : (backtracking_con_propagacion Australia.adyacentes
                  Australia.variables 141 8 Ejemplos.almacen_inicial ∅
                  Australia.variables 0).2
               = Retorna (Some Ejemplos.coloreo_backtracking))
    by by vm_compute.
  split; [exact adyacentes_simetrica|]. split; [exact adyacentes_sin_lazos|].
  split; [exact H3|]. split; [exact australia_cerrado|].
  split; [exact adyacentes_completo|]. split; [exact H6|].
  split; [exact H7|]. split; [exact dominio_inicial_completo|].
  split; [exact H9|].
  exact (proj1 (backtracking_con_propagacion_devuelve_coloreo_valido
                  Australia.adyacentes Australia.variables
                  Australia.variables 141 8 Ejemplos.almacen_inicial 0
                  Australia.dominio_inicial Ejemplos.coloreo_backtracking
                  adyacentes_simetrica adyacentes_sin_lazos H3
                  australia_cerrado adyacentes_completo H6 H7
                  dominio_inicial_completo H9)).
Defined.

(** X15: [backtracking_con_propagacion] is complete on a dictionary in
    which no two keys hold the same list.  When the variables have a
    colouring with values in the domains, the call on the empty dictionary
    returns a dictionary: neither forward checking nor [ac3] cuts a branch
    that holds a colouring, and nothing raises.  The recursion depth
    allowed exceeds the number of variables and the turns allowed to the
    loop of [ac3] exceed [cota_ac3]; the graph has no loops, the order has
    no repeated variable, holds the neighbours of its variables and the
    same variables as the global list, and every variable has an adjacency
    entry and a domain. *)
Theorem backtracking_con_propagacion_encuentra_solucion_si_existe
    adyacentes variables orden_vars pasos_ac3 fuel h dominios d sol :
  sin_compartir d →
  sin_lazos adyacentes →
  NoDup orden_vars → cerrado adyacentes orden_vars →
  (∀ v, v ∈ orden_vars → is_Some (adyacentes !! v)) →
  (∀ v, v ∈ variables ↔ v ∈ orden_vars) →
  h !! dominios = Some d →
  (∀ v, v ∈ orden_vars → is_Some (leer d v)) →
  coloreo_valido adyacentes orden_vars (vista d) sol →
  length orden_vars < fuel →
  cota_ac3 adyacentes variables (vista d) < pasos_ac3 →
  ∃ sol', (backtracking_con_propagacion adyacentes variables pasos_ac3 fuel
             h ∅ orden_vars dominios).2
          = Retorna (Some sol').
Proof.
  intros Hsc Hlazos Hnd Hcerr Hady Hmismas Hl Hdoms Hsol Hfuel Hcota.
  assert (Hl' : (vista <$> h) !! dominios = Some (vista d))
    by by rewrite lookup_fmap, Hl.
  assert (Hdoms' : ∀ v, v ∈ orden_vars → is_Some (vista d !! v)).
  { intros v Hv. rewrite lookup_vista. by apply Hdoms. }
  pose proof (backtracking_con_propagacion_val_decide adyacentes variables
                orden_vars pasos_ac3 Hnd Hlazos Hcerr Hady Hmismas fuel
                (vista <$> h) dominios (vista d) Hl' Hdoms' Hfuel Hcota)
    as Hok.
  rewrite (backtracking_con_propagacion_por_valor adyacentes variables
             pasos_ac3 fuel orden_vars h ∅ dominios d Hl Hsc) in Hok.
  simpl in Hok.
  destruct (backtracking_con_propagacion adyacentes variables pasos_ac3 fuel
              h ∅ orden_vars dominios).2 as [| |[sol'|]]; try done.
  - by exists sol'.
  - by destruct (Hok sol).
Qed.

Lemma backtracking_con_propagacion_encuentra_solucion_si_existe_witness :
  sin_compartir Australia.dominio_inicial ∧
  sin_lazos Australia.adyacentes ∧
  NoDup Australia.variables ∧
  cerrado Australia.adyacentes Australia.variables ∧
  (∀ v, v ∈ Australia.variables → is_Some (Australia.adyacentes !! v)) ∧
  (∀ v, v ∈ Australia.variables ↔ v ∈ Australia.variables) ∧
  Ejemplos.almacen_inicial !! 0 = Some Australia.dominio_inicial ∧
  (∀ v, v ∈ Australia.variables →
        is_Some (leer Australia.dominio_inicial v)) ∧
  coloreo_valido Australia.adyacentes Australia.variables
                 (vista Australia.dominio_inicial)
                 Ejemplos.coloreo_australia ∧
  length Australia.variables < 8 ∧
  cota_ac3 Australia.adyacentes Australia.variables
           (vista Australia.dominio_inicial) < 141 ∧
  ∃ sol', (backtracking_con_propagacion Australia.adyacentes
             Australia.variables 141 8 Ejemplos.almacen_inicial ∅
             Australia.variables 0).2
          = Retorna (Some sol').
Proof.
  assert (H2 : NoDup Australia.variables) by decidir.
  assert (H5 : ∀ v, v ∈ Australia.variables ↔ v ∈ Australia.variables)
    by done.
  assert (H6 : Ejemplos.almacen_inicial !! 0
               = Some Australia.dominio_inicial) by done.
  assert (H8 : coloreo_valido Australia.adyacentes Australia.variables
                 (vista Australia.dominio_inicial)
                 Ejemplos.coloreo_australia).
  { apply coloreo_valido_b_correcto. by vm_compute. }
  assert (H9 : length Australia.variables < 8) by (simpl; lia).
  assert (H10 : cota_ac3 Australia.adyacentes Australia.variables
                  (vista Australia.dominio_inicial) < 141)
    by (vm_compute; lia).
  split; [exact dominio_inicial_sin_compartir|].
  split; [exact adyacentes_sin_lazos|]. split; [exact H2|].
  split; [exact australia_cerrado|]. split; [exact adyacentes_completo|].
  split; [exact H5|]. split; [exact H6|].
  split; [exact dominio_inicial_completo|]. split; [exact H8|].
  split; [exact H9|]. split; [exact H10|].
  exact (backtracking_con_propagacion_encuentra_solucion_si_existe
           Australia.adyacentes Australia.variables Australia.variables
           141 8 Ejemplos.almacen_inicial 0 Australia.dominio_inicial
           Ejemplos.coloreo_australia dominio_inicial_sin_compartir
           adyacentes_sin_lazos H2 australia_cerrado adyacentes_completo
           H5 H6 dominio_inicial_completo H8 H9 H10).
Defined.

(** X16: when the variables have no colouring with values in the domains,
    [backtracking_con_propagacion] called on the empty dictionary returns
    [None], whatever lists the keys of the dictionary of domains hold: it
    does not raise, and it ends within a recursion depth of the number of
    variables plus one and [cota_ac3] turns of each loop of [ac3].  Same
    conditions on the graph, the order and the domains as for a returned
    dictionary. *)
Theorem backtracking_con_propagacion_sin_solucion_devuelve_none
    adyacentes variables orden_vars pasos_ac3 fuel h dominios d :
  simetrica adyacentes → sin_lazos adyacentes →
  NoDup orden_vars → cerrado adyacentes orden_vars →
  (∀ v, v ∈ orden_vars → is_Some (adyacentes !! v)) →
  (∀ v, v ∈ variables ↔ v ∈ orden_vars) →
  h !! dominios = Some d →
  (∀ v, v ∈ orden_vars → is_Some (leer d v)) →
  (∀ sol, ¬ coloreo_valido adyacentes orden_vars (vista d) sol) →
  length orden_vars < fuel →
  cota_ac3 adyacentes variables (vista d) < pasos_ac3 →
  (backtracking_con_propagacion adyacentes variables pasos_ac3 fuel
     h ∅ orden_vars dominios).2
  = Retorna None.
Proof.
  intros Hsim Hlazos Hnd Hcerr Hady Hmismas Hl Hdoms Hno Hfuel Hcota.
  pose proof (backtracking_con_propagacion_seguro adyacentes variables
                orden_vars pasos_ac3 Hnd Hlazos Hcerr Hady Hmismas fuel h ∅
                dominios d Hl (prefijo_vacio orden_vars) Hdoms) as Hok.
  destruct (backtracking_con_propagacion adyacentes variables pasos_ac3 fuel
              h ∅ orden_vars dominios) as [h' r].
  destruct Hok as [_ Hok]. simpl.
  destruct r as [| |[sol'|]]; simpl in Hok.
  - rewrite map_size_empty in Hok. lia.
  - done.
  - destruct (Hno sol'). by apply solucion_desde_vacio_coloreo.
  - done.
Qed.

Lemma backtracking_con_propagacion_sin_solucion_devuelve_none_witness :
  simetrica Australia.adyacentes ∧ sin_lazos Australia.adyacentes ∧
  NoDup Australia.variables ∧
  cerrado Australia.adyacentes Australia.variables ∧
  (∀ v, v ∈ Australia.variables → is_Some (Australia.adyacentes !! v)) ∧
  (∀ v, v ∈ Australia.variables ↔ v ∈ Australia.variables) ∧
  ({[0 := Ejemplos.dicc_dos_colores]} : almacen_dicc) !! 0
  = Some Ejemplos.dicc_dos_colores ∧
  (∀ v, v ∈ Australia.variables →
        is_Some (leer Ejemplos.dicc_dos_colores v)) ∧
  (∀ sol, ¬ coloreo_valido Australia.adyacentes Australia.variables
              (vista Ejemplos.dicc_dos_colores) sol) ∧
  length Australia.variables < 8 ∧
  cota_ac3 Australia.adyacentes Australia.variables
           (vista Ejemplos.dicc_dos_colores) < 106 ∧
  (backtracking_con_propagacion Australia.adyacentes Australia.variables
     106 8 {[0 := Ejemplos.dicc_dos_colores]} ∅ Australia.variables 0).2
  = Retorna None.
Proof.
  assert (H3 : NoDup Australia.variables) by decidir.
  assert (H6 : ∀ v, v ∈ Australia.variables ↔ v ∈ Australia.variables)
    by done.
  assert (H7 : ({[0 := Ejemplos.dicc_dos_colores]} : almacen_dicc) !! 0
               = Some Ejemplos.dicc_dos_colores) by done.
  assert (H10 : length Australia.variables < 8) by (simpl; lia).
  assert (H11 : cota_ac3 Australia.adyacentes Australia.variables
                  (vista Ejemplos.dicc_dos_colores) < 106)
    by (vm_compute; lia).
  split; [exact adyacentes_simetrica|]. split; [exact adyacentes_sin_lazos|].
  split; [exact H3|]. split; [exact australia_cerrado|].
  split; [exact adyacentes_completo|]. split; [exact H6|].
  split; [exact H7|]. split; [exact dicc_dos_colores_completo|].
  split; [exact dicc_dos_colores_sin_coloreo|].
  split; [exact H10|]. split; [exact H11|].
  exact (backtracking_con_propagacion_sin_solucion_devuelve_none
           Australia.adyacentes Australia.variables Australia.variables
           106 8 {[0 := Ejemplos.dicc_dos_colores]} 0
           Ejemplos.dicc_dos_colores
           adyacentes_simetrica adyacentes_sin_lazos H3 australia_cerrado
           adyacentes_completo H6 H7 dicc_dos_colores_completo
           dicc_dos_colores_sin_coloreo H10 H11).
Defined.

(** X17: [backtracking_con_propagacion] never writes to a dictionary of
    domains that existed before the call: whatever the arguments and the
    outcome, every such dictionary has after the call the keys and the
    lists it had before.  Forward checking prunes a deep copy, and [ac3],
    which removes values in place, is run on a second deep copy, whose
    lists are its own. *)
Theorem backtracking_con_propagacion_no_modifica_dominios
    adyacentes variables pasos_ac3 fuel h asignacion orden_vars dominios
    l d :
  h !! l = Some d →
  (backtracking_con_propagacion adyacentes variables pasos_ac3 fuel h
     asignacion orden_vars dominios).1 !! l
  = Some d.
Proof.
  intros Hl.
  rewrite (backtracking_con_propagacion_marco adyacentes variables pasos_ac3
             fuel h asignacion orden_vars dominios l); [done|].
  by apply elem_of_dom.
Qed.

Lemma backtracking_con_propagacion_no_modifica_dominios_witness :
  ({[0 := Ejemplos.una_lista]} : almacen_dicc) !! 0
  = Some Ejemplos.una_lista ∧
  (backtracking_con_propagacion Australia.adyacentes Australia.variables
     141 8 {[0 := Ejemplos.una_lista]} ∅ Australia.variables 0).1 !! 0
  = Some Ejemplos.una_lista.
Proof.
  assert (H1 : ({[0 := Ejemplos.una_lista]} : almacen_dicc) !! 0
               = Some Ejemplos.una_lista) by done.
  split; [exact H1|].
  exact (backtracking_con_propagacion_no_modifica_dominios
           Australia.adyacentes Australia.variables 141 8
           {[0 := Ejemplos.una_lista]} ∅ Australia.variables 0 0
           Ejemplos.una_lista H1).
Defined.

(** X23: on a dictionary in which no two keys hold the same list,
    [backtracking_con_propagacion] returns what [backtracking] returns.
    On the same order and domains, from the empty dictionary, with a
    recursion depth above the number of variables and more turns of the
    loop of [ac3] than [cota_ac3], both return the same dictionary or both
    return [None]: forward checking and [ac3] change neither the first
    colouring found nor whether one is found.  The graph is symmetric and
    has no loops, the order has no repeated variable, holds the neighbours
    of its variables and the same variables as the global list, and every
    variable has an adjacency entry and a domain. *)
Theorem backtracking_con_propagacion_devuelve_lo_que_backtracking
    adyacentes variables orden_vars pasos_ac3 fuel h dominios d :
  sin_compartir d →
  simetrica adyacentes → sin_lazos adyacentes →
  NoDup orden_vars → cerrado adyacentes orden_vars →
  (∀ v, v ∈ orden_vars → is_Some (adyacentes !! v)) →
  (∀ v, v ∈ variables ↔ v ∈ orden_vars) →
  h !! dominios = Some d →
  (∀ v, v ∈ orden_vars → is_Some (leer d v)) →
  length orden_vars < fuel →
  cota_ac3 adyacentes variables (vista d) < pasos_ac3 →
  (backtracking_con_propagacion adyacentes variables pasos_ac3 fuel
     h ∅ orden_vars dominios).2
  = valor_devuelto (backtracking adyacentes fuel ∅ orden_vars (vista d)).
Proof.
  intros Hsc Hsim Hlazos Hnd Hcerr Hady Hmismas Hl Hdoms Hfuel Hcota.
  assert (Hl' : (vista <$> h) !! dominios = Some (vista d))
    by by rewrite lookup_fmap, Hl.
  assert (Hdoms' : ∀ v, v ∈ orden_vars → is_Some (vista d !! v)).
  { intros v Hv. rewrite lookup_vista. by apply Hdoms. }
  pose proof (backtracking_con_propagacion_por_valor adyacentes variables
                pasos_ac3 fuel orden_vars h ∅ dominios d Hl Hsc) as Hv.
  apply (f_equal snd) in Hv. simpl in Hv. rewrite <- Hv.
  apply (backtracking_con_propagacion_val_simula adyacentes orden_vars
           (vista d) Hnd Hsim Hlazos Hdoms' Hcerr Hady variables pasos_ac3
           Hmismas Hcota fuel (vista <$> h) ∅ dominios (vista d) Hl').
  - apply prefijo_vacio.
  - apply solucion_parcial_vacia.
  - apply recortado_inicial.
  - rewrite map_size_empty. lia.
Qed.

Lemma backtracking_con_propagacion_devuelve_lo_que_backtracking_witness :
  sin_compartir Australia.dominio_inicial ∧
  simetrica Australia.adyacentes ∧ sin_lazos Australia.adyacentes ∧
  NoDup Australia.variables ∧
  cerrado Australia.adyacentes Australia.variables ∧
  (∀ v, v ∈ Australia.variables → is_Some (Australia.adyacentes !! v)) ∧
  (∀ v, v ∈ Australia.variables ↔ v ∈ Australia.variables) ∧
  Ejemplos.almacen_inicial !! 0 = Some Australia.dominio_inicial ∧
  (∀ v, v ∈ Australia.variables →
        is_Some (leer Australia.dominio_inicial v)) ∧
  length Australia.variables < 8 ∧
  cota_ac3 Australia.adyacentes Australia.variables
           (vista Australia.dominio_inicial) < 141 ∧
  (backtracking_con_propagacion Australia.adyacentes Australia.variables
     141 8 Ejemplos.almacen_inicial ∅ Australia.variables 0).2
  = valor_devuelto (backtracking Australia.adyacentes 8 ∅ Australia.variables
                                 (vista Australia.dominio_inicial)).
Proof.
  assert (H3 : NoDup Australia.variables) by decidir.
  assert (H6 : ∀ v, v ∈ Australia.variables ↔ v ∈ Australia.variables)
    by done.
  assert (H7 : Ejemplos.almacen_inicial !! 0
               = Some Australia.dominio_inicial) by done.
  assert (H9 : length Australia.variables < 8) by (simpl; lia).
  assert (H10 : cota_ac3 Australia.adyacentes Australia.variables
                  (vista Australia.dominio_inicial) < 141)
    by (vm_compute; lia).
  split; [exact dominio_inicial_sin_compartir|].
  split; [exact adyacentes_simetrica|]. split; [exact adyacentes_sin_lazos|].
  split; [exact H3|]. split; [exact australia_cerrado|].
  split; [exact adyacentes_completo|]. split; [exact H6|].
  split; [exact H7|]. split; [exact dominio_inicial_completo|].
  split; [exact H9|]. split; [exact H10|].
  exact (backtracking_con_propagacion_devuelve_lo_que_backtracking
           Australia.adyacentes Australia.variables Australia.variables
           141 8 Ejemplos.almacen_inicial 0 Australia.dominio_inicial
           dominio_inicial_sin_compartir
           adyacentes_simetrica adyacentes_sin_lazos H3 australia_cerrado
           adyacentes_completo H6 H7 dominio_inicial_completo H9 H10).
Defined.

(** ** File 20: keys that hold the same list *)

(** X24: when [xi] and [xj] hold the same list, a removal under [xi] is a
    removal under [xj].  WA and NT, neighbours, hold the one list with
    ROJO alone; [revisar_arco] on the arc (WA, NT) finds no support for
    ROJO, removes it, and both keys read the empty list. *)
Theorem revisar_arco_lista_compartida :
  leer Ejemplos.una_lista_wa_nt "WA" = Some ["ROJO"] ∧
  leer Ejemplos.una_lista_wa_nt "NT" = Some ["ROJO"] ∧
  ∃ d', revisar_arco Australia.adyacentes "WA" "NT" Ejemplos.una_lista_wa_nt
        = Retorna (true, d') ∧
        leer d' "WA" = Some [] ∧ leer d' "NT" = Some [].
Proof.
  split; [by vm_compute|]. split; [by vm_compute|].
  exists (escribir Ejemplos.una_lista_wa_nt 0 []).
  repeat split; by vm_compute.
Qed.

(** X25: with one list under the seven keys, as [dict.fromkeys] builds,
    [backtracking_con_propagacion] returns [None] on the map of Australia
    although every region reads the three colours and [backtracking]
    returns a colouring on the same domains: a value that [ac3] removes
    under one key is removed under all of them. *)
Theorem backtracking_con_propagacion_una_lista :
  (∀ v, v ∈ Australia.variables →
        leer Ejemplos.una_lista v = Some ["ROJO"; "VERDE"; "AZUL"]) ∧
  (backtracking_con_propagacion Australia.adyacentes Australia.variables
     141 8 {[0 := Ejemplos.una_lista]} ∅ Australia.variables 0).2
  = Retorna None ∧
  backtracking Australia.adyacentes 8 ∅ Australia.variables
               (vista Ejemplos.una_lista)
  = Retorna (Exito Ejemplos.coloreo_backtracking).
Proof.
  split; [|split; by vm_compute].
  intros v Hv.
  repeat (apply elem_of_cons in Hv as [->|Hv]; [by vm_compute|]).
  by apply elem_of_nil in Hv.
Qed.
